(** * NAT: a non-autoregressive generation model on a BERT encoder

    Shallow embedding of [model.py] (class [NAT], class
    [LabelSmoothingLoss]) and the properties of its mask construction,
    loss normalisation, glancing sampling and decoding.

    Conventions of the embedding.
    - An integer tensor is a list of [Z] (one dimension), a list of rows
      (two dimensions) or a list of matrices (three dimensions); the
      first dimension is the batch.  Its entries are [torch.long]
      numbers: a sum of entries that the caller chooses (an offset, a
      supplied length) is reduced to 64 bits ([wrap64]); sums of 0/1
      masks and of positions of a sequence stay far below that range.
    - A boolean tensor is an integer tensor of 0 and 1 ([b2z]).
    - A floating-point tensor holds rationals ([Q]): the arithmetic is
      exact, except where a float is turned into an integer (the reveal
      count of the glancing), which is computed in single precision
      ([round_f32]).  Where a property depends on a divisor being
      non-zero, the theorem says so explicitly; a quotient that
      [torch] returns as nan is [None].
    - An operation of [torch] that raises on its arguments (an index out
      of range, tensors whose shapes do not fit) is a computation that
      fails; a batch of size one is broadcast where the code combines
      tensors that the caller passes separately ([broadcast],
      [add_offsets]).
    - The pretrained encoder ([self.bert]), the prediction head
      ([self.cls]) and the transcendental functions of [torch] are
      variables of the section [Model]. *)

From Stdlib Require Import List ZArith QArith Qround Qabs Qpower Lia Bool Arith
  Permutation Sorted.
Import ListNotations.

Local Open Scope Z_scope.

(** ** Tensors as lists *)

Definition b2z (b : bool) : Z := if b then 1 else 0.

(** [torch.arange(0, n)] *)
Definition arange (n : nat) : list Z := map Z.of_nat (seq 0 n).

(** [x.shape[1]] of a two-dimensional tensor. *)
Definition width {A : Type} (m : list (list A)) : nat :=
  match m with
  | [] => 0%nat
  | r :: _ => length r
  end.

(** Element-wise combination of two tensors of one shape. *)
Fixpoint map2 {A B C : Type} (f : A -> B -> C) (xs : list A) (ys : list B) : list C :=
  match xs, ys with
  | x :: xs', y :: ys' => f x y :: map2 f xs' ys'
  | _, _ => []
  end.

Definition sumZ (l : list Z) : Z := fold_right Z.add 0 l.

Definition get2 {A : Type} (m : list (list A)) (b p : nat) : option A :=
  match nth_error m b with
  | Some row => nth_error row p
  | None => None
  end.

Definition get3 {A : Type} (m : list (list (list A))) (b i j : nat) : option A :=
  match nth_error m b with
  | Some mat => get2 mat i j
  | None => None
  end.

(** ** Numbers and shapes of [torch] *)

(** The value of a [torch.long] result: two's complement on 64 bits. *)
Definition wrap64 (x : Z) : Z := (x + 2 ^ 63) mod 2 ^ 64 - 2 ^ 63.

(** The pairs of an element-wise operation on two tensors along the
    batch: the batch sizes agree, or one of them is 1 and its example is
    paired with every example of the other; [None] stands for the error
    on other batch sizes. *)
Definition broadcast {A B : Type} (x : list A) (y : list B) : option (list (A * B)) :=
  if (length x =? length y)%nat then Some (combine x y)
  else if (length x =? 1)%nat then
    Some (match x with a :: _ => map (pair a) y | [] => [] end)
  else if (length y =? 1)%nat then
    Some (match y with b :: _ => map (fun a => (a, b)) x | [] => [] end)
  else None.

(** [torch.true_divide] of two integer counts; [None] stands for a
    quotient by 0, which is no number (nan for 0/0). *)
Definition true_divide (a b : Z) : option Q :=
  if b =? 0 then None else Some (inject_Z a / inject_Z b)%Q.

(** ** [NAT.create_mask_and_position_ids] *)

(** [offset] is [None] or a tensor with one entry per example, as
    [num_tokens] has (the theorems on this function say so; the two
    callers raise on other sizes when they join source and target).
    The sum with the offset is a sum of [torch.long] numbers; the
    product with the 0/1 mask cannot leave their range. *)
Definition create_mask_and_position_ids
    (num_tokens : list Z) (max_len : nat) (offset : option (list Z))
    : list (list Z) * list (list Z) :=
  let base_position_row := arange max_len in
  let mask := map (fun c => map (fun p => b2z (p <? c)) base_position_row) num_tokens in
  let base_position_matrix :=
    match offset with
    | Some off => map (fun o => map (fun p => wrap64 (p + o)) base_position_row) off
    | None => map (fun _ => base_position_row) num_tokens
    end in
  let position_ids := map2 (map2 Z.mul) base_position_matrix mask in
  (mask, position_ids).

(** The offset that applies to example [b]. *)
Definition offset_at (offset : option (list Z)) (b : nat) : option Z :=
  match offset with
  | Some off => nth_error off b
  | None => Some 0
  end.

(** ** [NAT.create_attention_mask] *)

Definition attention_row (s t : list Z) : list (list Z) :=
  let weight := map (fun _ => 1) s ++ map (fun _ => 0) t in
  let mask := map (fun x => x =? 1) (s ++ t) in
  let wm := combine weight mask in
  map (fun from =>
         map (fun to =>
                b2z (((fst from =? 0) || (fst to =? 1)) && (snd from && snd to)))
             wm)
      wm.

(** [None] stands for the error of [torch.cat] on masks of different
    batch sizes. *)
Definition create_attention_mask (source_mask target_mask : list (list Z))
    : option (list (list (list Z))) :=
  if (length source_mask =? length target_mask)%nat
  then Some (map2 attention_row source_mask target_mask)
  else None.

(** Position [i] of the joint sequence is valid when its mask entry is 1. *)
Definition valid_at (s t : list Z) (i : nat) : Prop := nth i (s ++ t) 0 = 1.

(** ** Python indexing and slicing *)

(** The stop of a slice [l[:n]] (or the start of [l[n:]]) on a sequence
    of [len] elements: a negative bound counts from the end. *)
Definition py_bound (n : Z) (len : nat) : nat :=
  if n <? 0 then Z.to_nat (Z.max 0 (Z.of_nat len + n))
  else Nat.min (Z.to_nat n) len.

Definition slice_to {A : Type} (n : Z) (l : list A) : list A :=
  firstn (py_bound n (length l)) l.

Definition slice_from {A : Type} (n : Z) (l : list A) : list A :=
  skipn (py_bound n (length l)) l.

(** [l[i]] for a Python index: [None] stands for [IndexError]. *)
Definition py_index (i : Z) (len : nat) : option nat :=
  if (0 <=? i) && (i <? Z.of_nat len) then Some (Z.to_nat i)
  else if (- Z.of_nat len <=? i) && (i <? 0) then Some (Z.to_nat (Z.of_nat len + i))
  else None.

Fixpoint set_nth {A : Type} (k : nat) (v : A) (l : list A) : list A :=
  match l, k with
  | [], _ => []
  | _ :: l', O => v :: l'
  | x :: l', S k' => x :: set_nth k' v l'
  end.

Fixpoint mapM_opt {A B : Type} (f : A -> option B) (l : list A) : option (list B) :=
  match l with
  | [] => Some []
  | x :: l' =>
      match f x, mapM_opt f l' with
      | Some y, Some ys => Some (y :: ys)
      | _, _ => None
      end
  end.

(** ** Rational arithmetic on tensors *)

Definition sumQ (l : list Q) : Q := fold_right Qplus 0%Q l.

(** [x.long()] on a float: truncation toward zero. *)
Definition Qtrunc (q : Q) : Z := Z.quot (Qnum q) (Zpos (Qden q)).

(** *** Single precision

    The default float type of [torch]: 24 significant bits, rounding to
    nearest with ties to even, gradual underflow below $2^{-126}$.  A
    result beyond the largest number of the format (an infinity of
    [torch]) is not modelled: the rounded value is kept. *)

Definition round_half_even (q : Q) : Z :=
  let f := Qfloor q in
  match (q - inject_Z f ?= 1 # 2)%Q with
  | Lt => f
  | Gt => f + 1
  | Eq => if Z.even f then f else f + 1
  end.

(** The exponent of a positive rational: the largest [e] with
    $2^e \le q$. *)
Definition Qlog2 (q : Q) : Z :=
  let e := Z.log2 (Qnum q) - Z.log2 (Zpos (Qden q)) in
  if Qle_bool (2 ^ e) q then e else e - 1.

(** The single-precision number nearest to [q]. *)
Definition round_f32 (q : Q) : Q :=
  if Qeq_bool q 0 then 0%Q
  else
    let a := Qabs q in
    let e := Z.max (Qlog2 a) (-126) in
    let scale := (2 ^ (23 - e))%Q in
    let r := (inject_Z (round_half_even (a * scale)) / scale)%Q in
    if Qle_bool 0 q then r else (- r)%Q.

(** [(count * f).long()] for a [torch.long] count and a Python float
    [f]: count and factor are turned into single precision, the product
    is rounded to single precision and truncated toward zero. *)
Definition reveal_count (count : Z) (f : Q) : Z :=
  Qtrunc (round_f32 (round_f32 (inject_Z count) * round_f32 f)).

(** [x.max(-1)[1]]: the index of the largest entry (the first one among
    equal entries). *)
Fixpoint argmax_from (best : Q) (besti i : nat) (l : list Q) : nat :=
  match l with
  | [] => besti
  | x :: l' =>
      if Qle_bool x best then argmax_from best besti (S i) l'
      else argmax_from x i (S i) l'
  end.

Definition argmax (l : list Q) : Z :=
  match l with
  | [] => 0
  | x :: l' => Z.of_nat (argmax_from x 0 1 l')
  end.

(** [torch.sort(row, descending=True)[1]]: the indices of the entries of
    [row] from the largest to the smallest. *)
Fixpoint insert_desc (x : Q * Z) (l : list (Q * Z)) : list (Q * Z) :=
  match l with
  | [] => [x]
  | y :: l' =>
      if Qle_bool (fst y) (fst x) then x :: y :: l'
      else y :: insert_desc x l'
  end.

Definition sort_desc (l : list (Q * Z)) : list (Q * Z) :=
  fold_right insert_desc [] l.

Definition argsort_desc (row : list Q) : list Z :=
  map snd (sort_desc (combine row (arange (length row)))).

(** ** [LabelSmoothingLoss] *)

Record LabelSmoothingLoss := {
  ignore_index : Z;
  one_hot : list Q;
  confidence : Q;
  tgt_vocab_size : Z
}.

(** [LabelSmoothingLoss.__init__]; [None] stands for a failed assertion,
    the division by zero at a vocabulary of two entries, or an
    [ignore_index] outside the vocabulary. *)
Definition LabelSmoothingLoss_init
    (label_smoothing : Q) (tgt_vocab_size : Z) (ignore_index : Z)
    : option LabelSmoothingLoss :=
  if negb (negb (Qle_bool label_smoothing 0) && Qle_bool label_smoothing 1) then None
  else if negb (tgt_vocab_size >? 0) then None
  else if tgt_vocab_size - 2 =? 0 then None
  else
    let smoothing_value := (label_smoothing / inject_Z (tgt_vocab_size - 2))%Q in
    let one_hot := repeat smoothing_value (Z.to_nat tgt_vocab_size) in
    match py_index ignore_index (length one_hot) with
    | None => None
    | Some k =>
        Some {| ignore_index := ignore_index;
                one_hot := set_nth k 0%Q one_hot;
                confidence := (1 - label_smoothing)%Q;
                tgt_vocab_size := tgt_vocab_size |}
    end.

(** One row of [model_prob]: the smoothed target distribution of a
    position whose label is [target]; [None] when [scatter_] is given a
    label outside the vocabulary. *)
Definition model_prob_row (crit : LabelSmoothingLoss) (target : Z) : option (list Q) :=
  let row := one_hot crit in
  if (0 <=? target) && (target <? Z.of_nat (length row)) then
    let row := set_nth (Z.to_nat target) (confidence crit) row in
    Some (if target =? ignore_index crit then map (fun _ => 0%Q) row else row)
  else None.

Section Model.

(** [torch.log] on a positive number. *)
Variable ln : Q -> Q.

(** [torch.xlogy] *)
Definition xlogy (x y : Q) : Q :=
  if Qeq_bool x 0 then 0%Q else (x * ln y)%Q.

(** [F.kl_div(output, target, reduction='none')] at one entry. *)
Definition kl_div (output target : Q) : Q :=
  (xlogy target target - target * output)%Q.

(** The loss of one position: [F.kl_div(...).sum(2)]. *)
Definition smoothed_loss_pos (crit : LabelSmoothingLoss)
    (output : list Q) (target : Z) : option Q :=
  match model_prob_row crit target with
  | Some model_prob =>
      if (length output =? length model_prob)%nat
      then Some (sumQ (map2 kl_div output model_prob))
      else None
  | None => None
  end.

Definition same_dims {A B : Type} (x : list (list A)) (y : list (list B)) : bool :=
  (length x =? length y)%nat &&
  forallb (fun b => b) (map2 (fun r s => (length r =? length s)%nat) x y).

(** [LabelSmoothingLoss.forward] *)
Definition LabelSmoothingLoss_forward (crit : LabelSmoothingLoss)
    (output : list (list (list Q))) (target : list (list Z))
    : option (list (list Q)) :=
  if negb (forallb (forallb (fun r => Z.of_nat (length r) =? tgt_vocab_size crit)) output)
  then None
  else if negb (same_dims output target) then None
  else
    mapM_opt (fun ot => mapM_opt (fun rt => smoothed_loss_pos crit (fst rt) (snd rt))
                                 (combine (fst ot) (snd ot)))
             (combine output target).

(** ** The effects of a forward call

    A call draws random numbers from the generator of [torch] and runs
    the encoder.  The state records the generator (the sequence of its
    future draws in $[0,1)$ and the number already consumed) and the
    inputs of every encoder run, in order.  A computation returns a
    value, or [None] for a raised exception (a failed assertion, an
    index or shape error), and the state it leaves behind. *)

Record BertCall := {
  call_input_ids : list (list Z);
  call_attention_mask : list (list (list Z));
  call_token_type_ids : list (list Z);
  call_position_ids : list (list Z)
}.

Record World := {
  rng_draws : nat -> Q;
  rng_pos : nat;
  bert_calls : list BertCall
}.

Definition M (A : Type) : Type := World -> option A * World.

Definition ret {A : Type} (x : A) : M A := fun w => (Some x, w).

Definition bind {A B : Type} (m : M A) (k : A -> M B) : M B :=
  fun w => match m w with
           | (Some x, w') => k x w'
           | (None, w') => (None, w')
           end.

Definition raise {A : Type} : M A := fun w => (None, w).

Notation "x <- m ;; k" := (bind m (fun x => k))
  (at level 61, m at next level, right associativity).
Notation "' pat <- m ;; k" := (bind m (fun x => match x with pat => k end))
  (at level 61, pat pattern, m at next level, right associativity).

Definition assert (b : bool) : M unit := if b then ret tt else raise.

Definition lift_opt {A : Type} (o : option A) : M A :=
  match o with
  | Some x => ret x
  | None => raise
  end.

(** The next [n] draws of the generator. *)
Definition rand (n : nat) : M (list Q) :=
  fun w => (Some (map (fun k => rng_draws w (rng_pos w + k)%nat) (seq 0 n)),
            {| rng_draws := rng_draws w;
               rng_pos := (rng_pos w + n)%nat;
               bert_calls := bert_calls w |}).

Fixpoint chunks {A : Type} (rows cols : nat) (l : list A) : list (list A) :=
  match rows with
  | O => []
  | S r => firstn cols l :: chunks r cols (skipn cols l)
  end.

(** [torch.rand((rows, cols))] *)
Definition rand_tensor (rows cols : nat) : M (list (list Q)) :=
  draws <- rand (rows * cols) ;;
  ret (chunks rows cols draws).

(** [torch.randint(lo, hi, (n,))]; an empty range raises. *)
Definition randint (lo hi : Z) (n : nat) : M (list Z) :=
  _ <- assert (lo <? hi) ;;
  draws <- rand n ;;
  ret (map (fun u => lo + Qfloor (u * inject_Z (hi - lo))) draws).

(** The state after the encoder runs [ext] and no random draw. *)
Definition with_calls (w : World) (ext : list BertCall) : World :=
  {| rng_draws := rng_draws w;
     rng_pos := rng_pos w;
     bert_calls := bert_calls w ++ ext |}.

(** A computation that draws no random number: its result and the
    encoder runs it makes are the same from every state. *)
Definition rng_free {A : Type} (m : M A) : Prop :=
  exists (r : option A) (ext : list BertCall), forall w, m w = (r, with_calls w ext).


(** The computation [m] raises nothing and its result satisfies [P],
    from every state. *)
Definition returns {A : Type} (m : M A) (P : A -> Prop) : Prop :=
  forall w, exists x w', m w = (Some x, w') /\ P x.

(** The encoder: the last hidden states [B x L x C] of a run. *)
Variable bert : BertCall -> list (list (list Q)).

Definition call_bert (c : BertCall) : M (list (list (list Q))) :=
  fun w => (Some (bert c),
            {| rng_draws := rng_draws w;
               rng_pos := rng_pos w;
               bert_calls := bert_calls w ++ [c] |}).

(** The prediction head: hidden states [B x T x C] to vocabulary scores
    [B x T x V]. *)
Variable cls : list (list (list Q)) -> list (list (list Q)).

(** [F.log_softmax(x, -1)] on one row. *)
Variable log_softmax : list Q -> list Q.

(** The cross-entropy of one row of scores against one class
    ([F.cross_entropy] and [nn.CrossEntropyLoss] without reduction). *)
Variable cross_entropy : list Q -> Z -> Q.

(** [self.embed_length.weight] ([512 x C]) and [C], the hidden size of
    the encoder. *)
Variable embed_length_weight : list (list Q).
Variable encoder_embed_dim : nat.

(** ** The model *)

Record NAT := {
  use_glat : bool;
  glat_random_prob : option Q;
  glat_f : Q;
  mask_word_id : Z;
  sep_word_id : Z;
  pad_word_id : Z;
  label_smoothing : Q;
  vocab_size : Z;
  crit_mask_lm_smoothed : option LabelSmoothingLoss
}.

Definition source_type_id : Z := 0.
Definition target_type_id : Z := 1.

(** [NAT.__init__], the part that does not load weights: the criterion
    is the label-smoothed one when [label_smoothing] is positive, the
    plain cross-entropy otherwise. *)
Definition NAT_init (use_glat : bool) (glat_random_prob : option Q) (glat_f : Q)
    (label_smoothing : Q) (sep_word_id mask_word_id pad_word_id : Z)
    (vocab_size : Z) : option NAT :=
  let mk crit :=
    {| use_glat := use_glat; glat_random_prob := glat_random_prob;
       glat_f := glat_f; mask_word_id := mask_word_id;
       sep_word_id := sep_word_id; pad_word_id := pad_word_id;
       label_smoothing := label_smoothing; vocab_size := vocab_size;
       crit_mask_lm_smoothed := crit |} in
  if negb (Qle_bool label_smoothing 0) then
    match LabelSmoothingLoss_init label_smoothing vocab_size 0 with
    | Some crit => Some (mk (Some crit))
    | None => None
    end
  else Some (mk None).

Variable self : NAT.

(** Sum of the rows of a [T x C] matrix. *)
Definition vsum (rows : list (list Q)) : list Q :=
  fold_right (map2 Qplus) (repeat 0%Q encoder_embed_dim) rows.

Definition dot (x y : list Q) : Q := sumQ (map2 Qmult x y).

(** [F.linear(x, weight)] on one row. *)
Definition linear (x : list Q) (weight : list (list Q)) : list Q :=
  map (dot x) weight.

(** [NAT.forward_length] *)
Definition forward_length (enc_feats : list (list (list Q))) (src_masks : list (list Z))
    : list (list Q) :=
  map2 (fun feats mask =>
          let count := inject_Z (sumZ mask) in
          let pooled :=
            vsum (map2 (fun feat m => map (fun x => (x / count * inject_Z m)%Q) feat)
                       feats mask) in
          log_softmax (linear pooled embed_length_weight))
       enc_feats src_masks.

(** [NAT.feed_bert] *)
Definition feed_bert (input_ids source_mask target_mask token_type_ids position_ids
                      : list (list Z)) : M (list (list (list Q))) :=
  attention_mask <- lift_opt (create_attention_mask source_mask target_mask) ;;
  call_bert {| call_input_ids := input_ids;
               call_attention_mask := attention_mask;
               call_token_type_ids := token_type_ids;
               call_position_ids := position_ids |}.

(** [torch.cat((x, y), dim=1)] *)
Definition cat1 {A : Type} (x y : list (list A)) : M (list (list A)) :=
  _ <- assert (length x =? length y)%nat ;;
  ret (map2 (@app A) x y).

(** [torch.ones_like(x) * v] *)
Definition full_like (x : list (list Z)) (v : Z) : list (list Z) :=
  map (map (fun _ => 1 * v)) x.

(** [x[idx]] for a tensor [idx] of indices. *)
Definition gather (x : list Z) (idx : list Z) : option (list Z) :=
  mapM_opt (fun i => match py_index i (length x) with
                     | Some k => nth_error x k
                     | None => None
                     end) idx.

(** [x[idx] = vals] for index and value tensors of one length. *)
Fixpoint assign (x : list Z) (idx vals : list Z) : option (list Z) :=
  match idx, vals with
  | [], [] => Some x
  | i :: idx', v :: vals' =>
      match py_index i (length x) with
      | Some k => assign (set_nth k v x) idx' vals'
      | None => None
      end
  | _, _ => None
  end.

(** [x[m]] for a boolean tensor [m] of the length of [x]. *)
Definition select (x : list Z) (m : list bool) : option (list Z) :=
  if (length x =? length m)%nat
  then Some (map fst (filter snd (combine x m)))
  else None.

(** The number of valid target positions of an example at which the
    draft prediction differs from the ground truth. *)
Definition mismatches (prediction target mask : list Z) : Z :=
  sumZ (map2 (fun d m => b2z (d && (m =? 1)))
             (map2 (fun p t => negb (p =? t)) prediction target) mask).

(** The positions below [valid] at which two pseudo targets differ. *)
Definition changed_positions (before after : list Z) (valid : Z) : list nat :=
  filter (fun p => negb (nth p before 0 =? nth p after 0)) (seq 0 (Z.to_nat valid)).

(** One round of the loop of [forward_glat]: the pseudo target of one
    example after the reveal. *)
Definition glat_reveal (indice : list Z) (ind_mask : list bool)
    (target_mask target_ids pseudo_ids : list Z) (n : Z) : M (list Z) :=
  let indice := filter (fun k => k <? sumZ target_mask) indice in
  match glat_random_prob self with
  | Some prob =>
      if negb (Qeq_bool prob 0) then
        let ind := slice_to n indice in
        let ind_mask := slice_to n ind_mask in
        kept <- lift_opt (select ind ind_mask) ;;
        vals <- lift_opt (gather target_ids kept) ;;
        pseudo_ids <- lift_opt (assign pseudo_ids kept vals) ;;
        let rn := n - sumZ (map b2z ind_mask) in
        if rn >? 0 then
          noise <- randint 0 (vocab_size self - 1) (Z.to_nat rn) ;;
          rest <- lift_opt (select ind (map negb ind_mask)) ;;
          let noise := if rn =? 1 then map (fun _ => hd 0 noise) rest else noise in
          lift_opt (assign pseudo_ids rest noise)
        else ret pseudo_ids
      else
        vals <- lift_opt (gather target_ids (slice_to n indice)) ;;
        lift_opt (assign pseudo_ids (slice_to n indice) vals)
  | None =>
      vals <- lift_opt (gather target_ids (slice_to n indice)) ;;
      lift_opt (assign pseudo_ids (slice_to n indice) vals)
  end.

Fixpoint glat_loop (indices : list (list Z)) (ind_masks : list (list bool))
    (target_mask target_ids pseudo_ids : list (list Z)) (N : list Z) (i : nat)
    : M (list (list Z)) :=
  match indices with
  | [] => ret pseudo_ids
  | indice :: indices' =>
      tm <- lift_opt (nth_error target_mask i) ;;
      n <- lift_opt (nth_error N i) ;;
      tgt <- lift_opt (nth_error target_ids i) ;;
      row <- lift_opt (nth_error pseudo_ids i) ;;
      row' <- glat_reveal indice (nth i ind_masks []) tm tgt row n ;;
      glat_loop indices' ind_masks target_mask target_ids (set_nth i row' pseudo_ids) N (S i)
  end.

(** [NAT.forward_glat] *)
Definition forward_glat (source_ids target_ids pseudo_ids : list (list Z))
    (num_source_tokens num_target_tokens : list Z)
    : M (list (list Z) * list Z) :=
  let source_len := width source_ids in
  let target_len := width target_ids in
  let pseudo_len := width pseudo_ids in
  _ <- assert (target_len =? pseudo_len)%nat ;;
  _ <- assert ((0 <? source_len)%nat && (0 <? target_len)%nat) ;;
  input_ids <- cat1 source_ids pseudo_ids ;;
  token_type_ids <- cat1 (full_like source_ids source_type_id)
                         (full_like pseudo_ids target_type_id) ;;
  let '(source_mask, source_position_ids) :=
    create_mask_and_position_ids num_source_tokens source_len None in
  let '(target_mask, target_position_ids) :=
    create_mask_and_position_ids num_target_tokens target_len (Some num_source_tokens) in
  position_ids <- cat1 source_position_ids target_position_ids ;;
  sequence_output <- feed_bert input_ids source_mask target_mask
                               token_type_ids position_ids ;;
  let pseudo_sequence_output := map (slice_from (Z.of_nat source_len)) sequence_output in
  let prediction_scores_masked := cls pseudo_sequence_output in
  let prediction_tokens := map (map argmax) prediction_scores_masked in
  _ <- assert (same_dims prediction_tokens target_ids && same_dims target_ids target_mask) ;;
  let N := map2 (fun pm t => reveal_count (mismatches (fst pm) t (snd pm)) (glat_f self))
                (combine prediction_tokens target_mask) target_ids in
  noise <- rand_tensor (length pseudo_ids) pseudo_len ;;
  let indices := map argsort_desc noise in
  ind_masks <- match glat_random_prob self with
               | Some prob =>
                   if negb (Qeq_bool prob 0) then
                     u <- rand_tensor (length pseudo_ids) pseudo_len ;;
                     ret (map (map (fun x => negb (Qle_bool x prob))) u)
                   else ret []
               | None => ret []
               end ;;
  pseudo_ids <- glat_loop indices ind_masks target_mask target_ids pseudo_ids N 0 ;;
  ret (pseudo_ids, N).

(** [length_out.max().item()]; the maximum of an empty tensor raises. *)
Definition max_item (l : list Z) : M Z :=
  match l with
  | [] => raise
  | x :: l' => ret (fold_right Z.max x l')
  end.

(** The source length that the last encoder run of a decoding is cut
    to: the source is truncated when source and target together exceed
    the 512 positions of the encoder. *)
Definition decode_source_len (input_ids : list (list Z)) (target_len : Z) : Z :=
  if target_len + Z.of_nat (width input_ids) >? 512
  then 512 - target_len else Z.of_nat (width input_ids).

(** The inputs of the encoder run of [forward_decode] that predicts the
    lengths: the source alone, every pair of non-pad tokens visible. *)
Definition length_pass_call (input_ids token_type_ids position_ids : list (list Z))
    : BertCall :=
  let weight := map (map (fun x => if x =? pad_word_id self then 0 else 1)) input_ids in
  let attention_mask :=
    map (fun w => map (fun from => map (fun to => b2z ((from >? 0) && (to >? 0))) w) w)
        weight in
  {| call_input_ids := input_ids;
     call_attention_mask := attention_mask;
     call_token_type_ids := token_type_ids;
     call_position_ids := position_ids |}.

(** [NAT.forward_decode] *)
Definition forward_decode (input_ids token_type_ids position_ids input_mask : list (list Z))
    (length_out : option (list Z)) : M (list (list Z) * list Z) :=
  let source_len := width input_ids in
  let token_type_ids := map (firstn source_len) token_type_ids in
  let position_ids := map (firstn source_len) position_ids in
  let source_ids := input_ids in
  let source_mask := map (map (fun x => b2z (negb (x =? pad_word_id self)))) input_ids in
  let source_position_ids := position_ids in
  length_out <-
    match length_out with
    | None =>
        sequence_output <-
          call_bert (length_pass_call input_ids token_type_ids position_ids) ;;
        let length_out := forward_length sequence_output source_mask in
        let length_out := map argmax length_out in
        let length_out := map (fun x => if x >? 48 then 48 else x) length_out in
        let length_out := map (fun x => if x <? 7 then 7 else x) length_out in
        ret length_out
    | Some given => ret (map (fun x => wrap64 (x + 1)) given)
    end ;;
  target_len <- max_item length_out ;;
  let truncate := target_len + Z.of_nat source_len >? 512 in
  let source_len := if truncate then 512 - target_len else Z.of_nat source_len in
  let source_ids := if truncate then map (slice_to source_len) source_ids else source_ids in
  let source_position_ids :=
    if truncate then map (slice_to source_len) source_position_ids else source_position_ids in
  let source_mask := if truncate then map (slice_to source_len) source_mask else source_mask in
  _ <- assert (0 <=? target_len) ;;
  let base_position_row := arange (Z.to_nat target_len) in
  let pseudo_mask := map (fun len => map (fun p => p <? len) base_position_row) length_out in
  _ <- assert (length source_mask =? length pseudo_mask)%nat ;;
  let pseudo_position_ids :=
    map2 (fun pm sm => map2 (fun p m => p * b2z m + sumZ sm) base_position_row pm)
         pseudo_mask source_mask in
  let pseudo_ids :=
    map (map (fun m : bool => if m then mask_word_id self else pad_word_id self)) pseudo_mask in
  input_ids <- cat1 source_ids pseudo_ids ;;
  position_ids <- cat1 source_position_ids pseudo_position_ids ;;
  token_type_ids <- cat1 (full_like source_ids source_type_id)
                         (full_like pseudo_ids target_type_id) ;;
  sequence_output <- feed_bert input_ids source_mask (map (map b2z) pseudo_mask)
                               token_type_ids position_ids ;;
  let prediction_scores := cls (map (slice_from source_len) sequence_output) in
  let prediction_tokens := map (map argmax) prediction_scores in
  _ <- assert (same_dims prediction_tokens pseudo_mask) ;;
  let prediction_tokens :=
    map2 (map2 (fun tok (m : bool) => if m then tok else pad_word_id self))
         prediction_tokens pseudo_mask in
  ret (prediction_tokens, length_out).

(** The literal [1e-5] of the loss normalisation. *)
Definition epsilon : Q := 1 # 100000.

(** [torch.sum(x)] of a two-dimensional tensor: the sum of all its
    entries. *)
Definition sum_all (x : list (list Q)) : Q := sumQ (concat x).

(** [loss_mask_and_normalize], the local function of [NAT.forward];
    [denominator] is its local variable of that name. *)
Definition denominator (mask : list (list Z)) : Q :=
  (sum_all (map (map inject_Z) mask) + epsilon)%Q.

Definition loss_mask_and_normalize (loss : list (list Q)) (mask : list (list Z)) : Q :=
  let denominator := denominator mask in
  let mask := map (map inject_Z) mask in
  let loss := map2 (map2 Qmult) loss mask in
  sum_all (map (map (fun x => (x / denominator)%Q)) loss).

Inductive ForwardResult :=
| Decoded (prediction_tokens : list (list Z)) (pred_length_out : list Z)
          (len_acc tokens_acc : option Q)
| Losses (pseudo_lm_loss length_loss : Q) (glancing : option Q).

(** The per-position token loss of the training pass: the criterion
    chosen at construction. *)
Definition masked_lm_loss (prediction_scores_masked : list (list (list Q)))
    (target_ids : list (list Z)) : option (list (list Q)) :=
  match crit_mask_lm_smoothed self with
  | Some crit =>
      LabelSmoothingLoss_forward crit
        (map (map log_softmax) prediction_scores_masked) target_ids
  | None =>
      if same_dims prediction_scores_masked target_ids
      then Some (map2 (map2 cross_entropy) prediction_scores_masked target_ids)
      else None
  end.

(** The token loss as the spec words it: each example is normalised by
    its own count of valid target positions, and the results are summed
    over the batch. *)
Definition per_example_normalize (loss : list (list Q)) (mask : list (list Z)) : Q :=
  sumQ (map2 (fun l m =>
                let m := map inject_Z m in
                (sumQ (map2 Qmult l m) / (sumQ m + epsilon))%Q)
             loss mask).

(** [NAT.forward] *)
Definition forward (source_ids target_ids pseudo_ids : list (list Z))
    (num_source_tokens num_target_tokens : list Z) (decode : bool)
    : M ForwardResult :=
  if decode then
    let pad := pad_word_id self in
    let source_mask := map (map (fun x => negb (x =? pad))) source_ids in
    let position_ids := map (fun _ => arange (width source_ids)) source_ids in
    let position_ids :=
      map2 (map2 (fun p (m : bool) => if negb m then 0 else p)) position_ids source_mask in
    let token_type_ids := map (map (fun _ => 0)) source_ids in
    let token_type_ids :=
      map2 (map2 (fun t (m : bool) => if negb m then 1 else t)) token_type_ids source_mask in
    let length_out := map (fun row => sumZ (map (fun x => b2z (negb (x =? pad))) row))
                          target_ids in
    ' (prediction_tokens, pred_length_out) <-
        forward_decode source_ids token_type_ids position_ids
                       (map (map b2z) source_mask) None ;;
    pairs <- lift_opt (broadcast length_out pred_length_out) ;;
    let len_acc := sumZ (map (fun ab : Z * Z => b2z (fst ab =? snd ab)) pairs) in
    let min_size := Nat.min (width target_ids) (width prediction_tokens) in
    let _target_mask := map (fun row => firstn min_size (map (fun x => negb (x =? pad)) row))
                            target_ids in
    rows <- lift_opt (broadcast prediction_tokens target_ids) ;;
    let equal :=
      map (fun pt : list Z * list Z =>
             map2 Z.eqb (firstn min_size (fst pt)) (firstn min_size (snd pt)))
          rows in
    masked <- lift_opt (broadcast equal _target_mask) ;;
    let hits :=
      map (fun em : list bool * list bool =>
             map2 (fun (e m : bool) => if negb m then 0 else b2z e) (fst em) (snd em))
          masked in
    let tokens_acc :=
      true_divide (sumZ (concat hits))
                  (sumZ (concat (map (map b2z) _target_mask))) in
    let len_acc := true_divide len_acc (Z.of_nat (length length_out)) in
    ret (Decoded prediction_tokens pred_length_out len_acc tokens_acc)
  else
    ' (pseudo_ids, N) <-
        (if use_glat self then
           ' (pseudo_ids, N) <- forward_glat source_ids target_ids pseudo_ids
                                             num_source_tokens num_target_tokens ;;
           ret (pseudo_ids, Some N)
         else ret (pseudo_ids, None)) ;;
    let source_len := width source_ids in
    let target_len := width target_ids in
    let pseudo_len := width pseudo_ids in
    _ <- assert (target_len =? pseudo_len)%nat ;;
    _ <- assert ((0 <? source_len)%nat && (0 <? target_len)%nat) ;;
    input_ids <- cat1 source_ids pseudo_ids ;;
    token_type_ids <- cat1 (full_like source_ids source_type_id)
                           (full_like pseudo_ids target_type_id) ;;
    let '(source_mask, source_position_ids) :=
      create_mask_and_position_ids num_source_tokens source_len None in
    let '(target_mask, target_position_ids) :=
      create_mask_and_position_ids num_target_tokens target_len (Some num_source_tokens) in
    position_ids <- cat1 source_position_ids target_position_ids ;;
    sequence_output <- feed_bert input_ids source_mask target_mask
                                 token_type_ids position_ids ;;
    let length_tgt := map sumZ target_mask in
    let length_out :=
      forward_length (map (firstn source_len) sequence_output) source_mask in
    _ <- assert (length length_out =? length length_tgt)%nat ;;
    let length_loss :=
      (sumQ (map2 cross_entropy length_out length_tgt)
       / inject_Z (Z.of_nat (length length_out)))%Q in
    let pseudo_sequence_output := map (slice_from (Z.of_nat source_len)) sequence_output in
    let prediction_scores_masked := cls pseudo_sequence_output in
    losses <- lift_opt (masked_lm_loss prediction_scores_masked target_ids) ;;
    _ <- assert (same_dims losses target_mask) ;;
    let pseudo_lm_loss := loss_mask_and_normalize losses target_mask in
    match N with
    | Some N =>
        ret (Losses pseudo_lm_loss length_loss
                    (Some (inject_Z (sumZ N) / inject_Z (Z.of_nat (length N)))%Q))
    | None => ret (Losses pseudo_lm_loss length_loss None)
    end.

End Model.

(** ** Tensors that agree at the valid positions *)

(** Two loss tensors of one shape that hold the same number wherever
    the mask is not 0. *)
Definition losses_agree_on_valid (loss1 loss2 : list (list Q))
    (mask : list (list Z)) : Prop :=
  length loss1 = length loss2 /\
  Forall2 (fun (rows : list Q * list Q) m =>
             length (fst rows) = length (snd rows) /\
             Forall2 (fun (p : Q * Q) x => x <> 0 -> (fst p == snd p)%Q)
                     (combine (fst rows) (snd rows)) m)
          (combine loss1 loss2) mask.

(** Two encoder outputs of one shape that hold the same hidden state
    wherever the mask is not 0. *)
Definition feats_agree_on_valid (feats1 feats2 : list (list (list Q)))
    (masks : list (list Z)) : Prop :=
  length feats1 = length feats2 /\
  Forall2 (fun (rows : list (list Q) * list (list Q)) m =>
             length (fst rows) = length (snd rows) /\
             Forall2 (fun (p : list Q * list Q) x =>
                        length (fst p) = length (snd p) /\
                        (x <> 0 -> fst p = snd p))
                     (combine (fst rows) (snd rows)) m)
          (combine feats1 feats2) masks.


(** ** The helpers [select_worst_as_mask] and [assign_single_value_long] *)

(** The order of pairs by their first component. *)
Definition le_fst (a b : Q * Z) : Prop := (fst a <= fst b)%Q.

(** [torch.sort(row)[1]]: the indices of the entries of [row] from the
    smallest to the largest. *)
Fixpoint insert_asc (x : Q * Z) (l : list (Q * Z)) : list (Q * Z) :=
  match l with
  | [] => [x]
  | y :: l' =>
      if Qle_bool (fst x) (fst y) then x :: y :: l'
      else y :: insert_asc x l'
  end.

Definition sort_asc (l : list (Q * Z)) : list (Q * Z) :=
  fold_right insert_asc [] l.

Definition argsort_asc (row : list Q) : list Z :=
  map snd (sort_asc (combine row (arange (length row)))).

(** [row.topk(k, largest=False, sorted=False)[1]]: the indices of the
    [k] smallest entries; [None] when [k] exceeds the length of [row].
    The order of the result is not specified by [torch]; the model
    returns the indices by increasing entry. *)
Definition topk_smallest (k : nat) (row : list Q) : option (list Z) :=
  if (k <=? length row)%nat then Some (firstn k (argsort_asc row)) else None.

(** [select_worst_as_mask]: [None] stands for the error of [topk] on a
    count above the sequence length, of [num_mask[batch]] on a missing
    entry and of [torch.stack] on an empty batch. *)
Definition select_worst_as_mask (token_probs : list (list Q)) (num_mask : list Z)
    : option (list (list Z)) :=
  let bsz := length token_probs in
  let seq_len := width token_probs in
  match mapM_opt (fun br : nat * list Q =>
                    match nth_error num_mask (fst br) with
                    | Some n => topk_smallest (Z.to_nat (Z.max 1 n)) (snd br)
                    | None => None
                    end)
                 (combine (seq 0 bsz) token_probs) with
  | Some masks =>
      let masks :=
        map (fun mask => mask ++ repeat (hd 0 mask) (seq_len - length mask)) masks in
      match masks with
      | [] => None
      | _ => Some masks
      end
  | None => None
  end.

(** [i + torch.arange(0, b*l, l).unsqueeze(1)]: the index rows plus
    the column of row offsets.  The index tensor has one row per offset,
    or one row that is added to every offset, or the column has one
    offset that is added to every row; [None] stands for the error on
    other sizes.  An index is a [torch.long] number and an offset is
    below the size of the tensor, so a sum that leaves 64 bits is out
    of the tensor before and after wrapping: it is written unwrapped. *)
Definition add_offsets (i : list (list Z)) (offsets : list Z) : option (list (list Z)) :=
  if (length i =? length offsets)%nat then
    Some (map2 (fun row o => map (fun v => v + o) row) i offsets)
  else if (length i =? 1)%nat then
    Some (map (fun o => map (fun v => v + o) (hd [] i)) offsets)
  else if (length offsets =? 1)%nat then
    Some (map (map (fun v => v + hd 0 offsets)) i)
  else None.

(** [assign_single_value_long]: the tensor [x] after the call.  [None]
    stands for the error of [torch.arange] on a step of zero (rows
    without entries), of the sum on an index tensor whose rows can
    neither be matched with the rows of [x] nor broadcast, and of the
    indexing on a flat index outside [x]. *)
Definition assign_single_value_long (x : list (list Z)) (i : list (list Z)) (y : Z)
    : option (list (list Z)) :=
  let b := length x in
  let l := width x in
  if (l =? 0)%nat then None
  else
    let offsets := map (fun r => Z.of_nat (r * l)) (seq 0 b) in
    match add_offsets i offsets with
    | Some rows =>
        let flat_index := concat rows in
        match assign (concat x) flat_index (map (fun _ => y) flat_index) with
        | Some flat => Some (chunks b l flat)
        | None => None
        end
    | None => None
    end.

(** ** A deterministic encoder for concrete runs

    The hidden state of a token tells whether its id is 11 or 12; the
    head predicts token 1 at every position; the length table scores
    length 3 on the first feature and length 60 on the second. *)

Module Stub.

Definition b2q (b : bool) : Q := if b then 1%Q else 0%Q.

Definition ln (x : Q) : Q := x.

Definition log_softmax (l : list Q) : list Q := l.

Definition cross_entropy (scores : list Q) (label : Z) : Q := 1%Q.

Definition bert (c : BertCall) : list (list (list Q)) :=
  map (map (fun tok => [b2q (tok =? 11); b2q (tok =? 12)])) (call_input_ids c).

Definition cls (h : list (list (list Q))) : list (list (list Q)) :=
  map (map (fun _ => [0%Q; 1%Q; 0%Q])) h.

Definition embed_length_weight : list (list Q) :=
  map (fun k => [b2q (k =? 3); b2q (k =? 60)]) (arange 512).

Definition encoder_embed_dim : nat := 2.

Definition world : World :=
  {| rng_draws := fun k => (Z.of_nat (k * 7 mod 10) # 10)%Q;
     rng_pos := 0;
     bert_calls := [] |}.

(** A second state: other draws, some already consumed. *)
Definition world' : World :=
  {| rng_draws := fun k => (Z.of_nat (k * 3 mod 7) # 7)%Q;
     rng_pos := 5;
     bert_calls := [] |}.

(** A model without label smoothing on a vocabulary of three tokens. *)
Definition config (use_glat : bool) (glat_f : Q) : NAT :=
  {| use_glat := use_glat; glat_random_prob := None; glat_f := glat_f;
     mask_word_id := 103; sep_word_id := 102; pad_word_id := 0;
     label_smoothing := 0; vocab_size := 3; crit_mask_lm_smoothed := None |}.

(** The inputs of the encoder run of the glancing pass on the batch of
    the concrete runs: two sources of three tokens, two all-mask pseudo
    targets of three tokens, one and three valid target positions. *)
Definition glat_pass_call : BertCall :=
  {| call_input_ids := [[11; 12; 0; 103; 103; 103]; [11; 12; 13; 103; 103; 103]];
     call_attention_mask :=
       [[[1; 1; 0; 0; 0; 0]; [1; 1; 0; 0; 0; 0]; [0; 0; 0; 0; 0; 0];
         [1; 1; 0; 1; 0; 0]; [0; 0; 0; 0; 0; 0]; [0; 0; 0; 0; 0; 0]];
        [[1; 1; 1; 0; 0; 0]; [1; 1; 1; 0; 0; 0]; [1; 1; 1; 0; 0; 0];
         [1; 1; 1; 1; 1; 1]; [1; 1; 1; 1; 1; 1]; [1; 1; 1; 1; 1; 1]]];
     call_token_type_ids := [[0; 0; 0; 1; 1; 1]; [0; 0; 0; 1; 1; 1]];
     call_position_ids := [[0; 1; 0; 2; 0; 0]; [0; 1; 2; 3; 4; 5]] |}.

Definition forward (self : NAT) :=
  forward ln bert cls log_softmax cross_entropy embed_length_weight
          encoder_embed_dim self.

Definition forward_glat (self : NAT) := forward_glat bert cls self.

Definition forward_decode (self : NAT) :=
  forward_decode bert cls log_softmax embed_length_weight encoder_embed_dim self.

End Stub.

(** ** Facts on lists *)

Lemma nth_error_map2 {A B C : Type} (f : A -> B -> C) xs ys n x y :
  nth_error xs n = Some x -> nth_error ys n = Some y ->
  nth_error (map2 f xs ys) n = Some (f x y).
Proof.
  revert ys n. induction xs as [|a xs IH]; intros [|b ys] [|n] Hx Hy;
    simpl in *; try discriminate.
  - congruence.
  - now apply IH.
Qed.

Lemma length_map2 {A B C : Type} (f : A -> B -> C) xs ys :
  length (map2 f xs ys) = Nat.min (length xs) (length ys).
Proof.
  revert ys. induction xs as [|a xs IH]; intros [|b ys]; simpl; auto.
Qed.

Lemma length_arange n : length (arange n) = n.
Proof. unfold arange. now rewrite length_map, length_seq. Qed.

Lemma nth_error_arange n p :
  (p < n)%nat -> nth_error (arange n) p = Some (Z.of_nat p).
Proof.
  intros H. unfold arange.
  rewrite nth_error_map, nth_error_seq.
  destruct (Nat.ltb_spec p n); [reflexivity | lia].
Qed.

Lemma nth_error_map_some {A B : Type} (f : A -> B) l n x :
  nth_error l n = Some x -> nth_error (map f l) n = Some (f x).
Proof. intros H. now rewrite nth_error_map, H. Qed.

(** ** Properties of [create_mask_and_position_ids] *)

Lemma wrap64_id (x : Z) : - 2 ^ 63 <= x < 2 ^ 63 -> wrap64 x = x.
Proof. intros H. unfold wrap64. rewrite Z.mod_small by lia. lia. Qed.

Lemma wrap64_range (x : Z) : - 2 ^ 63 <= wrap64 x < 2 ^ 63.
Proof.
  unfold wrap64.
  pose proof (Z.mod_pos_bound (x + 2 ^ 63) (2 ^ 64) ltac:(lia)). lia.
Qed.

(** The rows of [create_mask_and_position_ids] for one example. *)
Lemma mask_and_position_rows num_tokens max_len offset b c o :
  nth_error num_tokens b = Some c ->
  offset_at offset b = Some o ->
  nth_error (fst (create_mask_and_position_ids num_tokens max_len offset)) b
  = Some (map (fun p => b2z (p <? c)) (arange max_len)) /\
  nth_error (snd (create_mask_and_position_ids num_tokens max_len offset)) b
  = Some (map (fun p => match offset with
                        | Some _ => wrap64 (p + o)
                        | None => p
                        end * b2z (p <? c)) (arange max_len)).
Proof.
  intros Hc Ho. unfold create_mask_and_position_ids. cbn [fst snd].
  pose proof (nth_error_map_some
                (fun c0 => map (fun p => b2z (p <? c0)) (arange max_len))
                num_tokens b c Hc) as Hm.
  cbv beta in Hm. split; [exact Hm|].
  assert (Hb : nth_error
                 match offset with
                 | Some off =>
                     map (fun o0 => map (fun q => wrap64 (q + o0)) (arange max_len)) off
                 | None => map (fun _ => arange max_len) num_tokens
                 end b
               = Some (map (fun q => match offset with
                                     | Some _ => wrap64 (q + o)
                                     | None => q
                                     end) (arange max_len))).
  { destruct offset as [off|]; simpl in Ho.
    - exact (nth_error_map_some
               (fun o0 => map (fun q => wrap64 (q + o0)) (arange max_len)) off b o Ho).
    - rewrite (nth_error_map_some (fun _ => arange max_len) num_tokens b c Hc).
      now rewrite map_id. }
  rewrite (nth_error_map2 _ _ _ _ _ _ Hb Hm). f_equal.
  generalize (arange max_len). intros l.
  induction l as [|p l IH]; simpl; [reflexivity | now rewrite IH].
Qed.

(** C4 — with one offset per example (or none, which counts as 0), mask
    and position indices have one row per example and nothing raises;
    for the count [c] and the offset [o] of example [b], position [p]
    below [max_len] is valid (mask 1) exactly when [p < c]; its position
    index is 0 when invalid and the [torch.long] sum of [p] and [o]
    when valid, which is [p + o] whenever that sum stays within 64
    bits; counts at or above [max_len] mark every position valid. *)
Theorem create_mask_and_position_ids_spec :
  forall num_tokens max_len offset b c o p,
    match offset with
    | Some off => length off = length num_tokens
    | None => True
    end ->
    nth_error num_tokens b = Some c ->
    offset_at offset b = Some o ->
    (p < max_len)%nat ->
    let '(mask, position_ids) := create_mask_and_position_ids num_tokens max_len offset in
    length mask = length num_tokens /\
    length position_ids = length num_tokens /\
    get2 mask b p = Some (if Z.of_nat p <? c then 1 else 0) /\
    get2 position_ids b p
    = Some (if Z.of_nat p <? c
            then match offset with
                 | Some _ => wrap64 (Z.of_nat p + o)
                 | None => Z.of_nat p
                 end
            else 0) /\
    (- 2 ^ 63 <= Z.of_nat p + o < 2 ^ 63 ->
     get2 position_ids b p = Some (if Z.of_nat p <? c then Z.of_nat p + o else 0)) /\
    (Z.of_nat max_len <= c -> get2 mask b p = Some 1).
Proof.
  intros num_tokens max_len offset b c o p Hsize Hc Ho Hp.
  destruct (mask_and_position_rows num_tokens max_len offset b c o Hc Ho) as [Hm Hpos].
  assert (Hlens : length (fst (create_mask_and_position_ids num_tokens max_len offset))
                  = length num_tokens /\
                  length (snd (create_mask_and_position_ids num_tokens max_len offset))
                  = length num_tokens).
  { unfold create_mask_and_position_ids. cbn [fst snd].
    split; [now rewrite length_map|].
    rewrite length_map2, length_map.
    destruct offset as [off|]; rewrite length_map; lia. }
  destruct (create_mask_and_position_ids num_tokens max_len offset) as [mask position_ids].
  cbn [fst snd] in *. destruct Hlens as [Hl1 Hl2].
  assert (Hmp : get2 mask b p = Some (if Z.of_nat p <? c then 1 else 0)).
  { unfold get2. rewrite Hm.
    rewrite (nth_error_map_some _ _ _ _ (nth_error_arange _ _ Hp)).
    unfold b2z. reflexivity. }
  assert (Hpp : get2 position_ids b p
                = Some (if Z.of_nat p <? c
                        then match offset with
                             | Some _ => wrap64 (Z.of_nat p + o)
                             | None => Z.of_nat p
                             end
                        else 0)).
  { unfold get2. rewrite Hpos.
    rewrite (nth_error_map_some _ _ _ _ (nth_error_arange _ _ Hp)).
    f_equal. unfold b2z. destruct (Z.of_nat p <? c); lia. }
  split; [exact Hl1|]. split; [exact Hl2|]. split; [exact Hmp|]. split; [exact Hpp|].
  split.
  - intros Hrange. rewrite Hpp. f_equal.
    destruct (Z.of_nat p <? c); [|reflexivity].
    destruct offset as [off|]; simpl in Ho.
    + now apply wrap64_id.
    + injection Ho as <-. lia.
  - intros Hge. rewrite Hmp.
    destruct (Z.ltb_spec (Z.of_nat p) c); [reflexivity | lia].
Qed.

Lemma create_mask_and_position_ids_spec_witness :
  let '(mask, position_ids) :=
    create_mask_and_position_ids [2; 5] 3 (Some [10; 20]) in
  length mask = 2%nat /\ length position_ids = 2%nat /\
  get2 mask 1 2 = Some 1 /\ get2 position_ids 1 2 = Some 22.
Proof.
  pose proof (create_mask_and_position_ids_spec [2; 5] 3 (Some [10; 20]) 1 5 20 2
                eq_refl eq_refl eq_refl ltac:(lia)) as H.
  destruct (create_mask_and_position_ids [2; 5] 3 (Some [10; 20]))
    as [mask position_ids].
  destruct H as [Hl1 [Hl2 [_ [_ [Hp Hm]]]]].
  split; [exact Hl1|]. split; [exact Hl2|]. split.
  - apply Hm. simpl. lia.
  - apply Hp. simpl. lia.
Defined.

(** An offset at the end of the [torch.long] range wraps the position
    index of the next valid position. *)
Example create_mask_and_position_ids_wraps :
  snd (create_mask_and_position_ids [2] 2 (Some [2 ^ 63 - 1]))
  = [[2 ^ 63 - 1; - 2 ^ 63]].
Proof. vm_compute. reflexivity. Qed.

(** ** The attention mask *)

Lemma nth_error_combine {A B : Type} (xs : list A) (ys : list B) n x y :
  nth_error xs n = Some x -> nth_error ys n = Some y ->
  nth_error (combine xs ys) n = Some (x, y).
Proof.
  revert ys n. induction xs as [|a xs IH]; intros [|b ys] [|n] Hx Hy;
    simpl in *; try discriminate.
  - congruence.
  - now apply IH.
Qed.

Lemma nth_error_nth_lt {A : Type} (l : list A) n d :
  (n < length l)%nat -> nth_error l n = Some (nth n l d).
Proof.
  revert n. induction l as [|a l IH]; intros [|n] H; simpl in *; try lia.
  - reflexivity.
  - apply IH. lia.
Qed.

Lemma nth_error_map_const {A B : Type} (c : B) (l : list A) i :
  (i < length l)%nat -> nth_error (map (fun _ => c) l) i = Some c.
Proof.
  intros Hi. rewrite nth_error_map.
  destruct (nth_error l i) eqn:E; [reflexivity|].
  apply nth_error_None in E. lia.
Qed.

(** The side weight of position [i]: 1 on the source block, 0 on the
    target block. *)
Lemma nth_error_weight (s t : list Z) i :
  (i < length s + length t)%nat ->
  nth_error (map (fun _ => 1) s ++ map (fun _ => 0) t) i
  = Some (if (i <? length s)%nat then 1 else 0).
Proof.
  intros Hi. destruct (Nat.ltb_spec i (length s)) as [Hlt|Hge].
  - rewrite nth_error_app1 by (rewrite length_map; lia).
    now apply nth_error_map_const.
  - rewrite nth_error_app2 by (rewrite length_map; lia).
    rewrite length_map. apply nth_error_map_const. lia.
Qed.

Lemma nth_error_validity (s t : list Z) i :
  (i < length s + length t)%nat ->
  nth_error (map (fun x => x =? 1) (s ++ t)) i = Some (nth i (s ++ t) 0 =? 1).
Proof.
  intros Hi.
  apply (nth_error_map_some (fun x => x =? 1) (s ++ t) i (nth i (s ++ t) 0)).
  apply nth_error_nth_lt. rewrite length_app. lia.
Qed.

Lemma attention_row_entry (s t : list Z) i j :
  (i < length s + length t)%nat -> (j < length s + length t)%nat ->
  get2 (attention_row s t) i j
  = Some (b2z ((negb (i <? length s)%nat || (j <? length s)%nat)
               && ((nth i (s ++ t) 0 =? 1) && (nth j (s ++ t) 0 =? 1)))).
Proof.
  intros Hi Hj. unfold get2, attention_row.
  pose proof (nth_error_combine _ _ _ _ _
                (nth_error_weight s t i Hi) (nth_error_validity s t i Hi)) as Ei.
  pose proof (nth_error_combine _ _ _ _ _
                (nth_error_weight s t j Hj) (nth_error_validity s t j Hj)) as Ej.
  rewrite (nth_error_map_some _ _ _ _ Ei).
  rewrite (nth_error_map_some _ _ _ _ Ej).
  simpl. do 2 f_equal.
  destruct (i <? length s)%nat, (j <? length s)%nat; reflexivity.
Qed.

(** C1 — for source and target masks of one batch size,
    [create_attention_mask] returns a 0/1 matrix per example in which
    entry (i, j) is 0 exactly when i is a source position and j a target
    position, or i or j is not valid (its mask entry is not 1); every
    other pair (source to source, target to source, target to target, of
    valid positions) has entry 1. *)
Theorem create_attention_mask_visibility :
  forall source_mask target_mask,
    length source_mask = length target_mask ->
    exists att,
      create_attention_mask source_mask target_mask = Some att /\
      forall b s t i j,
        nth_error source_mask b = Some s ->
        nth_error target_mask b = Some t ->
        (i < length s + length t)%nat ->
        (j < length s + length t)%nat ->
        exists v,
          get3 att b i j = Some v /\
          (v = 0 \/ v = 1) /\
          (v = 0 <->
           ((i < length s)%nat /\ (length s <= j)%nat)
           \/ ~ valid_at s t i \/ ~ valid_at s t j).
Proof.
  intros source_mask target_mask Hlen.
  unfold create_attention_mask. rewrite Hlen, Nat.eqb_refl.
  eexists; split; [reflexivity|].
  intros b s t i j Hs Ht Hi Hj.
  unfold get3. rewrite (nth_error_map2 _ _ _ _ _ _ Hs Ht).
  rewrite (attention_row_entry s t i j Hi Hj).
  eexists; split; [reflexivity|].
  unfold valid_at.
  destruct (Nat.ltb_spec i (length s)) as [Hi'|Hi'];
    destruct (Nat.ltb_spec j (length s)) as [Hj'|Hj'];
    destruct (Z.eqb_spec (nth i (s ++ t) 0) 1) as [Vi|Vi];
    destruct (Z.eqb_spec (nth j (s ++ t) 0) 1) as [Vj|Vj];
    simpl; (split; [auto|]); split; intros H; try discriminate; auto;
    try (destruct H as [[? ?]|[?|?]]; (lia || contradiction)).
Qed.

Lemma create_attention_mask_visibility_witness :
  exists att,
    create_attention_mask [[1; 0]] [[1; 1]] = Some att /\
    get3 att 0 0 2 = Some 0 /\ get3 att 0 2 0 = Some 1 /\ get3 att 0 2 1 = Some 0.
Proof.
  destruct (create_attention_mask_visibility [[1; 0]] [[1; 1]] eq_refl)
    as [att [Hatt _]].
  exists att. split; [exact Hatt|].
  vm_compute in Hatt. injection Hatt as <-. repeat split; reflexivity.
Defined.

(** ** Sums of rationals *)

Lemma sumQ_app (l1 l2 : list Q) : (sumQ (l1 ++ l2) == sumQ l1 + sumQ l2)%Q.
Proof.
  induction l1 as [|x l1 IH]; simpl.
  - now rewrite Qplus_0_l.
  - rewrite IH. now rewrite Qplus_assoc.
Qed.

Lemma sumQ_div (d : Q) (l : list Q) :
  (sumQ (map (fun x => x / d) l) == sumQ l / d)%Q.
Proof.
  induction l as [|x l IH]; simpl.
  - unfold Qdiv. now rewrite Qmult_0_l.
  - rewrite IH. unfold Qdiv. now rewrite Qmult_plus_distr_l.
Qed.

Lemma sum_all_div (d : Q) (m : list (list Q)) :
  (sum_all (map (map (fun x => x / d)) m) == sum_all m / d)%Q.
Proof.
  unfold sum_all. rewrite <- concat_map. apply sumQ_div.
Qed.

Lemma sumQ_inject_Z (l : list Z) : (sumQ (map inject_Z l) == inject_Z (sumZ l))%Q.
Proof.
  induction l as [|x l IH]; simpl.
  - reflexivity.
  - rewrite IH. now rewrite inject_Z_plus.
Qed.

Lemma sumZ_app (l1 l2 : list Z) : sumZ (l1 ++ l2) = sumZ l1 + sumZ l2.
Proof. induction l1 as [|x l1 IH]; simpl; lia. Qed.

Lemma sum_all_inject_Z (m : list (list Z)) :
  (sum_all (map (map inject_Z) m) == inject_Z (sumZ (concat m)))%Q.
Proof.
  unfold sum_all. rewrite <- concat_map. apply sumQ_inject_Z.
Qed.

Lemma sumQ_zero (l : list Q) : Forall (fun x => x == 0)%Q l -> (sumQ l == 0)%Q.
Proof.
  induction 1 as [|x l Hx _ IH]; simpl.
  - reflexivity.
  - rewrite Hx, IH. reflexivity.
Qed.

Lemma epsilon_pos : (0 < epsilon)%Q.
Proof. reflexivity. Qed.

(** The normalisation of the token loss is one division of the masked
    losses of the whole batch by the number of valid positions of the
    whole batch plus [epsilon]. *)
Lemma loss_mask_and_normalize_global (loss : list (list Q)) (mask : list (list Z)) :
  (loss_mask_and_normalize loss mask
   == sum_all (map2 (map2 Qmult) loss (map (map inject_Z) mask))
      / (inject_Z (sumZ (concat mask)) + epsilon))%Q.
Proof.
  unfold loss_mask_and_normalize, denominator.
  rewrite sum_all_div. now rewrite sum_all_inject_Z.
Qed.

(** Masks that hold only 0 and 1 sum to a natural number, so the
    divisor of the normalisation is positive. *)
Lemma sumZ_nonneg (l : list Z) : Forall (fun x => 0 <= x) l -> 0 <= sumZ l.
Proof. induction 1; simpl; lia. Qed.

Lemma denominator_pos (mask : list (list Z)) :
  Forall (Forall (fun x => 0 <= x)) mask -> (0 < denominator mask)%Q.
Proof.
  intros H. unfold denominator. rewrite sum_all_inject_Z.
  assert (0 <= sumZ (concat mask)).
  { apply sumZ_nonneg. induction H; simpl; [constructor|].
    apply Forall_app. split; assumption. }
  apply Qlt_le_trans with (y := epsilon); [apply epsilon_pos|].
  rewrite <- (Qplus_0_l epsilon) at 1.
  apply Qplus_le_l. change 0%Q with (inject_Z 0). now rewrite <- Zle_Qle.
Qed.

(** ** Reasoning on computations *)

Lemma bind_inv {A B : Type} (m : M A) (k : A -> M B) w y w' :
  bind m k w = (Some y, w') ->
  exists x w1, m w = (Some x, w1) /\ k x w1 = (Some y, w').
Proof.
  unfold bind. destruct (m w) as [[x|] w1]; intros H.
  - now exists x, w1.
  - discriminate.
Qed.

Lemma ret_inv {A : Type} (x y : A) w w' :
  ret x w = (Some y, w') -> y = x /\ w' = w.
Proof. unfold ret. intros H. injection H as <- <-. now split. Qed.

Lemma assert_inv (b : bool) w u w' :
  assert b w = (Some u, w') -> b = true /\ w' = w.
Proof.
  unfold assert. destruct b; intros H.
  - apply ret_inv in H. now split.
  - discriminate.
Qed.

Lemma lift_opt_inv {A : Type} (o : option A) w x w' :
  lift_opt o w = (Some x, w') -> o = Some x /\ w' = w.
Proof.
  unfold lift_opt. destruct o; intros H.
  - apply ret_inv in H. destruct H as [-> ->]. now split.
  - discriminate.
Qed.

Lemma cat1_inv {A : Type} (x y : list (list A)) w z w' :
  cat1 x y w = (Some z, w') ->
  length x = length y /\ z = map2 (@app A) x y /\ w' = w.
Proof.
  unfold cat1. intros H.
  apply bind_inv in H. destruct H as [u [w1 [H1 H2]]].
  apply assert_inv in H1. destruct H1 as [H1 ->].
  apply ret_inv in H2. destruct H2 as [-> ->].
  apply Nat.eqb_eq in H1. now repeat split.
Qed.

Ltac minv H :=
  match type of H with
  | bind _ _ _ = (Some _, _) =>
      let x := fresh "x" in
      let w := fresh "w" in
      let H1 := fresh "H" in
      let H2 := fresh "H" in
      apply bind_inv in H; destruct H as [x [w [H1 H2]]];
      minv H1; minv H2
  | ret _ _ = (Some _, _) =>
      apply ret_inv in H; destruct H as [? ?]; subst
  | assert _ _ = (Some _, _) =>
      let Hb := fresh "Hb" in
      apply assert_inv in H; destruct H as [Hb ?]; subst
  | lift_opt _ _ = (Some _, _) =>
      let Ho := fresh "Ho" in
      apply lift_opt_inv in H; destruct H as [Ho ?]; subst
  | cat1 _ _ _ = (Some _, _) =>
      let Hl := fresh "Hlen" in
      apply cat1_inv in H; destruct H as [Hl [? ?]]; subst
  | _ => idtac
  end.

(** ** The training pass *)

Section Properties.

Variable ln : Q -> Q.
Variable bert : BertCall -> list (list (list Q)).
Variable cls : list (list (list Q)) -> list (list (list Q)).
Variable log_softmax : list Q -> list Q.
Variable cross_entropy : list Q -> Z -> Q.
Variable embed_length_weight : list (list Q).
Variable encoder_embed_dim : nat.
Variable self : NAT.

Local Abbreviation forward' :=
  (forward ln bert cls log_softmax cross_entropy embed_length_weight
           encoder_embed_dim self).
Local Abbreviation masked_lm_loss' :=
  (masked_lm_loss ln log_softmax cross_entropy self).

Lemma call_bert_inv c w x w' :
  call_bert bert c w = (Some x, w') ->
  x = bert c /\ bert_calls w' = bert_calls w ++ [c] /\
  rng_pos w' = rng_pos w /\ rng_draws w' = rng_draws w.
Proof.
  unfold call_bert. intros H. injection H as <- <-. simpl. now repeat split.
Qed.

Lemma feed_bert_inv input_ids source_mask target_mask token_type_ids position_ids w x w' :
  feed_bert bert input_ids source_mask target_mask token_type_ids position_ids w
  = (Some x, w') ->
  exists c, x = bert c /\ bert_calls w' = bert_calls w ++ [c] /\
            call_input_ids c = input_ids /\
            call_token_type_ids c = token_type_ids /\
            call_position_ids c = position_ids /\
            create_attention_mask source_mask target_mask = Some (call_attention_mask c).
Proof.
  unfold feed_bert. intros H. minv H.
  apply call_bert_inv in H1. destruct H1 as [-> [Hc _]].
  eexists. split; [reflexivity|]. split; [exact Hc|]. simpl. now repeat split.
Qed.

(** The token loss of a training pass is [loss_mask_and_normalize] on
    the per-position losses of the last encoder run and on the target
    mask of the whole batch. *)
Lemma forward_token_loss src tgt pseudo ns nt w l ll g w' :
  forward' src tgt pseudo ns nt false w = (Some (Losses l ll g), w') ->
  exists calls c losses,
    bert_calls w' = calls ++ [c] /\
    masked_lm_loss' (cls (map (slice_from (Z.of_nat (width src))) (bert c))) tgt
    = Some losses /\
    same_dims losses (fst (create_mask_and_position_ids nt (width tgt) (Some ns))) = true /\
    l = loss_mask_and_normalize losses
          (fst (create_mask_and_position_ids nt (width tgt) (Some ns))).
Proof.
  intros H. unfold forward in H. minv H. destruct x as [pseudo_ids N].
  unfold create_mask_and_position_ids in H1. cbv beta iota zeta in H1.
  minv H1. apply feed_bert_inv in H. destruct H as [c [-> [Hc _]]].
  exists (bert_calls w0), c, x3.
  assert (Hw : w' = w1 /\ l = loss_mask_and_normalize x3
             (fst (create_mask_and_position_ids nt (width tgt) (Some ns)))).
  { destruct N; minv H3; injection H; intros; subst; now split. }
  destruct Hw as [-> ->]. now repeat split.
Qed.

(** C2 (as amended) — the token loss of the training pass is the sum of
    the masked per-position losses of the whole batch divided by the
    number of valid target positions of the whole batch plus epsilon: one
    global average over the valid positions of the batch. *)
Theorem forward_token_loss_global_average :
  forall src tgt pseudo ns nt w l ll g w',
    forward' src tgt pseudo ns nt false w = (Some (Losses l ll g), w') ->
    let target_mask := fst (create_mask_and_position_ids nt (width tgt) (Some ns)) in
    exists calls c losses,
      bert_calls w' = calls ++ [c] /\
      masked_lm_loss' (cls (map (slice_from (Z.of_nat (width src))) (bert c))) tgt
      = Some losses /\
      (l == sum_all (map2 (map2 Qmult) losses (map (map inject_Z) target_mask))
            / (inject_Z (sumZ (concat target_mask)) + epsilon))%Q.
Proof.
  intros src tgt pseudo ns nt w l ll g w' H target_mask.
  destruct (forward_token_loss _ _ _ _ _ _ _ _ _ _ H)
    as [calls [c [losses [Hc [Hl [_ ->]]]]]].
  exists calls, c, losses. repeat split; try assumption.
  apply loss_mask_and_normalize_global.
Qed.

(** *** A batch without valid target positions *)

Lemma mask_rows_zero (nt : list Z) (max_len : nat) (offset : option (list Z)) :
  (forall c, In c nt -> c <= 0) ->
  Forall (Forall (fun x => x = 0))
         (fst (create_mask_and_position_ids nt max_len offset)).
Proof.
  intros Hc. unfold create_mask_and_position_ids. simpl.
  apply Forall_forall. intros row Hrow.
  apply in_map_iff in Hrow. destruct Hrow as [c [<- Hin]].
  apply Forall_forall. intros x Hx.
  apply in_map_iff in Hx. destruct Hx as [p [<- Hp]].
  unfold arange in Hp. apply in_map_iff in Hp. destruct Hp as [k [<- _]].
  specialize (Hc c Hin).
  destruct (Z.ltb_spec (Z.of_nat k) c); [lia | reflexivity].
Qed.

Lemma sumZ_concat_zero (mask : list (list Z)) :
  Forall (Forall (fun x => x = 0)) mask -> sumZ (concat mask) = 0.
Proof.
  induction 1 as [|row mask Hrow _ IH]; simpl; [reflexivity|].
  rewrite sumZ_app, IH.
  induction Hrow as [|x row Hx _ IHrow]; simpl; lia.
Qed.

Lemma masked_row_zero (loss : list Q) (mask : list Z) :
  Forall (fun x => x = 0) mask ->
  Forall (fun x => x == 0)%Q (map2 Qmult loss (map inject_Z mask)).
Proof.
  intros H. revert loss.
  induction H as [|m mask Hm _ IH]; intros [|x loss]; simpl; constructor.
  - subst m. apply Qmult_0_r.
  - apply IH.
Qed.

Lemma masked_sum_zero (loss : list (list Q)) (mask : list (list Z)) :
  Forall (Forall (fun x => x = 0)) mask ->
  (sum_all (map2 (map2 Qmult) loss (map (map inject_Z) mask)) == 0)%Q.
Proof.
  intros H. unfold sum_all. apply sumQ_zero. revert loss.
  induction H as [|row mask Hrow _ IH]; intros [|l loss]; simpl; try constructor.
  apply Forall_app. split; [now apply masked_row_zero | apply IH].
Qed.

(** C7 — when no target position of the batch is valid, the divisor of
    the normalisation is epsilon, which is not zero, every masked loss
    is zero, and the token loss of the training pass is 0. *)
Theorem forward_zero_valid_loss :
  forall src tgt pseudo ns nt w l ll g w',
    (forall c, In c nt -> c <= 0) ->
    forward' src tgt pseudo ns nt false w = (Some (Losses l ll g), w') ->
    let target_mask := fst (create_mask_and_position_ids nt (width tgt) (Some ns)) in
    sumZ (concat target_mask) = 0 /\
    (denominator target_mask == epsilon)%Q /\
    ~ (denominator target_mask == 0)%Q /\
    (l == 0)%Q.
Proof.
  intros src tgt pseudo ns nt w l ll g w' Hnt H target_mask.
  pose proof (mask_rows_zero nt (width tgt) (Some ns) Hnt) as Hz.
  fold target_mask in Hz.
  pose proof (sumZ_concat_zero _ Hz) as Hs.
  assert (Hd : (denominator target_mask == epsilon)%Q).
  { unfold denominator. rewrite sum_all_inject_Z, Hs. apply Qplus_0_l. }
  split; [exact Hs|]. split; [exact Hd|]. split.
  - rewrite Hd. intros E. discriminate E.
  - destruct (forward_token_loss _ _ _ _ _ _ _ _ _ _ H)
      as [calls [c [losses [_ [_ [_ ->]]]]]].
    fold target_mask. rewrite loss_mask_and_normalize_global.
    rewrite (masked_sum_zero losses target_mask Hz).
    unfold Qdiv. apply Qmult_0_l.
Qed.

End Properties.

(** *** Concrete training passes *)

(** The pass of the stub model on a batch of two examples with one and
    two valid target positions: every position has loss 1. *)
Lemma forward_token_loss_global_average_witness :
  exists l ll w',
    Stub.forward (Stub.config false (1 # 2))
      [[11; 12; 0]; [11; 12; 13]] [[5; 0]; [5; 6]] [[103; 103]; [103; 103]]
      [2; 3] [1; 2] false Stub.world
    = (Some (Losses l ll None), w') /\
    exists calls c losses,
      bert_calls w' = calls ++ [c] /\
      masked_lm_loss Stub.ln Stub.log_softmax Stub.cross_entropy
        (Stub.config false (1 # 2))
        (Stub.cls (map (slice_from 3) (Stub.bert c))) [[5; 0]; [5; 6]]
      = Some losses /\
      (l == sum_all (map2 (map2 Qmult) losses [[1; 0]; [1; 1]]%Q)
            / (inject_Z 3 + epsilon))%Q.
Proof.
  unfold Stub.forward.
  match goal with
  | |- context [forward ?a ?b ?c ?d ?e ?f ?g ?h ?i ?j ?k ?m ?n ?o ?p] =>
      destruct (forward a b c d e f g h i j k m n o p)
        as [[[ | l ll [gl|]]|] w'] eqn:E
  end; try (vm_compute in E; discriminate E).
  exists l, ll, w'. split; [reflexivity|].
  exact (forward_token_loss_global_average _ _ _ _ _ _ _ _ _ _ _ _ _ _ _ _ _ _ E).
Defined.

(** The same pass against the normalisation by example: the code returns
    about 1 (three losses over three valid positions of the batch), the
    per-example average of the same losses under the same mask would be
    about 2 (one per example). *)
Lemma forward_token_loss_not_per_example :
  let run :=
    Stub.forward (Stub.config false (1 # 2))
      [[11; 12; 0]; [11; 12; 13]] [[5; 0]; [5; 6]] [[103; 103]; [103; 103]]
      [2; 3] [1; 2] false Stub.world in
  fst (create_mask_and_position_ids [1; 2] 2 (Some [2; 3])) = [[1; 0]; [1; 1]] /\
  match bert_calls (snd run) with
  | [c] =>
      masked_lm_loss Stub.ln Stub.log_softmax Stub.cross_entropy
        (Stub.config false (1 # 2))
        (Stub.cls (map (slice_from 3) (Stub.bert c))) [[5; 0]; [5; 6]]
      = Some [[1; 1]; [1; 1]]%Q
  | _ => False
  end /\
  match fst run with
  | Some (Losses l _ _) =>
      (l == 3 / (3 + epsilon))%Q /\
      (per_example_normalize [[1; 1]; [1; 1]]%Q [[1; 0]; [1; 1]]%Z
       == 1 / (1 + epsilon) + 2 / (2 + epsilon))%Q /\
      ~ (l == per_example_normalize [[1; 1]; [1; 1]]%Q [[1; 0]; [1; 1]]%Z)%Q
  | _ => False
  end.
Proof.
  vm_compute. repeat split; try (intros H; discriminate H).
Qed.

Lemma forward_zero_valid_loss_witness :
  exists l ll w',
    Stub.forward (Stub.config false (1 # 2))
      [[11; 12; 0]; [11; 12; 13]] [[5; 0]; [5; 6]] [[103; 103]; [103; 103]]
      [2; 3] [0; 0] false Stub.world
    = (Some (Losses l ll None), w') /\
    (l == 0)%Q.
Proof.
  unfold Stub.forward.
  match goal with
  | |- context [forward ?a ?b ?c ?d ?e ?f ?g ?h ?i ?j ?k ?m ?n ?o ?p] =>
      destruct (forward a b c d e f g h i j k m n o p)
        as [[[ | l ll [gl|]]|] w'] eqn:E
  end; try (vm_compute in E; discriminate E).
  exists l, ll, w'. split; [reflexivity|].
  assert (Hnt : forall c, In c [0; 0] -> c <= 0)
    by (intros c [<-|[<-|[]]]; lia).
  exact (proj2 (proj2 (proj2
           (forward_zero_valid_loss _ _ _ _ _ _ _ _ _ _ _ _ _ _ _ _ _ _ Hnt E)))).
Defined.

(** ** The label-smoothed target distribution *)

Lemma length_set_nth {A : Type} k (v : A) l : length (set_nth k v l) = length l.
Proof.
  revert k. induction l as [|x l IH]; intros [|k]; simpl; auto.
Qed.

Lemma nth_set_nth_eq {A : Type} k (v d : A) l :
  (k < length l)%nat -> nth k (set_nth k v l) d = v.
Proof.
  revert k. induction l as [|x l IH]; intros [|k] H; simpl in *; try lia; auto.
  apply IH. lia.
Qed.

Lemma nth_set_nth_neq {A : Type} k j (v d : A) l :
  j <> k -> nth j (set_nth k v l) d = nth j l d.
Proof.
  revert k j. induction l as [|x l IH]; intros [|k] [|j] H; simpl;
    try reflexivity; try (exfalso; apply H; reflexivity).
  apply IH. lia.
Qed.

Lemma sumQ_set_nth k (v d : Q) l :
  (k < length l)%nat -> (sumQ (set_nth k v l) == sumQ l - nth k l d + v)%Q.
Proof.
  revert k. induction l as [|x l IH]; intros [|k] H; simpl in *; try lia.
  - ring.
  - rewrite (IH k) by lia. ring.
Qed.

Lemma sumQ_repeat (x : Q) n : (sumQ (repeat x n) == inject_Z (Z.of_nat n) * x)%Q.
Proof.
  induction n as [|n IH].
  - simpl. ring.
  - cbn [repeat sumQ fold_right]. fold (sumQ (repeat x n)). rewrite IH.
    rewrite Nat2Z.inj_succ. unfold Z.succ. rewrite inject_Z_plus. ring.
Qed.

Lemma nth_repeat_lt {A : Type} (x d : A) n k : (k < n)%nat -> nth k (repeat x n) d = x.
Proof.
  revert k. induction n as [|n IH]; intros [|k] H; simpl; try lia; auto.
  apply IH. lia.
Qed.

Lemma py_index_nonneg i len k :
  0 <= i -> py_index i len = Some k -> k = Z.to_nat i /\ (k < len)%nat.
Proof.
  unfold py_index. intros Hi.
  destruct (Z.leb_spec 0 i); [|lia].
  destruct (Z.ltb_spec i (Z.of_nat len)); simpl.
  - intros E. injection E as <-. split; [reflexivity | lia].
  - destruct (Z.leb_spec (- Z.of_nat len) i); destruct (Z.ltb_spec i 0); simpl;
      try discriminate; lia.
Qed.

Lemma LabelSmoothingLoss_init_inv s V ign crit :
  LabelSmoothingLoss_init s V ign = Some crit ->
  0 <= ign ->
  (0 < s)%Q /\ (s <= 1)%Q /\ 0 < V /\ V <> 2 /\ ign < V /\
  ignore_index crit = ign /\ confidence crit = (1 - s)%Q /\
  tgt_vocab_size crit = V /\
  one_hot crit = set_nth (Z.to_nat ign) 0%Q
                   (repeat (s / inject_Z (V - 2))%Q (Z.to_nat V)).
Proof.
  unfold LabelSmoothingLoss_init. intros H Hign.
  destruct (Qle_bool s 0) eqn:E0; simpl in H; [discriminate|].
  destruct (Qle_bool s 1) eqn:E1; simpl in H; [|discriminate].
  destruct (Z.gtb_spec V 0) as [HV|HV]; simpl in H; [|discriminate].
  destruct (Z.eqb_spec (V - 2) 0) as [H2|H2]; [discriminate|].
  destruct (py_index ign _) as [k|] eqn:Ek; [|discriminate].
  apply py_index_nonneg in Ek; [|assumption]. destruct Ek as [-> Hk].
  rewrite repeat_length in Hk.
  injection H as <-. simpl.
  repeat split; try lia.
  - apply Qnot_le_lt. intros Hle. apply Qle_bool_iff in Hle. congruence.
  - now apply Qle_bool_iff.
Qed.

Section LabelSmoothing.
Variable ln : Q -> Q.

(** An entry whose target mass is zero contributes no loss. *)
Lemma kl_div_zero_target output : (kl_div ln output 0 == 0)%Q.
Proof. unfold kl_div, xlogy. simpl. ring. Qed.

Lemma smoothed_loss_zero_row (output : list Q) (row : list Q) :
  Forall (fun x => x = 0%Q) row ->
  (sumQ (map2 (kl_div ln) output row) == 0)%Q.
Proof.
  intros H. revert output.
  induction H as [|x row Hx _ IH]; intros [|o output]; simpl; try reflexivity.
  subst x. rewrite kl_div_zero_target, (IH output). reflexivity.
Qed.

(** C5 — for a criterion built by [LabelSmoothingLoss.__init__] with an
    ignore index inside the vocabulary, the smoothed target row of a
    label other than the ignore index has mass 1 - smoothing at the
    label, 0 at the ignore index and smoothing/(V-2) at every other
    entry, and sums to 1; the row of a label equal to the ignore index
    is zero everywhere, sums to 0 and gives loss 0. *)
Theorem smoothed_target_row_sums :
  forall s V ign crit t,
    LabelSmoothingLoss_init s V ign = Some crit ->
    0 <= ign ->
    0 <= t < V ->
    exists row,
      model_prob_row crit t = Some row /\
      length row = Z.to_nat V /\
      (t <> ign ->
       (nth (Z.to_nat t) row 0 == 1 - s)%Q /\
       (nth (Z.to_nat ign) row 0 == 0)%Q /\
       (forall j, (j < Z.to_nat V)%nat -> j <> Z.to_nat t -> j <> Z.to_nat ign ->
                  (nth j row 0 == s / inject_Z (V - 2))%Q) /\
       (sumQ row == 1)%Q) /\
      (t = ign ->
       Forall (fun x => x == 0)%Q row /\
       (sumQ row == 0)%Q /\
       forall output, length output = length row ->
         exists loss, smoothed_loss_pos ln crit output t = Some loss /\ (loss == 0)%Q).
Proof.
  intros s V ign crit t Hinit Hign Ht.
  destruct (LabelSmoothingLoss_init_inv _ _ _ _ Hinit Hign)
    as [Hs0 [Hs1 [HV [HV2 [HignV [Ei [Ec [Ev Eo]]]]]]]].
  set (sv := (s / inject_Z (V - 2))%Q) in *.
  assert (Hlen : length (one_hot crit) = Z.to_nat V).
  { rewrite Eo, length_set_nth, repeat_length. reflexivity. }
  unfold model_prob_row. rewrite Hlen.
  destruct (Z.leb_spec 0 t); [|lia].
  destruct (Z.ltb_spec t (Z.of_nat (Z.to_nat V))); [|lia]. simpl.
  eexists. split; [reflexivity|].
  rewrite Ei, Ec.
  destruct (Z.eqb_spec t ign) as [Heq|Hne].
  - split; [now rewrite length_map, length_set_nth|].
    split; [intros Hc; contradiction|]. intros _.
    assert (Hz : Forall (fun x => x = 0%Q)
                   (map (fun _ : Q => 0%Q) (set_nth (Z.to_nat t) (1 - s)%Q (one_hot crit)))).
    { apply Forall_forall. intros x Hx. apply in_map_iff in Hx.
      destruct Hx as [? [<- _]]. reflexivity. }
    split; [|split].
    + eapply Forall_impl; [|exact Hz]. intros x ->. reflexivity.
    + apply sumQ_zero. eapply Forall_impl; [|exact Hz]. intros x ->. reflexivity.
    + intros output Hout. unfold smoothed_loss_pos, model_prob_row.
      rewrite Hlen.
      destruct (Z.leb_spec 0 t); [|lia].
      destruct (Z.ltb_spec t (Z.of_nat (Z.to_nat V))); [|lia]. simpl.
      rewrite Ei, Ec. destruct (Z.eqb_spec t ign); [|contradiction].
      rewrite Hout, Nat.eqb_refl.
      eexists. split; [reflexivity|]. now apply smoothed_loss_zero_row.
  - split; [now rewrite length_set_nth|].
    split; [|intros Hc; contradiction]. intros _.
    assert (Htn : (Z.to_nat t < Z.to_nat V)%nat) by lia.
    assert (Hin : (Z.to_nat ign < Z.to_nat V)%nat) by lia.
    assert (Hti : Z.to_nat t <> Z.to_nat ign) by lia.
    split; [|split; [|split]].
    + rewrite nth_set_nth_eq by (rewrite Hlen; lia). reflexivity.
    + rewrite nth_set_nth_neq by lia.
      rewrite Eo, nth_set_nth_eq by (rewrite repeat_length; lia). reflexivity.
    + intros j Hj Hjt Hji.
      rewrite nth_set_nth_neq by assumption.
      rewrite Eo, nth_set_nth_neq by assumption.
      rewrite nth_repeat_lt by assumption. reflexivity.
    + rewrite (sumQ_set_nth _ _ 0%Q) by (rewrite Hlen; lia).
      rewrite Eo at 1. rewrite (sumQ_set_nth _ _ 0%Q) by (rewrite repeat_length; lia).
      rewrite sumQ_repeat.
      rewrite nth_repeat_lt by assumption.
      rewrite Eo, nth_set_nth_neq by lia.
      rewrite nth_repeat_lt by assumption.
      rewrite Z2Nat.id by lia.
      replace V with ((V - 2) + 2) at 1 by lia.
      rewrite inject_Z_plus. unfold sv.
      assert (Hne2 : ~ (inject_Z (V - 2) == 0)%Q).
      { intros E. unfold Qeq in E. simpl in E. lia. }
      field. exact Hne2.
Qed.
End LabelSmoothing.

Lemma smoothed_target_row_sums_witness :
  exists crit row,
    LabelSmoothingLoss_init (1 # 10) 5 0 = Some crit /\
    model_prob_row crit 2 = Some row /\
    (sumQ row == 1)%Q.
Proof.
  destruct (LabelSmoothingLoss_init (1 # 10) 5 0) as [crit|] eqn:E;
    [|vm_compute in E; discriminate E].
  destruct (smoothed_target_row_sums (fun x => x) (1 # 10) 5 0 crit 2 E)
    as [row [Hrow [_ [Hsum _]]]]; [lia | lia |].
  exists crit, row. split; [reflexivity|]. split; [exact Hrow|].
  apply Hsum. lia.
Defined.

(** ** Decoding *)

Lemma same_dims_spec {A B : Type} (x : list (list A)) (y : list (list B)) :
  same_dims x y = true ->
  length x = length y /\
  forall b r s, nth_error x b = Some r -> nth_error y b = Some s -> length r = length s.
Proof.
  unfold same_dims. intros H. apply andb_prop in H. destruct H as [Hl Hr].
  apply Nat.eqb_eq in Hl. split; [exact Hl|]. clear Hl.
  revert y Hr. induction x as [|r0 x IH]; intros [|s0 y] Hr [|b] r s Hx Hy;
    simpl in *; try discriminate.
  - apply andb_prop in Hr. destruct Hr as [Hr _].
    apply Nat.eqb_eq in Hr. congruence.
  - apply andb_prop in Hr. destruct Hr as [_ Hr]. eapply IH; eassumption.
Qed.

Lemma max_item_inv l w x w' :
  max_item l w = (Some x, w') ->
  l <> [] /\ x = fold_right Z.max (hd 0 l) (tl l) /\ w' = w.
Proof.
  destruct l as [|y l]; simpl; intros H.
  - discriminate.
  - apply ret_inv in H. destruct H as [-> ->]. repeat split. discriminate.
Qed.

Section DecodeProperties.

Variable bert : BertCall -> list (list (list Q)).
Variable cls : list (list (list Q)) -> list (list (list Q)).
Variable log_softmax : list Q -> list Q.
Variable embed_length_weight : list (list Q).
Variable encoder_embed_dim : nat.
Variable self : NAT.

Local Abbreviation forward_decode' :=
  (forward_decode bert cls log_softmax embed_length_weight encoder_embed_dim self).
Local Abbreviation forward_length' :=
  (forward_length log_softmax embed_length_weight encoder_embed_dim).

Lemma forward_decode_inv input_ids tti pos im lo w toks lens w' :
  forward_decode' input_ids tti pos im lo w = (Some (toks, lens), w') ->
  exists calls c,
    bert_calls w' = calls ++ [c] /\
    lens <> [] /\
    let target_len := fold_right Z.max (hd 0 lens) (tl lens) in
    let pseudo_mask :=
      map (fun len => map (fun p => p <? len) (arange (Z.to_nat target_len))) lens in
    let prediction_tokens :=
      map (map argmax)
          (cls (map (slice_from (decode_source_len input_ids target_len)) (bert c))) in
    0 <= target_len /\
    same_dims prediction_tokens pseudo_mask = true /\
    toks = map2 (map2 (fun tok (m : bool) => if m then tok else pad_word_id self))
                prediction_tokens pseudo_mask /\
    match lo with
    | Some given => lens = map (fun x => wrap64 (x + 1)) given
    | None =>
        let c1 := length_pass_call self input_ids
                    (map (firstn (width input_ids)) tti)
                    (map (firstn (width input_ids)) pos) in
        let source_mask :=
          map (map (fun x => b2z (negb (x =? pad_word_id self)))) input_ids in
        (exists mid, bert_calls w' = bert_calls w ++ c1 :: mid) /\
        lens = map (fun x => if x <? 7 then 7 else x)
                 (map (fun x => if x >? 48 then 48 else x)
                    (map argmax (forward_length' (bert c1) source_mask)))
    end.
Proof.
  intros H. unfold forward_decode in H. minv H.
  apply max_item_inv in H. destruct H as [Hne [-> ->]].
  unfold feed_bert in *.
  repeat match goal with
         | H : bind _ _ _ = (Some _, _) |- _ => minv H
         end.
  repeat match goal with
         | H : (_, _) = (_, _) |- _ => injection H as ? ?; subst
         end.
  match goal with
  | H : call_bert _ ?c ?w1 = (Some _, _) |- _ =>
      apply call_bert_inv in H; destruct H as [-> [Hc _]];
      exists (bert_calls w1), c
  end.
  split; [exact Hc|]. split; [exact Hne|].
  cbv zeta. unfold decode_source_len.
  split; [now apply Z.leb_le|]. split; [assumption|]. split; [reflexivity|].
  destruct lo as [given|].
  - apply ret_inv in H0. now destruct H0 as [-> ->].
  - minv H0.
    match goal with
    | H : call_bert _ _ _ = (Some _, _) |- _ =>
        apply call_bert_inv in H; destruct H as [-> [Hc1 _]]
    end.
    split; [|reflexivity].
    eexists [_]. rewrite Hc, Hc1, <- app_assoc. reflexivity.
Qed.

(** C6 — without a caller-supplied length, the decoded length of each
    example is the argmax of its predicted length distribution clamped
    to the range from 7 to 48: a raw argmax of 3 gives 7 and a raw
    argmax of 60 gives 48. *)
Theorem forward_decode_length_clamped :
  forall input_ids tti pos im w toks lens w',
    forward_decode' input_ids tti pos im None w = (Some (toks, lens), w') ->
    let c1 := length_pass_call self input_ids
                (map (firstn (width input_ids)) tti)
                (map (firstn (width input_ids)) pos) in
    let source_mask :=
      map (map (fun x => b2z (negb (x =? pad_word_id self)))) input_ids in
    let dist := forward_length' (bert c1) source_mask in
    lens = map (fun d => Z.max 7 (Z.min 48 (argmax d))) dist /\
    Forall (fun len => 7 <= len <= 48) lens /\
    (forall b d, nth_error dist b = Some d -> argmax d = 3 ->
                 nth_error lens b = Some 7) /\
    (forall b d, nth_error dist b = Some d -> argmax d = 60 ->
                 nth_error lens b = Some 48).
Proof.
  intros input_ids tti pos im w toks lens w' H c1 source_mask dist.
  destruct (forward_decode_inv _ _ _ _ _ _ _ _ _ H)
    as [calls [c [_ [_ [_ [_ [_ [_ Hl]]]]]]]].
  fold c1 source_mask dist in Hl.
  assert (E : lens = map (fun d => Z.max 7 (Z.min 48 (argmax d))) dist).
  { rewrite Hl, !map_map. apply map_ext. intros d.
    destruct (Z.gtb_spec (argmax d) 48);
      [destruct (Z.ltb_spec 48 7) | destruct (Z.ltb_spec (argmax d) 7)]; lia. }
  split; [exact E|]. split; [|split].
  - rewrite E. apply Forall_forall. intros x Hx.
    apply in_map_iff in Hx. destruct Hx as [d [<- _]]. lia.
  - intros b d Hd Ha. rewrite E. rewrite (nth_error_map_some _ _ _ _ Hd).
    f_equal. lia.
  - intros b d Hd Ha. rewrite E. rewrite (nth_error_map_some _ _ _ _ Hd).
    f_equal. lia.
Qed.

(** C8 — in the token output of a decoding, whose rows have the
    largest decoded length of the batch as width, every position at or
    beyond the decoded length of its example holds the pad token id, and
    every position inside the decoded length holds the argmax of the
    vocabulary scores of the last encoder run at that position. *)
Theorem forward_decode_padding_forced :
  forall input_ids tti pos im lo w toks lens w',
    forward_decode' input_ids tti pos im lo w = (Some (toks, lens), w') ->
    exists calls c,
      bert_calls w' = calls ++ [c] /\
      let target_len := fold_right Z.max (hd 0 lens) (tl lens) in
      let scores :=
        cls (map (slice_from (decode_source_len input_ids target_len)) (bert c)) in
      length toks = length lens /\
      forall b len,
        nth_error lens b = Some len ->
        len <= target_len /\
        forall p,
          (p < Z.to_nat target_len)%nat ->
          exists v,
            get2 toks b p = Some v /\
            (len <= Z.of_nat p -> v = pad_word_id self) /\
            (Z.of_nat p < len ->
             exists s, get2 scores b p = Some s /\ v = argmax s).
Proof.
  intros input_ids tti pos im lo w toks lens w' H.
  destruct (forward_decode_inv _ _ _ _ _ _ _ _ _ H)
    as [calls [c [Hc [Hne [Hpos [Hd [Ht _]]]]]]].
  exists calls, c. split; [exact Hc|]. cbv zeta.
  set (target_len := fold_right Z.max (hd 0 lens) (tl lens)) in *.
  set (scores := cls (map (slice_from (decode_source_len input_ids target_len)) (bert c))) in *.
  apply same_dims_spec in Hd. destruct Hd as [Hlen Hrows].
  rewrite !length_map in Hlen.
  split.
  { rewrite Ht, length_map2, !length_map, Hlen. apply Nat.min_id. }
  intros b len Hb. split.
  { clear - Hb. subst target_len. destruct lens as [|x l]; [destruct b; discriminate|].
    simpl. revert b Hb. induction l as [|y l IH]; intros [|b] Hb; simpl in *.
    - injection Hb as <-. lia.
    - destruct b; discriminate.
    - injection Hb as <-. specialize (IH 0%nat eq_refl). lia.
    - destruct b as [|b].
      + injection Hb as <-. lia.
      + specialize (IH (S b) Hb). lia. }
  intros p Hp.
  assert (Hm : nth_error
                 (map (fun len0 => map (fun q => q <? len0) (arange (Z.to_nat target_len))) lens) b
               = Some (map (fun q => q <? len) (arange (Z.to_nat target_len)))).
  { now rewrite (nth_error_map_some _ _ _ _ Hb). }
  destruct (nth_error (map (map argmax) scores) b) as [row|] eqn:Erow.
  2:{ apply nth_error_None in Erow.
      assert (b < length lens)%nat by (apply nth_error_Some; congruence).
      rewrite length_map in Erow. lia. }
  pose proof (Hrows b _ _ Erow Hm) as Hrl. rewrite length_map, length_arange in Hrl.
  destruct (nth_error row p) as [tok|] eqn:Etok.
  2:{ apply nth_error_None in Etok. lia. }
  assert (Hmp : nth_error (map (fun q => q <? len) (arange (Z.to_nat target_len))) p
                = Some (Z.of_nat p <? len)).
  { now rewrite (nth_error_map_some _ _ _ _ (nth_error_arange _ _ Hp)). }
  exists (if Z.of_nat p <? len then tok else pad_word_id self).
  split; [|split].
  - rewrite Ht. unfold get2. rewrite (nth_error_map2 _ _ _ _ _ _ Erow Hm).
    now rewrite (nth_error_map2 _ _ _ _ _ _ Etok Hmp).
  - intros Hle. destruct (Z.ltb_spec (Z.of_nat p) len); [lia | reflexivity].
  - intros Hlt. destruct (Z.ltb_spec (Z.of_nat p) len); [|lia].
    rewrite nth_error_map in Erow.
    destruct (nth_error scores b) as [srow|] eqn:Es; [|discriminate].
    simpl in Erow. injection Erow as <-.
    rewrite nth_error_map in Etok.
    destruct (nth_error srow p) as [s|] eqn:Ep; [|discriminate].
    simpl in Etok. injection Etok as <-.
    exists s. unfold get2. rewrite Es. now split.
Qed.

End DecodeProperties.

(** *** A concrete decoding

    Two sources of two tokens whose raw predicted lengths are 3 and 60. *)

Lemma forward_decode_length_clamped_witness :
  exists toks w',
    Stub.forward_decode (Stub.config false (1 # 2))
      [[11; 11]; [12; 12]] [[0; 0]; [0; 0]] [[0; 1]; [0; 1]] [[1; 1]; [1; 1]]
      None Stub.world
    = (Some (toks, [7; 48]), w') /\
    map argmax
        (forward_length Stub.log_softmax Stub.embed_length_weight Stub.encoder_embed_dim
           (Stub.bert (length_pass_call (Stub.config false (1 # 2))
                         [[11; 11]; [12; 12]] [[0; 0]; [0; 0]] [[0; 1]; [0; 1]]))
           [[1; 1]; [1; 1]])
    = [3; 60].
Proof.
  unfold Stub.forward_decode.
  match goal with
  | |- context [forward_decode ?a ?b ?c ?d ?e ?f ?g ?h ?i ?j ?k ?m] =>
      destruct (forward_decode a b c d e f g h i j k m)
        as [[[toks lens]|] w'] eqn:E
  end; [|vm_compute in E; discriminate E].
  destruct (forward_decode_length_clamped _ _ _ _ _ _ _ _ _ _ _ _ _ _ E) as [Hl _].
  vm_compute in Hl. subst lens.
  exists toks, w'. split; [reflexivity|]. vm_compute. reflexivity.
Defined.

Lemma forward_decode_padding_forced_witness :
  exists toks lens w',
    Stub.forward_decode (Stub.config false (1 # 2))
      [[11; 11]; [12; 12]] [[0; 0]; [0; 0]] [[0; 1]; [0; 1]] [[1; 1]; [1; 1]]
      None Stub.world
    = (Some (toks, lens), w') /\
    nth_error lens 0 = Some 7 /\
    get2 toks 0 10 = Some 0 /\
    get2 toks 0 6 = Some 1.
Proof.
  unfold Stub.forward_decode.
  match goal with
  | |- context [forward_decode ?a ?b ?c ?d ?e ?f ?g ?h ?i ?j ?k ?m] =>
      destruct (forward_decode a b c d e f g h i j k m)
        as [[[toks lens]|] w'] eqn:E
  end; [|vm_compute in E; discriminate E].
  destruct (forward_decode_padding_forced _ _ _ _ _ _ _ _ _ _ _ _ _ _ _ E)
    as [calls [c [_ [_ Hall]]]].
  assert (Hlens : lens = [7; 48]).
  { vm_compute in E. injection E as _ <- _. reflexivity. }
  subst lens. cbv zeta in Hall.
  destruct (Hall 0%nat 7 eq_refl) as [_ Hp].
  destruct (Hp 10%nat) as [v [Hv [Hpad _]]]; [vm_compute; lia|].
  exists toks, [7; 48], w'. split; [reflexivity|]. split; [reflexivity|].
  split.
  - rewrite Hv, Hpad by lia. reflexivity.
  - vm_compute in E. injection E as <- _. reflexivity.
Defined.

(** ** Computations that draw no random number *)

Lemma with_calls_nil w : with_calls w [] = w.
Proof. destruct w. unfold with_calls. simpl. now rewrite app_nil_r. Qed.

Lemma with_calls_app w e1 e2 :
  with_calls (with_calls w e1) e2 = with_calls w (e1 ++ e2).
Proof. unfold with_calls. simpl. now rewrite app_assoc. Qed.

Lemma rng_free_ret {A : Type} (x : A) : rng_free (ret x).
Proof. exists (Some x), []. intros w. now rewrite with_calls_nil. Qed.

Lemma rng_free_raise {A : Type} : rng_free (@raise A).
Proof. exists None, []. intros w. now rewrite with_calls_nil. Qed.

Lemma rng_free_bind {A B : Type} (m : M A) (k : A -> M B) :
  rng_free m -> (forall x, rng_free (k x)) -> rng_free (bind m k).
Proof.
  intros [r [e Hm]] Hk. destruct r as [x|].
  - destruct (Hk x) as [r' [e' Hkx]].
    exists r', (e ++ e'). intros w. unfold bind.
    now rewrite Hm, Hkx, with_calls_app.
  - exists None, e. intros w. unfold bind. now rewrite Hm.
Qed.

Lemma rng_free_assert b : rng_free (assert b).
Proof. destruct b; [apply rng_free_ret | apply rng_free_raise]. Qed.

Lemma rng_free_lift_opt {A : Type} (o : option A) : rng_free (lift_opt o).
Proof. destruct o; [apply rng_free_ret | apply rng_free_raise]. Qed.

Lemma rng_free_cat1 {A : Type} (x y : list (list A)) : rng_free (cat1 x y).
Proof.
  unfold cat1. apply rng_free_bind; [apply rng_free_assert|].
  intros _. apply rng_free_ret.
Qed.

Lemma rng_free_max_item l : rng_free (max_item l).
Proof. destruct l; [apply rng_free_raise | apply rng_free_ret]. Qed.

Lemma rng_free_call_bert bert c : rng_free (call_bert bert c).
Proof. exists (Some (bert c)), [c]. intros w. reflexivity. Qed.

Lemma rng_free_feed_bert bert a b c d e : rng_free (feed_bert bert a b c d e).
Proof.
  unfold feed_bert. apply rng_free_bind; [apply rng_free_lift_opt|].
  intros x. apply rng_free_call_bert.
Qed.

Ltac rng_free_step :=
  match goal with
  | |- rng_free (bind _ _) => apply rng_free_bind; [|intros]
  | |- rng_free (ret _) => apply rng_free_ret
  | |- rng_free (assert _) => apply rng_free_assert
  | |- rng_free (lift_opt _) => apply rng_free_lift_opt
  | |- rng_free raise => apply rng_free_raise
  | |- rng_free (call_bert _ _) => apply rng_free_call_bert
  | |- rng_free (cat1 _ _) => apply rng_free_cat1
  | |- rng_free (feed_bert _ _ _ _ _ _) => apply rng_free_feed_bert
  | |- rng_free (max_item _) => apply rng_free_max_item
  | |- rng_free (match ?x with _ => _ end) => destruct x
  end.

Section Determinism.

Variable ln : Q -> Q.
Variable bert : BertCall -> list (list (list Q)).
Variable cls : list (list (list Q)) -> list (list (list Q)).
Variable log_softmax : list Q -> list Q.
Variable cross_entropy : list Q -> Z -> Q.
Variable embed_length_weight : list (list Q).
Variable encoder_embed_dim : nat.
Variable self : NAT.

Local Abbreviation forward' :=
  (forward ln bert cls log_softmax cross_entropy embed_length_weight
           encoder_embed_dim self).
Local Abbreviation forward_decode' :=
  (forward_decode bert cls log_softmax embed_length_weight encoder_embed_dim self).

Lemma forward_decode_rng_free input_ids tti pos im lo :
  rng_free (forward_decode' input_ids tti pos im lo).
Proof.
  unfold forward_decode. repeat rng_free_step.
Qed.

Lemma forward_rng_free src tgt pseudo ns nt decode :
  use_glat self = false ->
  rng_free (forward' src tgt pseudo ns nt decode).
Proof.
  intros Hglat. unfold forward. rewrite Hglat. destruct decode.
  - apply rng_free_bind; [apply forward_decode_rng_free|].
    intros [toks lens]. repeat rng_free_step.
  - unfold create_mask_and_position_ids. cbv beta iota zeta.
    repeat rng_free_step.
Qed.

(** C9 — with GLAT disabled, a forward call returns the same result
    (the losses of a training pass) from any two states of the random
    generator, and leaves the generator as it found it: the pass draws
    no random number. *)
Theorem forward_without_glat_deterministic :
  forall src tgt pseudo ns nt decode w1 w2,
    use_glat self = false ->
    let run :=
      forward ln bert cls log_softmax cross_entropy embed_length_weight
              encoder_embed_dim self src tgt pseudo ns nt decode in
    fst (run w1) = fst (run w2) /\
    rng_pos (snd (run w1)) = rng_pos w1 /\
    rng_draws (snd (run w1)) = rng_draws w1.
Proof.
  intros src tgt pseudo ns nt decode w1 w2 Hglat run.
  destruct (forward_rng_free src tgt pseudo ns nt decode Hglat) as [r [e H]].
  unfold run. rewrite (H w1), (H w2). simpl. now repeat split.
Qed.




Lemma nth_error_firstn_lt {A : Type} (l : list A) n p :
  (p < n)%nat -> nth_error (firstn n l) p = nth_error l p.
Proof.
  revert n p. induction l as [|a l IH]; intros [|n] [|p] H; simpl; try lia; auto.
  apply IH. lia.
Qed.


End Determinism.

(** *** Concrete passes with and without GLAT *)

Lemma forward_without_glat_deterministic_witness :
  fst (Stub.forward (Stub.config false (1 # 2))
         [[11; 12; 0]; [11; 12; 13]] [[5; 0]; [5; 6]] [[103; 103]; [103; 103]]
         [2; 3] [1; 2] false Stub.world)
  = fst (Stub.forward (Stub.config false (1 # 2))
           [[11; 12; 0]; [11; 12; 13]] [[5; 0]; [5; 6]] [[103; 103]; [103; 103]]
           [2; 3] [1; 2] false Stub.world').
Proof.
  exact (proj1 (forward_without_glat_deterministic
                  Stub.ln Stub.bert Stub.cls Stub.log_softmax Stub.cross_entropy
                  Stub.embed_length_weight Stub.encoder_embed_dim
                  (Stub.config false (1 # 2))
                  [[11; 12; 0]; [11; 12; 13]] [[5; 0]; [5; 6]] [[103; 103]; [103; 103]]
                  [2; 3] [1; 2] false Stub.world Stub.world' eq_refl)).
Defined.

(** With GLAT enabled the same call consumes one draw per position of
    the pseudo target. *)
Example forward_with_glat_draws :
  rng_pos (snd (Stub.forward (Stub.config true (1 # 2))
                  [[11; 12; 0]; [11; 12; 13]] [[5; 0]; [5; 6]] [[103; 103]; [103; 103]]
                  [2; 3] [1; 2] false Stub.world))
  = 4%nat.
Proof. vm_compute. reflexivity. Qed.

(** ** Glancing sampling *)

(** *** The random order of the positions *)

Lemma insert_desc_perm x l : Permutation (insert_desc x l) (x :: l).
Proof.
  induction l as [|y l IH]; simpl.
  - apply Permutation_refl.
  - destruct (Qle_bool (fst y) (fst x)).
    + apply Permutation_refl.
    + eapply perm_trans; [apply perm_skip, IH | apply perm_swap].
Qed.

Lemma sort_desc_perm l : Permutation (sort_desc l) l.
Proof.
  induction l as [|x l IH]; simpl.
  - apply perm_nil.
  - eapply perm_trans; [apply insert_desc_perm | apply perm_skip, IH].
Qed.

Lemma map_snd_combine {A B : Type} (xs : list A) (ys : list B) :
  length xs = length ys -> map snd (combine xs ys) = ys.
Proof.
  revert ys. induction xs as [|x xs IH]; intros [|y ys] H; simpl in *;
    try discriminate; try reflexivity.
  f_equal. apply IH. lia.
Qed.

Lemma argsort_desc_perm row : Permutation (argsort_desc row) (arange (length row)).
Proof.
  unfold argsort_desc.
  eapply perm_trans; [apply Permutation_map, sort_desc_perm|].
  rewrite map_snd_combine by (now rewrite length_arange).
  apply Permutation_refl.
Qed.

Lemma NoDup_arange n : NoDup (arange n).
Proof.
  unfold arange. apply Finite.Injective_map_NoDup; [|apply seq_NoDup].
  intros x y H. lia.
Qed.

Lemma in_arange n k : In k (arange n) <-> 0 <= k < Z.of_nat n.
Proof.
  unfold arange. rewrite in_map_iff. split.
  - intros [x [<- Hx]]. apply in_seq in Hx. lia.
  - intros H. exists (Z.to_nat k). split; [lia|]. apply in_seq. lia.
Qed.

Lemma filter_all {A : Type} (f : A -> bool) l :
  (forall x, In x l -> f x = true) -> filter f l = l.
Proof.
  induction l as [|x l IH]; intros H; simpl; [reflexivity|].
  rewrite (H x (or_introl eq_refl)). f_equal. apply IH.
  intros y Hy. apply H. now right.
Qed.

Lemma filter_none {A : Type} (f : A -> bool) l :
  (forall x, In x l -> f x = false) -> filter f l = [].
Proof.
  induction l as [|x l IH]; intros H; simpl; [reflexivity|].
  rewrite (H x (or_introl eq_refl)). apply IH.
  intros y Hy. apply H. now right.
Qed.

Lemma filter_arange_lt n v :
  0 <= v <= Z.of_nat n ->
  filter (fun k => k <? v) (arange n) = arange (Z.to_nat v).
Proof.
  intros Hv. unfold arange.
  replace n with (Z.to_nat v + (n - Z.to_nat v))%nat at 1 by lia.
  rewrite seq_app, map_app, filter_app.
  rewrite filter_all, filter_none.
  - apply app_nil_r.
  - intros x Hx. apply in_map_iff in Hx.
    destruct Hx as [k [<- Hk]]. apply in_seq in Hk.
    destruct (Z.ltb_spec (Z.of_nat k) v); [lia | reflexivity].
  - intros x Hx. apply in_map_iff in Hx.
    destruct Hx as [k [<- Hk]]. apply in_seq in Hk.
    destruct (Z.ltb_spec (Z.of_nat k) v); [reflexivity | lia].
Qed.

Lemma Permutation_filter_same {A : Type} (f : A -> bool) l1 l2 :
  Permutation l1 l2 -> Permutation (filter f l1) (filter f l2).
Proof.
  induction 1 as [|x l1 l2 _ IH|x y l|l1 l2 l3 _ IH1 _ IH2]; simpl.
  - apply perm_nil.
  - destruct (f x); [apply perm_skip|]; exact IH.
  - destruct (f x), (f y); try apply Permutation_refl. apply perm_swap.
  - eapply perm_trans; eassumption.
Qed.

(** The positions of the random order that are valid: each valid
    position once. *)
Lemma valid_indices_perm (indice : list Z) (T : nat) (v : Z) :
  Permutation indice (arange T) ->
  0 <= v <= Z.of_nat T ->
  Permutation (filter (fun k => k <? v) indice) (arange (Z.to_nat v)).
Proof.
  intros Hp Hv. rewrite <- (filter_arange_lt T v Hv).
  now apply Permutation_filter_same.
Qed.

(** *** The count of valid positions *)

Lemma sumZ_mask_row (T : nat) (c : Z) :
  sumZ (map (fun p => b2z (p <? c)) (arange T)) = Z.min (Z.max c 0) (Z.of_nat T).
Proof.
  induction T as [|T IH].
  - simpl. lia.
  - unfold arange in *. rewrite seq_S, !map_app, sumZ_app, IH.
    cbn [map sumZ fold_right Nat.add]. rewrite Nat2Z.inj_succ.
    unfold b2z. destruct (Z.ltb_spec (Z.of_nat T) c) as [Hlt|Hge].
    + lia.
    + lia.
Qed.

Lemma mismatches_bounds prediction target mask :
  Forall (fun m => m = 0 \/ m = 1) mask ->
  0 <= mismatches prediction target mask <= sumZ mask.
Proof.
  unfold mismatches. intros Hm.
  generalize (map2 (fun p t => negb (p =? t)) prediction target). intros ds.
  revert ds. induction Hm as [|m mask Hm0 Hmask IH]; intros [|d ds];
    cbn [map2 sumZ fold_right]; try lia.
  - assert (0 <= sumZ mask).
    { apply sumZ_nonneg. eapply Forall_impl; [|exact Hmask].
      intros a [-> | ->]; lia. }
    unfold sumZ in *. lia.
  - specialize (IH ds). unfold sumZ in *.
    destruct Hm0 as [-> | ->]; destruct d; cbn [andb Z.eqb b2z Pos.eqb]; lia.
Qed.

Lemma StronglySorted_app_le {A : Type} (R : A -> A -> Prop) (l1 l2 : list A) :
  StronglySorted R (l1 ++ l2) ->
  forall a b, In a l1 -> In b l2 -> R a b.
Proof.
  induction l1 as [|x l1 IH]; intros H a b Ha Hb; [destruct Ha|].
  simpl in H. inversion H as [|? ? Hs Hx]; subst.
  destruct Ha as [<-|Ha].
  - rewrite Forall_forall in Hx. apply Hx. apply in_or_app. now right.
  - now apply IH.
Qed.

Lemma in_combine_arange (row : list Q) q z :
  In (q, z) (combine row (arange (length row))) ->
  0 <= z < Z.of_nat (length row) /\ q = nth (Z.to_nat z) row 0%Q.
Proof.
  intros H. apply In_nth_error in H. destruct H as [n Hn].
  assert (Hlt : (n < length (combine row (arange (length row))))%nat)
    by (apply nth_error_Some; congruence).
  rewrite length_combine, length_arange, Nat.min_id in Hlt.
  rewrite (nth_error_combine row (arange (length row)) n (nth n row 0%Q) (Z.of_nat n))
    in Hn.
  - injection Hn as <- <-. rewrite Nat2Z.id. split; [lia | reflexivity].
  - now apply nth_error_nth_lt.
  - now apply nth_error_arange.
Qed.

Lemma NoDup_firstn {A : Type} n (l : list A) : NoDup l -> NoDup (firstn n l).
Proof.
  intros H. rewrite <- (firstn_skipn n l) in H.
  eapply NoDup_app_remove_r. exact H.
Qed.

Lemma In_firstn {A : Type} n (l : list A) x : In x (firstn n l) -> In x l.
Proof.
  intros H. rewrite <- (firstn_skipn n l). apply in_or_app. now left.
Qed.

Lemma insert_desc_sorted x l :
  StronglySorted (fun a b => le_fst b a) l ->
  StronglySorted (fun a b => le_fst b a) (insert_desc x l).
Proof.
  induction 1 as [|y l Hs IH Hy]; simpl.
  - constructor; constructor.
  - destruct (Qle_bool (fst y) (fst x)) eqn:E.
    + apply Qle_bool_iff in E. constructor.
      * now constructor.
      * constructor; [exact E|].
        eapply Forall_impl; [|exact Hy]. intros z Hz. unfold le_fst in *.
        eapply Qle_trans; eassumption.
    + assert (Hxy : (fst x <= fst y)%Q).
      { apply Qlt_le_weak, Qnot_le_lt. intros H.
        apply Qle_bool_iff in H. congruence. }
      constructor; [exact IH|].
      apply Forall_forall. intros z Hz.
      apply (Permutation_in _ (insert_desc_perm x l)) in Hz.
      destruct Hz as [<-|Hz]; [exact Hxy|].
      rewrite Forall_forall in Hy. now apply Hy.
Qed.

Lemma sort_desc_sorted l : StronglySorted (fun a b => le_fst b a) (sort_desc l).
Proof.
  induction l as [|x l IH]; simpl; [constructor | now apply insert_desc_sorted].
Qed.

Lemma StronglySorted_filter {A : Type} (R : A -> A -> Prop) (f : A -> bool) l :
  StronglySorted R l -> StronglySorted R (filter f l).
Proof.
  induction 1 as [|x l Hs IH Hx]; simpl; [constructor|].
  destruct (f x); [|exact IH].
  constructor; [exact IH|].
  apply Forall_forall. intros y Hy. apply filter_In in Hy.
  rewrite Forall_forall in Hx. now apply Hx.
Qed.

Lemma filter_map_snd (f : Z -> bool) (l : list (Q * Z)) :
  filter f (map snd l) = map snd (filter (fun p => f (snd p)) l).
Proof.
  induction l as [|x l IH]; simpl; [reflexivity|].
  destruct (f (snd x)); simpl; now rewrite IH.
Qed.

(** The head of the valid part of the random order holds the valid
    positions of the largest noise: the noise at a position of the head
    is at least the noise at every valid position outside it. *)
Lemma reveal_order (noise : list Q) (v : Z) (k : nat) :
  let idx := firstn k (filter (fun x => x <? v) (argsort_desc noise)) in
  forall i j,
    In i idx -> 0 <= j < Z.of_nat (length noise) -> j < v -> ~ In j idx ->
    (nth (Z.to_nat j) noise 0 <= nth (Z.to_nat i) noise 0)%Q.
Proof.
  intros idx i j Hi Hj Hjv Hnj. unfold idx, argsort_desc in *.
  set (pairs := combine noise (arange (length noise))) in *.
  rewrite filter_map_snd in Hi, Hnj.
  set (sorted := filter (fun p : Q * Z => snd p <? v) (sort_desc pairs)) in *.
  rewrite firstn_map in Hi, Hnj.
  apply in_map_iff in Hi. destruct Hi as [[qi zi] [Ezi Hi]]. simpl in Ezi. subst zi.
  assert (Hjs : In (nth (Z.to_nat j) noise 0%Q, j) sorted).
  { apply filter_In. split; [|now apply Z.ltb_lt].
    apply (Permutation_in _ (Permutation_sym (sort_desc_perm _))).
    apply (nth_error_In _ (Z.to_nat j)).
    apply nth_error_combine.
    - apply nth_error_nth_lt. lia.
    - rewrite nth_error_arange by lia. f_equal. lia. }
  rewrite <- (firstn_skipn k sorted) in Hjs.
  apply in_app_or in Hjs. destruct Hjs as [Hjs|Hjs].
  { exfalso. apply Hnj. apply in_map_iff. now exists (nth (Z.to_nat j) noise 0%Q, j). }
  pose proof (StronglySorted_filter _ (fun p : Q * Z => snd p <? v) _
                (sort_desc_sorted pairs)) as Hs.
  fold sorted in Hs. rewrite <- (firstn_skipn k sorted) in Hs.
  pose proof (StronglySorted_app_le _ _ _ Hs _ _ Hi Hjs) as Hle.
  unfold le_fst in Hle. simpl in Hle.
  assert (Hqi : In (qi, i) pairs).
  { apply (Permutation_in _ (sort_desc_perm _)).
    apply In_firstn in Hi. apply filter_In in Hi. now destruct Hi. }
  apply in_combine_arange in Hqi. destruct Hqi as [_ <-]. exact Hle.
Qed.

(** *** The reveal count *)

Lemma round_half_even_le (x : Q) (n : Z) :
  (x <= inject_Z n)%Q -> round_half_even x <= n.
Proof.
  intros H. unfold round_half_even.
  pose proof (Qfloor_le x) as Hf.
  assert (Hfn : Qfloor x <= n).
  { rewrite <- (Qfloor_Z n). now apply Qfloor_resp_le. }
  destruct (Z.eq_dec (Qfloor x) n) as [E|E].
  - assert (Hc : (x - inject_Z (Qfloor x) ?= 1 # 2)%Q = Lt).
    { apply Qlt_alt. rewrite E.
      apply Qle_lt_trans with (y := 0%Q); [|reflexivity].
      apply (Qplus_le_l _ _ (inject_Z n)). ring_simplify. exact H. }
    rewrite Hc. lia.
  - destruct (x - inject_Z (Qfloor x) ?= 1 # 2)%Q; [destruct (Z.even _)| |]; lia.
Qed.

Lemma round_half_even_nonneg (x : Q) : (0 <= x)%Q -> 0 <= round_half_even x.
Proof.
  intros H. unfold round_half_even.
  assert (Hf : 0 <= Qfloor x).
  { change 0 with (Qfloor 0). now apply Qfloor_resp_le. }
  destruct (x - inject_Z (Qfloor x) ?= 1 # 2)%Q; [destruct (Z.even _)| |]; lia.
Qed.

Lemma Qpower_2_inject (s : Z) : 0 <= s -> ((2 ^ s)%Q == inject_Z (2 ^ s))%Q.
Proof. intros H. symmetry. exact (Zpower_Qpower 2 s H). Qed.

Lemma Qlog2_below (q : Q) (c : Z) :
  0 <= c -> (0 < q)%Q -> (q < inject_Z (2 ^ c))%Q -> Qlog2 q < c.
Proof.
  intros Hc Hq Hlt. unfold Qlog2.
  set (e0 := Z.log2 (Qnum q) - Z.log2 (Z.pos (Qden q))).
  destruct (Qle_bool (2 ^ e0) q) eqn:E.
  - apply Qle_bool_iff in E.
    destruct (Z_lt_le_dec e0 c) as [H|H]; [exact H|]. exfalso.
    assert (He0 : 0 <= e0) by lia.
    rewrite (Qpower_2_inject e0 He0) in E.
    assert (Hp : 2 ^ c <= 2 ^ e0) by (apply Z.pow_le_mono_r; lia).
    rewrite Zle_Qle in Hp.
    apply (Qlt_irrefl q). eapply Qlt_le_trans; [exact Hlt|].
    eapply Qle_trans; eassumption.
  - assert (Hn : 0 < Qnum q).
    { unfold Qlt in Hq. simpl in Hq. lia. }
    assert (Hnd : Qnum q < 2 ^ c * Z.pos (Qden q)).
    { unfold Qlt in Hlt. simpl in Hlt. lia. }
    pose proof (Z.log2_spec (Z.pos (Qden q)) ltac:(lia)) as [_ Hd].
    pose proof (Z.log2_nonneg (Z.pos (Qden q))) as Hb.
    assert (Hn2 : Qnum q < 2 ^ (c + Z.succ (Z.log2 (Z.pos (Qden q))))).
    { rewrite Z.pow_add_r by lia.
      eapply Z.lt_trans; [exact Hnd|].
      apply Z.mul_lt_mono_pos_l; [apply Z.pow_pos_nonneg; lia | exact Hd]. }
    apply Z.log2_lt_pow2 in Hn2; [|exact Hn]. unfold e0. lia.
Qed.

Lemma round_f32_nonneg (q : Q) : (0 <= q)%Q -> (0 <= round_f32 q)%Q.
Proof.
  intros H. unfold round_f32.
  destruct (Qeq_bool q 0); [apply Qle_refl|].
  assert (Hb : Qle_bool 0 q = true) by now apply Qle_bool_iff.
  rewrite Hb.
  set (e := Z.max (Qlog2 (Qabs q)) (-126)).
  assert (Hs : (0 < 2 ^ (23 - e))%Q) by (apply Qpower_0_lt; reflexivity).
  apply Qle_shift_div_l; [exact Hs|]. rewrite Qmult_0_l.
  change 0%Q with (inject_Z 0). rewrite <- Zle_Qle.
  apply round_half_even_nonneg.
  apply Qmult_le_0_compat; [apply Qabs_nonneg | now apply Qlt_le_weak].
Qed.

(** Rounding never crosses an integer below 2^24: such an integer is a
    number of the format. *)
Lemma round_f32_le_int (q : Q) (k : Z) :
  (0 <= q)%Q -> (q <= inject_Z k)%Q -> k < 2 ^ 24 ->
  (round_f32 q <= inject_Z k)%Q.
Proof.
  intros H0 Hk Hk24. unfold round_f32.
  destruct (Qeq_bool q 0) eqn:Ez.
  { eapply Qle_trans; eassumption. }
  assert (Hb : Qle_bool 0 q = true) by now apply Qle_bool_iff.
  rewrite Hb.
  assert (Hq : (0 < q)%Q).
  { apply Qle_lteq in H0. destruct H0 as [H0|H0]; [exact H0|].
    symmetry in H0. apply Qeq_bool_iff in H0. congruence. }
  assert (Ha : (Qabs q == q)%Q) by now apply Qabs_pos.
  set (e := Z.max (Qlog2 (Qabs q)) (-126)).
  assert (He : e <= 23).
  { unfold e. apply Z.max_lub; [|lia].
    assert (Qlog2 (Qabs q) < 24); [|lia].
    apply Qlog2_below; [lia | now rewrite Ha |].
    rewrite Ha. eapply Qle_lt_trans; [exact Hk|]. now rewrite <- Zlt_Qlt. }
  set (s := 23 - e). assert (Hs : 0 <= s) by (unfold s; lia).
  assert (Hscale : ((2 ^ s)%Q == inject_Z (2 ^ s))%Q) by now apply Qpower_2_inject.
  assert (Hpos : 0 < 2 ^ s) by (apply Z.pow_pos_nonneg; lia).
  assert (Hspos : (0 < 2 ^ s)%Q) by (apply Qpower_0_lt; reflexivity).
  apply Qle_shift_div_r; [exact Hspos|].
  rewrite Hscale at 2. rewrite <- inject_Z_mult, <- Zle_Qle.
  apply round_half_even_le.
  rewrite inject_Z_mult, <- Hscale, Ha.
  apply Qmult_le_compat_r; [exact Hk | now apply Qlt_le_weak].
Qed.

Lemma Qtrunc_nonneg (q : Q) : (0 <= q)%Q -> 0 <= Qtrunc q.
Proof.
  intros H. unfold Qtrunc. apply Z.quot_pos; [|lia].
  unfold Qle in H. simpl in H. lia.
Qed.

Lemma Qtrunc_le_int (q : Q) (k : Z) :
  (0 <= q)%Q -> (q <= inject_Z k)%Q -> Qtrunc q <= k.
Proof.
  intros H0 Hk. unfold Qtrunc.
  assert (Hn : 0 <= Qnum q) by (unfold Qle in H0; simpl in H0; lia).
  rewrite Z.quot_div_nonneg by lia.
  unfold Qle in Hk. simpl in Hk.
  apply Z.div_le_upper_bound; lia.
Qed.

(** The reveal count of a fraction between 0 and 1: never negative and
    never above the count it is a fraction of. *)
Lemma reveal_count_bounds (f : Q) (mism : Z) :
  (0 <= f)%Q -> (f <= 1)%Q -> 0 <= mism < 2 ^ 24 ->
  0 <= reveal_count mism f <= mism.
Proof.
  intros Hf0 Hf1 Hm. unfold reveal_count.
  assert (Hm0 : (0 <= inject_Z mism)%Q).
  { change 0%Q with (inject_Z 0). rewrite <- Zle_Qle. lia. }
  pose proof (round_f32_nonneg _ Hm0) as Ha0.
  pose proof (round_f32_le_int _ mism Hm0 (Qle_refl _) ltac:(lia)) as Ha1.
  pose proof (round_f32_nonneg _ Hf0) as Hg0.
  pose proof (round_f32_le_int f 1 Hf0 Hf1 ltac:(lia)) as Hg1.
  set (a := round_f32 (inject_Z mism)) in *.
  set (g := round_f32 f) in *.
  assert (Hp0 : (0 <= a * g)%Q) by now apply Qmult_le_0_compat.
  assert (Hp1 : (a * g <= inject_Z mism)%Q).
  { apply Qle_trans with (a * 1)%Q.
    - rewrite !(Qmult_comm a). now apply Qmult_le_compat_r.
    - rewrite Qmult_1_r. exact Ha1. }
  pose proof (round_f32_nonneg _ Hp0) as Hr0.
  pose proof (round_f32_le_int _ mism Hp0 Hp1 ltac:(lia)) as Hr1.
  split; [now apply Qtrunc_nonneg | now apply Qtrunc_le_int].
Qed.

(** *** Indexed reads and writes *)

Lemma py_index_in_range i len :
  0 <= i < Z.of_nat len -> py_index i len = Some (Z.to_nat i).
Proof.
  intros H. unfold py_index.
  destruct (Z.leb_spec 0 i); [|lia].
  destruct (Z.ltb_spec i (Z.of_nat len)); [reflexivity | lia].
Qed.

Lemma gather_in_range (x idx : list Z) :
  Forall (fun i => 0 <= i < Z.of_nat (length x)) idx ->
  gather x idx = Some (map (fun i => nth (Z.to_nat i) x 0) idx).
Proof.
  unfold gather. induction 1 as [|i idx Hi _ IH]; simpl; [reflexivity|].
  rewrite (py_index_in_range _ _ Hi), IH.
  rewrite (nth_error_nth_lt x (Z.to_nat i) 0) by lia. reflexivity.
Qed.

Lemma nth_error_set_nth_eq {A : Type} k (v : A) l :
  (k < length l)%nat -> nth_error (set_nth k v l) k = Some v.
Proof.
  revert k. induction l as [|x l IH]; intros [|k] H; simpl in *; try lia; auto.
  apply IH. lia.
Qed.

Lemma nth_error_set_nth_neq {A : Type} k j (v : A) l :
  j <> k -> nth_error (set_nth k v l) j = nth_error l j.
Proof.
  revert k j. induction l as [|x l IH]; intros [|k] [|j] H; simpl;
    try reflexivity; try (exfalso; apply H; reflexivity).
  apply IH. lia.
Qed.

(** Writing the values [g i] at the indices [i] of [idx], all inside
    [x]: the written positions hold [g], the others are unchanged. *)
Lemma assign_in_range (g : Z -> Z) (idx : list Z) :
  forall x,
    Forall (fun i => 0 <= i < Z.of_nat (length x)) idx ->
    exists x',
      assign x idx (map g idx) = Some x' /\
      length x' = length x /\
      (forall p, In (Z.of_nat p) idx -> nth_error x' p = Some (g (Z.of_nat p))) /\
      (forall p, ~ In (Z.of_nat p) idx -> nth_error x' p = nth_error x p).
Proof.
  induction idx as [|i idx IH]; intros x Hr.
  - exists x. simpl. repeat split; auto. intros p [].
  - inversion Hr as [|? ? Hi Hr']; subst. simpl.
    rewrite (py_index_in_range _ _ Hi).
    destruct (IH (set_nth (Z.to_nat i) (g i) x)) as [x' [Ha [Hl [Hin Hout]]]].
    { rewrite length_set_nth. exact Hr'. }
    exists x'. split; [exact Ha|]. split; [now rewrite Hl, length_set_nth|]. split.
    + intros p Hp.
      destruct (in_dec Z.eq_dec (Z.of_nat p) idx) as [Hp'|Hp'].
      * now apply Hin.
      * destruct Hp as [Hp|Hp]; [|contradiction].
        rewrite Hout by assumption. subst i. rewrite Nat2Z.id.
        apply nth_error_set_nth_eq. lia.
    + intros p Hp. rewrite Hout by (intros H; apply Hp; now right).
      apply nth_error_set_nth_neq. intros ->. apply Hp. left. lia.
Qed.

Lemma assign_success_in_range (idx : list Z) :
  forall vals x x',
    Forall (fun i => 0 <= i) idx ->
    assign x idx vals = Some x' ->
    Forall (fun i => 0 <= i < Z.of_nat (length x)) idx.
Proof.
  induction idx as [|i idx IH]; intros vals x x' Hn Ha; [constructor|].
  inversion Hn as [|? ? Hi Hn']; subst.
  destruct vals as [|v vals]; simpl in Ha; [discriminate|].
  destruct (py_index i (length x)) as [k|] eqn:Ek; [|discriminate].
  destruct (py_index_nonneg _ _ _ Hi Ek) as [-> Hk].
  constructor; [lia|].
  specialize (IH _ _ _ Hn' Ha). rewrite length_set_nth in IH. exact IH.
Qed.

Lemma nth_error_eq_nth {A : Type} (l1 l2 : list A) p d :
  nth_error l1 p = nth_error l2 p -> nth p l1 d = nth p l2 d.
Proof.
  intros H. rewrite <- !nth_default_eq. unfold nth_default. now rewrite H.
Qed.

(** The reveal of one example: the first [n] valid positions of the
    random order receive the ground truth, every other position keeps
    its token. *)
Lemma reveal_row_spec (indice tm t ps vals ps' : list Z) (n : Z) (T : nat) :
  Permutation indice (arange T) ->
  0 <= sumZ tm <= Z.of_nat T ->
  0 <= n <= sumZ tm ->
  length t = T ->
  let idx := slice_to n (filter (fun k => k <? sumZ tm) indice) in
  gather t idx = Some vals ->
  assign ps idx vals = Some ps' ->
  exists revealed : list nat,
    NoDup revealed /\
    Z.of_nat (length revealed) = n /\
    (forall p, In p revealed -> Z.of_nat p < sumZ tm) /\
    length ps' = length ps /\
    (forall p, In p revealed ->
               nth_error ps' p = nth_error t p /\ (p < length ps)%nat) /\
    (forall p, ~ In p revealed -> nth_error ps' p = nth_error ps p) /\
    (forall p, In p revealed <-> In (Z.of_nat p) idx).
Proof.
  intros Hperm Hv Hn Ht idx Hg Ha.
  set (v := sumZ tm) in *.
  pose proof (valid_indices_perm indice T v Hperm Hv) as Hf.
  set (filtered := filter (fun k => k <? v) indice) in *.
  assert (Hlenf : length filtered = Z.to_nat v).
  { rewrite (Permutation_length Hf). apply length_arange. }
  assert (Eidx : idx = firstn (Z.to_nat n) filtered).
  { unfold idx, slice_to, py_bound.
    destruct (Z.ltb_spec n 0); [lia|]. f_equal. lia. }
  assert (Hnd : NoDup idx).
  { rewrite Eidx. apply NoDup_firstn.
    eapply Permutation_NoDup; [apply Permutation_sym, Hf | apply NoDup_arange]. }
  assert (Hin : forall k, In k idx -> 0 <= k < v).
  { intros k Hk. rewrite Eidx in Hk. apply In_firstn in Hk.
    apply (Permutation_in _ Hf) in Hk. apply in_arange in Hk. lia. }
  assert (Hlen : length idx = Z.to_nat n).
  { rewrite Eidx, length_firstn. lia. }
  assert (Hrt : Forall (fun i => 0 <= i < Z.of_nat (length t)) idx).
  { apply Forall_forall. intros k Hk. specialize (Hin k Hk). lia. }
  rewrite (gather_in_range t idx Hrt) in Hg. injection Hg as <-.
  assert (Hrp : Forall (fun i => 0 <= i < Z.of_nat (length ps)) idx).
  { eapply assign_success_in_range; [|exact Ha].
    apply Forall_forall. intros k Hk. specialize (Hin k Hk). lia. }
  destruct (assign_in_range (fun i => nth (Z.to_nat i) t 0) idx ps Hrp)
    as [x' [Ha' [Hl [Hi Ho]]]].
  rewrite Ha in Ha'. injection Ha' as <-.
  assert (Hmem : forall p, In p (map Z.to_nat idx) <-> In (Z.of_nat p) idx).
  { intros p. rewrite in_map_iff. split.
    - intros [k [<- Hk]]. specialize (Hin k Hk). now rewrite Z2Nat.id by lia.
    - intros Hk. exists (Z.of_nat p). split; [lia | exact Hk]. }
  exists (map Z.to_nat idx). repeat split.
  - apply Finite.Injective_map_NoDup_in; [|exact Hnd].
    intros x y Hx Hy E. pose proof (Hin x Hx). pose proof (Hin y Hy). lia.
  - rewrite length_map, Hlen. lia.
  - intros p Hp. apply Hmem in Hp. specialize (Hin _ Hp). lia.
  - exact Hl.
  - apply Hmem in H. rewrite (Hi p H), Nat2Z.id.
    symmetry. apply nth_error_nth_lt. specialize (Hin _ H). lia.
  - apply Hmem in H. rewrite Forall_forall in Hrp. specialize (Hrp _ H). lia.
  - intros p Hp. apply Ho. intros H. apply Hp. now apply Hmem.
  - now apply Hmem.
  - now apply Hmem.
Qed.

(** The positions that differ after the reveal, when the pseudo target
    was all mask tokens and the ground truth holds none. *)
Lemma changed_positions_count (ps ps' t : list Z) (revealed : list nat) (v m : Z) :
  NoDup revealed ->
  (forall p, In p revealed -> Z.of_nat p < v) ->
  (forall p, In p revealed -> nth_error ps' p = nth_error t p /\ (p < length ps)%nat) ->
  (forall p, ~ In p revealed -> nth_error ps' p = nth_error ps p) ->
  (forall p, Z.of_nat p < v -> nth p ps 0 = m /\ nth p t 0 <> m) ->
  length (changed_positions ps ps' v) = length revealed.
Proof.
  intros Hnd Hlt Hin Hout Hmask.
  apply Permutation_length. apply NoDup_Permutation.
  - apply NoDup_filter, seq_NoDup.
  - exact Hnd.
  - intros p. unfold changed_positions. rewrite filter_In, in_seq. split.
    + intros [Hp Hd].
      destruct (in_dec Nat.eq_dec p revealed) as [Hr|Hr]; [exact Hr|].
      rewrite (nth_error_eq_nth _ _ p 0 (Hout p Hr)), Z.eqb_refl in Hd. discriminate.
    + intros Hr. split; [specialize (Hlt p Hr); lia|].
      destruct (Hin p Hr) as [E _].
      rewrite (nth_error_eq_nth _ _ p 0 E).
      destruct (Hmask p (Hlt p Hr)) as [-> Hne].
      destruct (Z.eqb_spec m (nth p t 0)); [congruence | reflexivity].
Qed.

(** *** The loop over the examples *)

Lemma nth_error_map2_inv {A B C : Type} (f : A -> B -> C) xs ys n z :
  nth_error (map2 f xs ys) n = Some z ->
  exists x y, nth_error xs n = Some x /\ nth_error ys n = Some y /\ z = f x y.
Proof.
  revert ys n. induction xs as [|a xs IH]; intros [|b ys] [|n] H;
    simpl in *; try discriminate.
  - injection H as <-. now exists a, b.
  - now apply IH.
Qed.

Lemma chunks_rows {A : Type} (rows cols : nat) :
  forall l : list A,
    length l = (rows * cols)%nat ->
    length (chunks rows cols l) = rows /\
    Forall (fun r => length r = cols) (chunks rows cols l).
Proof.
  induction rows as [|rows IH]; intros l Hl; simpl.
  - split; [reflexivity | constructor].
  - destruct (IH (skipn cols l)) as [H1 H2].
    { rewrite length_skipn. simpl in Hl. lia. }
    split; [now rewrite H1|]. constructor; [|exact H2].
    rewrite length_firstn. simpl in Hl. lia.
Qed.

Lemma rand_tensor_inv rows cols w noise w' :
  rand_tensor rows cols w = (Some noise, w') ->
  length noise = rows /\ Forall (fun r => length r = cols) noise /\
  bert_calls w' = bert_calls w.
Proof.
  unfold rand_tensor, rand, bind, ret. intros H. injection H as <- <-.
  destruct (chunks_rows rows cols
              (map (fun k => rng_draws w (rng_pos w + k)%nat) (seq 0 (rows * cols))))
    as [H1 H2].
  { now rewrite length_map, length_seq. }
  repeat split; assumption.
Qed.

Lemma nth_error_chunks {A : Type} (cols : nat) :
  forall (rows b : nat) (l : list A),
    (b < rows)%nat ->
    nth_error (chunks rows cols l) b = Some (firstn cols (skipn (b * cols) l)).
Proof.
  induction rows as [|rows IH]; intros b l Hb; [lia|].
  destruct b as [|b]; simpl; [reflexivity|].
  rewrite IH by lia. now rewrite skipn_skipn, (Nat.add_comm (b * cols)).
Qed.

Lemma firstn_seq_le (n a len : nat) :
  (n <= len)%nat -> firstn n (seq a len) = seq a n.
Proof.
  revert a len. induction n as [|n IH]; intros a [|len] H; simpl; try reflexivity; try lia.
  f_equal. apply IH. lia.
Qed.

Lemma map_seq_shift {A : Type} (f : nat -> A) (a n : nat) :
  map f (seq a n) = map (fun k => f (a + k)%nat) (seq 0 n).
Proof.
  revert f a. induction n as [|n IH]; intros f a; simpl; [reflexivity|].
  rewrite Nat.add_0_r. f_equal.
  rewrite (IH f (S a)), (IH (fun k => f (a + k)%nat) 1%nat). apply map_ext.
  intros k. f_equal. lia.
Qed.

(** The rows of [torch.rand((rows, cols))]: the draws of the generator
    in order, row after row. *)
Lemma rand_tensor_rows rows cols w noise w' b :
  rand_tensor rows cols w = (Some noise, w') ->
  (b < rows)%nat ->
  nth_error noise b
  = Some (map (fun k => rng_draws w (rng_pos w + b * cols + k)%nat) (seq 0 cols)).
Proof.
  unfold rand_tensor, rand, bind, ret. intros H Hb. injection H as <- _.
  rewrite nth_error_chunks by exact Hb. f_equal.
  rewrite skipn_map, firstn_map, skipn_seq, firstn_seq_le by nia.
  rewrite map_seq_shift. apply map_ext. intros k. f_equal. lia.
Qed.

Section Glancing.

Variable bert : BertCall -> list (list (list Q)).
Variable cls : list (list (list Q)) -> list (list (list Q)).
Variable self : NAT.
Hypothesis no_random_prob : glat_random_prob self = None.

Lemma glat_reveal_inv indice im tm t ps n w ps' w' :
  glat_reveal self indice im tm t ps n w = (Some ps', w') ->
  let idx := slice_to n (filter (fun k => k <? sumZ tm) indice) in
  bert_calls w' = bert_calls w /\
  exists vals, gather t idx = Some vals /\ assign ps idx vals = Some ps'.
Proof.
  unfold glat_reveal. rewrite no_random_prob. intros H. minv H.
  split; [reflexivity|]. eexists. split; eassumption.
Qed.

Lemma glat_loop_inv im tm tgt N :
  forall indices i pseudo w out w',
    glat_loop self indices im tm tgt pseudo N i w = (Some out, w') ->
    bert_calls w' = bert_calls w /\
    length out = length pseudo /\
    (forall b, (b < i)%nat \/ (i + length indices <= b)%nat ->
               nth_error out b = nth_error pseudo b) /\
    (forall b perm,
        (i <= b)%nat -> nth_error indices (b - i) = Some perm ->
        exists tmr n t ps ps' vals,
          nth_error tm b = Some tmr /\ nth_error N b = Some n /\
          nth_error tgt b = Some t /\ nth_error pseudo b = Some ps /\
          nth_error out b = Some ps' /\
          let idx := slice_to n (filter (fun k => k <? sumZ tmr) perm) in
          gather t idx = Some vals /\ assign ps idx vals = Some ps').
Proof.
  induction indices as [|indice indices IH]; intros i pseudo w out w' H.
  - simpl in H. apply ret_inv in H. destruct H as [-> ->].
    repeat split; auto. intros b perm _ Hp. destruct (b - i)%nat; discriminate.
  - simpl in H. minv H.
    match goal with
    | Hr : glat_reveal _ _ _ _ _ _ _ _ = _ |- _ =>
        apply glat_reveal_inv in Hr; destruct Hr as [Hw [vals [Hg Ha]]]
    end.
    match goal with
    | Hl : glat_loop _ _ _ _ _ _ _ _ _ = _ |- _ =>
        apply IH in Hl; destruct Hl as [Hw' [Hlen [Hout Hrows]]]
    end.
    assert (Hi : (i < length pseudo)%nat) by (apply nth_error_Some; congruence).
    rewrite length_set_nth in Hlen.
    split; [congruence|]. split; [exact Hlen|]. split.
    + intros b Hb. rewrite Hout by (simpl in Hb; lia).
      apply nth_error_set_nth_neq. simpl in Hb. lia.
    + intros b perm Hb Hp.
      destruct (Nat.eq_dec b i) as [->|Hne].
      * rewrite Nat.sub_diag in Hp. simpl in Hp. injection Hp as <-.
        do 6 eexists. repeat split; try eassumption.
        rewrite Hout by lia. now apply nth_error_set_nth_eq.
      * replace (b - i)%nat with (S (b - S i)) in Hp by lia. simpl in Hp.
        destruct (Hrows b perm ltac:(lia) Hp)
          as [tmr [n [t [ps [ps' [vals' [H1 [H2 [H3 [H4 [H5 H6]]]]]]]]]]].
        rewrite nth_error_set_nth_neq in H4 by assumption.
        exists tmr, n, t, ps, ps', vals'.
        repeat split; try assumption; apply H6.
Qed.

Local Abbreviation forward_glat' := (forward_glat bert cls self).

Lemma mask_row_binary (T : nat) (c : Z) :
  Forall (fun m => m = 0 \/ m = 1) (map (fun p => b2z (p <? c)) (arange T)).
Proof.
  apply Forall_forall. intros m Hm. apply in_map_iff in Hm.
  destruct Hm as [p [<- _]]. destruct (p <? c); simpl; auto.
Qed.

(** C3 (as amended) — with [glat_random_prob] unset, a fraction
    [glat_f] between 0 and 1 and a target of fewer than $2^{24}$
    positions, the reveal count N of every example is the product of
    [glat_f] and the number of valid target positions at which the draft
    differs from the ground truth, computed in single precision and
    truncated to an integer; it lies between 0 and that number of
    differing positions, itself at most the number of valid positions;
    exactly N distinct valid positions receive the ground-truth token,
    those of the largest random noise (the noise at a revealed position
    is at least the noise at every valid position that is not revealed),
    and every other position keeps its token; when the pseudo target was
    the mask token at every valid position and no valid ground-truth
    token is the mask token, exactly N valid positions differ from the
    original. *)
Theorem forward_glat_reveal :
  forall src tgt pseudo ns nt w pseudo' N w',
    (0 <= glat_f self)%Q ->
    (glat_f self <= 1)%Q ->
    Z.of_nat (width tgt) < 2 ^ 24 ->
    forward_glat' src tgt pseudo ns nt w = (Some (pseudo', N), w') ->
    exists c1,
      bert_calls w' = bert_calls w ++ [c1] /\
      let draft :=
        map (map argmax) (cls (map (slice_from (Z.of_nat (width src))) (bert c1))) in
      forall b c t ps d,
        nth_error nt b = Some c ->
        nth_error tgt b = Some t ->
        nth_error pseudo b = Some ps ->
        nth_error draft b = Some d ->
        let valid := Z.min (Z.max c 0) (Z.of_nat (width tgt)) in
        let mism :=
          mismatches d t (map (fun p => b2z (p <? c)) (arange (width tgt))) in
        let noise :=
          map (fun k => rng_draws w (rng_pos w + b * width tgt + k)%nat)
              (seq 0 (width tgt)) in
        exists n ps',
          nth_error N b = Some n /\
          nth_error pseudo' b = Some ps' /\
          n = reveal_count mism (glat_f self) /\
          0 <= n <= mism /\
          mism <= valid /\
          exists revealed : list nat,
            NoDup revealed /\
            Z.of_nat (length revealed) = n /\
            (forall p, In p revealed -> Z.of_nat p < valid) /\
            (forall p q, In p revealed -> Z.of_nat q < valid -> ~ In q revealed ->
                         (nth q noise 0 <= nth p noise 0)%Q) /\
            length ps' = length ps /\
            (forall p, In p revealed -> nth_error ps' p = nth_error t p) /\
            (forall p, ~ In p revealed -> nth_error ps' p = nth_error ps p) /\
            ((forall p, Z.of_nat p < valid ->
                        nth p ps 0 = mask_word_id self /\
                        nth p t 0 <> mask_word_id self) ->
             Z.of_nat (length (changed_positions ps ps' valid)) = n).
Proof.
  intros src tgt pseudo ns nt w pseudo' N w' Hf0 Hf1 H24 H.
  unfold forward_glat in H. rewrite no_random_prob in H.
  unfold create_mask_and_position_ids in H. cbv beta iota zeta in H.
  minv H.
  repeat match goal with
         | H : (_, _) = (_, _) |- _ => injection H as ? ?; subst
         end.
  unfold feed_bert in *.
  repeat match goal with
         | H : bind _ _ _ = (Some _, _) |- _ => minv H
         end.
  match goal with
  | H : call_bert _ ?c _ = _ |- _ =>
      apply call_bert_inv in H; destruct H as [Hx [Hc1 [Hrp Hrd]]]; subst;
      exists c
  end.
  match goal with
  | H : rand_tensor ?r ?c ?w0 = (Some ?noise, _) |- _ =>
      pose proof (fun b Hb => rand_tensor_rows r c w0 noise _ b H Hb) as Hnoise;
      apply rand_tensor_inv in H; destruct H as [Hrows [Hcols Hcn]]
  end.
  rewrite Hrp, Hrd in Hnoise.
  match goal with
  | H : glat_loop _ _ _ _ _ _ _ _ _ = _ |- _ =>
      apply glat_loop_inv in H; destruct H as [Hcl [Hlo [_ Hloop]]]
  end.
  split; [congruence|]. cbv zeta.
  intros b c t ps d Hc Ht Hps Hd.
  match goal with
  | H : _ && _ = true |- _ => apply andb_prop in H; destruct H as [Hd1 Hd2]
  end.
  apply same_dims_spec in Hd2. destruct Hd2 as [_ Hd2].
  assert (Hbl : (b < length pseudo)%nat) by (apply nth_error_Some; congruence).
  set (T := width tgt) in *.
  assert (HT : width pseudo = T).
  { match goal with
    | H : (_ =? _)%nat = true |- _ => apply Nat.eqb_eq in H; now rewrite <- H
    end. }
  rewrite HT in Hnoise.
  pose proof (Hnoise b Hbl) as En.
  set (nrow := map (fun k => rng_draws w (rng_pos w + b * T + k)%nat) (seq 0 T)) in *.
  assert (Hnl : length nrow = T) by (unfold nrow; now rewrite length_map, length_seq).
  destruct (Hloop b (argsort_desc nrow) (Nat.le_0_l b))
    as [tmr [n [t' [ps0 [ps' [vals [H1 [H2 [H3 [H4 [H5 [H6 H7]]]]]]]]]]]].
  { rewrite Nat.sub_0_r. now apply nth_error_map_some. }
  rewrite Ht in H3. injection H3 as <-.
  rewrite Hps in H4. injection H4 as <-.
  pose proof (nth_error_map_some
                (fun c0 => map (fun p => b2z (p <? c0)) (arange T)) nt b c Hc) as Htm.
  cbv beta in Htm.
  rewrite Htm in H1. injection H1 as <-.
  set (tmr := map (fun p => b2z (p <? c)) (arange T)) in *.
  assert (Htl : length t = T).
  { rewrite (Hd2 b t tmr Ht Htm). unfold tmr. now rewrite length_map, length_arange. }
  assert (Hv : sumZ tmr = Z.min (Z.max c 0) (Z.of_nat T)) by apply sumZ_mask_row.
  pose proof (mismatches_bounds d t tmr (mask_row_binary T c)) as Hmb.
  assert (En' : n = reveal_count (mismatches d t tmr) (glat_f self)).
  { apply nth_error_map2_inv in H2. destruct H2 as [pm [t2 [Hpm [Ht2 ->]]]].
    rewrite Ht in Ht2. injection Ht2 as <-.
    rewrite (nth_error_combine _ _ _ _ _ Hd Htm) in Hpm.
    injection Hpm as <-. reflexivity. }
  assert (Hn : 0 <= n <= mismatches d t tmr).
  { rewrite En'. apply reveal_count_bounds; try assumption. lia. }
  exists n, ps'. split; [exact H2|]. split; [exact H5|].
  split; [exact En'|]. split; [exact Hn|]. split; [lia|].
  destruct (reveal_row_spec (argsort_desc nrow) tmr t ps vals ps' n T)
    as [revealed [R1 [R2 [R3 [R4 [R5 [R6 R7]]]]]]]; try assumption; try lia.
  { rewrite <- Hnl. apply argsort_desc_perm. }
  exists revealed. rewrite <- Hv.
  split; [exact R1|]. split; [exact R2|]. split; [exact R3|]. split.
  { intros p q Hp Hq Hnq.
    pose proof (reveal_order nrow (sumZ tmr)
                  (py_bound n (length (filter (fun k => k <? sumZ tmr)
                                              (argsort_desc nrow))))
                  (Z.of_nat p) (Z.of_nat q)) as Hord.
    rewrite !Nat2Z.id in Hord. apply Hord.
    - apply R7. exact Hp.
    - rewrite Hnl. lia.
    - exact Hq.
    - intros Hin. apply Hnq. apply R7. exact Hin. }
  split; [exact R4|]. split.
  { intros p Hp. apply (R5 p Hp). }
  split; [exact R6|].
  intros Hmask. rewrite <- R2. f_equal.
  eapply changed_positions_count; eassumption.
Qed.

End Glancing.

(** *** Concrete glancing passes *)

Lemma forward_glat_reveal_witness :
  exists pseudo' N w',
    Stub.forward_glat (Stub.config true (1 # 2))
      [[11; 12; 0]; [11; 12; 13]] [[5; 0; 0]; [5; 6; 7]]
      [[103; 103; 103]; [103; 103; 103]] [2; 3] [1; 3] Stub.world
    = (Some (pseudo', N), w') /\
    nth_error N 1 = Some 1 /\
    exists ps', nth_error pseudo' 1 = Some ps' /\
                length (changed_positions [103; 103; 103] ps' 3) = 1%nat.
Proof.
  unfold Stub.forward_glat.
  match goal with
  | |- context [forward_glat ?a ?b ?c ?d ?e ?f ?g ?h ?i] =>
      destruct (forward_glat a b c d e f g h i) as [[[pseudo' N]|] w'] eqn:E
  end; [|vm_compute in E; discriminate E].
  assert (Hf0 : (0 <= glat_f (Stub.config true (1 # 2)))%Q) by (vm_compute; discriminate).
  assert (Hf1 : (glat_f (Stub.config true (1 # 2)) <= 1)%Q) by (vm_compute; discriminate).
  assert (H24 : Z.of_nat (width [[5; 0; 0]; [5; 6; 7]]) < 2 ^ 24) by (simpl; lia).
  destruct (forward_glat_reveal Stub.bert Stub.cls (Stub.config true (1 # 2)) eq_refl
              _ _ _ _ _ _ _ _ _ Hf0 Hf1 H24 E) as [c1 [Hc Hall]].
  assert (Ec : c1 = Stub.glat_pass_call).
  { pose proof E as E2. vm_compute in E2. injection E2 as _ _ <-.
    simpl in Hc. injection Hc as <-. reflexivity. }
  subst c1.
  destruct (Hall 1%nat 3 [5; 6; 7] [103; 103; 103] [1; 1; 1]
              eq_refl eq_refl eq_refl eq_refl)
    as [n [ps' [HN [Hps [En [_ [_ [revealed [_ [_ [_ [_ [_ [_ [_ Hcount]]]]]]]]]]]]]]].
  vm_compute in En. subst n.
  exists pseudo', N, w'. split; [reflexivity|]. split; [exact HN|].
  exists ps'. split; [exact Hps|].
  apply Nat2Z.inj. apply Hcount.
  intros p Hp.
  change (Z.of_nat p < 3) in Hp.
  assert (Hp3 : (p < 3)%nat) by lia.
  destruct p as [|[|[|p]]]; try lia; split; (reflexivity || discriminate).
Defined.

(** The claim with the reveal count as the exact product fails on the
    code.  In the first pass the first example has one valid position
    whose draft differs from the ground truth: half of it is 1/2, the
    count is 0.  In the second pass the only revealed position holds a
    ground-truth token equal to the mask token: the count is 1 and no
    position differs from the all-mask original.  In the third pass the
    fraction is 2: the count is 2 and the example has one valid
    position, the only one that differs. *)
Lemma forward_glat_count_not_exact :
  (let run :=
     Stub.forward_glat (Stub.config true (1 # 2))
       [[11; 12; 0]; [11; 12; 13]] [[5; 0; 0]; [5; 6; 7]]
       [[103; 103; 103]; [103; 103; 103]] [2; 3] [1; 3] Stub.world in
   bert_calls (snd run) = [Stub.glat_pass_call] /\
   nth_error
     (map (map argmax)
          (Stub.cls (map (slice_from 3) (Stub.bert Stub.glat_pass_call))))
     0 = Some [1; 1; 1] /\
   mismatches [1; 1; 1] [5; 0; 0] [1; 0; 0] = 1 /\
   match fst run with
   | Some (pseudo', N) =>
       nth_error N 0 = Some 0 /\
       ~ (inject_Z 0 == (1 # 2) * inject_Z 1)%Q
   | None => False
   end) /\
  (let run :=
     Stub.forward_glat (Stub.config true (1 # 2))
       [[11; 12]] [[5; 103]] [[103; 103]] [2] [2] Stub.world in
   match fst run with
   | Some (pseudo', N) =>
       N = [1] /\
       pseudo' = [[103; 103]] /\
       length (changed_positions [103; 103] [103; 103] 2) <> 1%nat
   | None => False
   end) /\
  (let run :=
     Stub.forward_glat (Stub.config true 2)
       [[11; 12]] [[5; 6]] [[103; 103]] [2] [1] Stub.world in
   match fst run with
   | Some (pseudo', N) =>
       N = [2] /\
       pseudo' = [[5; 103]] /\
       length (changed_positions [103; 103] [5; 103] 1) <> 2%nat
   | None => False
   end).
Proof.
  split; [|split].
  - vm_compute. repeat split; try reflexivity. intros H; discriminate H.
  - vm_compute. repeat split; try reflexivity. intros H; discriminate H.
  - vm_compute. repeat split; try reflexivity. intros H; discriminate H.
Qed.

(** The reveal count is computed in single precision.  The double
    nearest to 0.53 is just below 0.53 and its single-precision
    neighbour just below that: 100 mismatches give 52, where the exact
    product rounded down is 53.  A fraction just below 1 is 1 in single
    precision: 100 mismatches give 100, above the exact product. *)
Example reveal_count_single_precision :
  reveal_count 100 (2386907802506363 # 4503599627370496) = 52 /\
  Qfloor (inject_Z 100 * (2386907802506363 # 4503599627370496)) = 53 /\
  reveal_count 100 (1073741823 # 1073741824) = 100 /\
  Qfloor (inject_Z 100 * (1073741823 # 1073741824)) = 99.
Proof. vm_compute. repeat split; reflexivity. Qed.

(** ** Decoding returns a result *)

Lemma returns_ret {A : Type} (x : A) (P : A -> Prop) : P x -> returns (ret x) P.
Proof. intros H w. now exists x, w. Qed.

Lemma returns_bind {A B : Type} (m : M A) (k : A -> M B) (P : A -> Prop) (Q : B -> Prop) :
  returns m P -> (forall x, P x -> returns (k x) Q) -> returns (bind m k) Q.
Proof.
  intros Hm Hk w. destruct (Hm w) as [x [w1 [E Hx]]].
  destruct (Hk x Hx w1) as [y [w2 [E2 Hy]]].
  exists y, w2. unfold bind. rewrite E. now split.
Qed.

Lemma returns_assert (b : bool) : b = true -> returns (assert b) (fun _ => True).
Proof. intros ->. now apply returns_ret. Qed.

Lemma returns_lift_opt {A : Type} (o : option A) (x : A) (P : A -> Prop) :
  o = Some x -> P x -> returns (lift_opt o) P.
Proof. intros -> H. now apply returns_ret. Qed.

Lemma returns_cat1 {A : Type} (x y : list (list A)) :
  length x = length y -> returns (cat1 x y) (fun z => z = map2 (@app A) x y).
Proof.
  intros H. unfold cat1. eapply returns_bind.
  - apply returns_assert. now apply Nat.eqb_eq.
  - intros _ _. now apply returns_ret.
Qed.

Lemma returns_call_bert bert c :
  returns (call_bert bert c) (fun h => h = bert c).
Proof. intros w. eexists _, _. split; reflexivity. Qed.

Lemma returns_feed_bert bert a s t d e :
  length s = length t ->
  returns (feed_bert bert a s t d e)
          (fun h => exists att, h = bert {| call_input_ids := a;
                                            call_attention_mask := att;
                                            call_token_type_ids := d;
                                            call_position_ids := e |}).
Proof.
  intros H. unfold feed_bert. apply returns_bind with (P := fun _ => True).
  - eapply returns_lift_opt.
    + unfold create_attention_mask. rewrite H, Nat.eqb_refl. reflexivity.
    + exact I.
  - intros att _ w. eexists _, _. split; [reflexivity|]. now exists att.
Qed.

Lemma same_dims_intro {A B : Type} (x : list (list A)) (y : list (list B)) :
  length x = length y ->
  (forall b r s, nth_error x b = Some r -> nth_error y b = Some s -> length r = length s) ->
  same_dims x y = true.
Proof.
  intros Hl Hr. unfold same_dims. rewrite Hl, Nat.eqb_refl. simpl.
  clear Hl. revert y Hr. induction x as [|r x IH]; intros [|s y] Hr; simpl; try reflexivity.
  rewrite (Hr 0%nat r s eq_refl eq_refl), Nat.eqb_refl. simpl.
  apply IH. intros b r' s' H1 H2. exact (Hr (S b) r' s' H1 H2).
Qed.

Lemma fold_max_bounds (lo hi : Z) (l : list Z) :
  l <> [] -> Forall (fun x => lo <= x <= hi) l ->
  lo <= fold_right Z.max (hd 0 l) (tl l) <= hi.
Proof.
  destruct l as [|x l]; [congruence|]. intros _ H. simpl.
  inversion H as [|? ? Hx Hl]; subst. clear H.
  induction Hl as [|y l Hy _ IH]; simpl; lia.
Qed.

Lemma length_slice_to {A : Type} (n : Z) (l : list A) :
  0 <= n <= Z.of_nat (length l) -> Z.of_nat (length (slice_to n l)) = n.
Proof.
  intros H. unfold slice_to, py_bound.
  destruct (Z.ltb_spec n 0); [lia|]. rewrite length_firstn. lia.
Qed.

Lemma length_slice_from {A : Type} (n : Z) (l : list A) :
  0 <= n <= Z.of_nat (length l) ->
  Z.of_nat (length (slice_from n l)) = Z.of_nat (length l) - n.
Proof.
  intros H. unfold slice_from, py_bound.
  destruct (Z.ltb_spec n 0); [lia|]. rewrite length_skipn. lia.
Qed.

Section DecodeReturns.

Variable bert : BertCall -> list (list (list Q)).
Variable cls : list (list (list Q)) -> list (list (list Q)).
Variable log_softmax : list Q -> list Q.
Variable embed_length_weight : list (list Q).
Variable encoder_embed_dim : nat.
Variable self : NAT.

(** The encoder returns one hidden state per input token, the head one
    row of scores per hidden state. *)
Hypothesis bert_dims : forall c, same_dims (bert c) (call_input_ids c) = true.
Hypothesis cls_dims : forall h, same_dims (cls h) h = true.

Local Abbreviation forward_decode' :=
  (forward_decode bert cls log_softmax embed_length_weight encoder_embed_dim self).

(** X26 — with an encoder and a head that keep the batch and sequence
    dimensions, the decoding of a non-empty batch of sources of one
    length raises nothing: it returns tokens and lengths for every
    example. *)
Theorem forward_decode_returns input_ids tti pos im :
  input_ids <> [] ->
  (forall row, In row input_ids -> length row = width input_ids) ->
  length pos = length input_ids ->
  returns (forward_decode' input_ids tti pos im None)
          (fun r => length (fst r) = length input_ids /\
                    length (snd r) = length input_ids).
Proof.
  intros Hne Hrect Hpos. unfold forward_decode.
  set (B := length input_ids) in *.
  set (S := width input_ids) in *.
  apply returns_bind
    with (P := fun lens => length lens = B /\ Forall (fun x => 7 <= x <= 48) lens).
  { eapply returns_bind; [apply returns_call_bert|].
    intros h ->. apply returns_ret. split.
    - rewrite !length_map. unfold forward_length. rewrite length_map2, length_map.
      destruct (same_dims_spec _ _ (bert_dims (length_pass_call self input_ids
                  (map (firstn S) tti) (map (firstn S) pos)))) as [Hl _].
      rewrite Hl. simpl. apply Nat.min_id.
    - apply Forall_forall. intros x Hx.
      apply in_map_iff in Hx. destruct Hx as [y [<- Hy]].
      apply in_map_iff in Hy. destruct Hy as [z [<- _]].
      destruct (Z.gtb_spec z 48);
        [destruct (Z.ltb_spec 48 7) | destruct (Z.ltb_spec z 7)]; lia. }
  intros lens [Hlens Hrange].
  assert (Hlne : lens <> []).
  { intros ->. simpl in Hlens. destruct input_ids; [congruence | discriminate]. }
  apply returns_bind with (P := fun t => t = fold_right Z.max (hd 0 lens) (tl lens)).
  { destruct lens as [|x l]; [congruence|]. now apply returns_ret. }
  intros target_len ->.
  pose proof (fold_max_bounds 7 48 lens Hlne Hrange) as Ht.
  set (target_len := fold_right Z.max (hd 0 lens) (tl lens)) in *.
  cbv zeta.
  set (truncate := target_len + Z.of_nat S >? 512).
  set (sl := if truncate then 512 - target_len else Z.of_nat S).
  assert (Hsl : forall (A : Type) (row : list A),
             length row = S ->
             Z.of_nat (length (if truncate then slice_to sl row else row)) = sl).
  { intros A row Hr. unfold sl, truncate.
    destruct (Z.gtb_spec (target_len + Z.of_nat S) 512).
    - apply length_slice_to. lia.
    - lia. }
  eapply returns_bind; [apply returns_assert, Z.leb_le; lia|]. intros _ _.
  eapply returns_bind.
  { apply returns_assert, Nat.eqb_eq. destruct truncate; rewrite !length_map; lia. }
  intros _ _.
  eapply returns_bind.
  { apply returns_cat1. destruct truncate; rewrite !length_map; lia. }
  intros ids ->.
  eapply returns_bind.
  { apply returns_cat1. rewrite length_map2.
    destruct truncate; rewrite !length_map; lia. }
  intros pids ->.
  eapply returns_bind.
  { apply returns_cat1. unfold full_like.
    destruct truncate; rewrite !length_map; lia. }
  intros tids ->.
  eapply returns_bind.
  { apply returns_feed_bert. destruct truncate; rewrite !length_map; lia. }
  intros h [att ->].
  match goal with
  | |- context [bert ?c] => set (c2 := c)
  end.
  assert (Hdims : same_dims
            (map (map argmax) (cls (map (slice_from sl) (bert c2))))
            (map (fun len => map (fun p => p <? len) (arange (Z.to_nat target_len))) lens)
          = true).
  { destruct (same_dims_spec _ _ (cls_dims (map (slice_from sl) (bert c2)))) as [Hc1 Hc2].
    destruct (same_dims_spec _ _ (bert_dims c2)) as [Hb1 Hb2].
    assert (Hids : length (call_input_ids c2) = B).
    { unfold c2. cbn [call_input_ids]. rewrite length_map2.
      destruct truncate; rewrite !length_map; lia. }
    apply same_dims_intro.
    - rewrite !length_map, Hc1, length_map, Hb1. lia.
    - intros b r s Hr Hs.
      rewrite nth_error_map in Hr.
      destruct (nth_error (cls (map (slice_from sl) (bert c2))) b) as [cr|] eqn:Ecr;
        [|discriminate].
      simpl in Hr. injection Hr as <-.
      rewrite nth_error_map in Hs.
      destruct (nth_error lens b) as [len|] eqn:El; [|discriminate].
      simpl in Hs. injection Hs as <-.
      rewrite !length_map, length_arange.
      destruct (nth_error (map (slice_from sl) (bert c2)) b) as [xr|] eqn:Exr.
      2:{ apply nth_error_None in Exr.
          assert (b < length (cls (map (slice_from sl) (bert c2))))%nat
            by (apply nth_error_Some; congruence).
          lia. }
      rewrite (Hc2 b cr xr Ecr Exr).
      rewrite nth_error_map in Exr.
      destruct (nth_error (bert c2) b) as [hr|] eqn:Ehr; [|discriminate].
      simpl in Exr. injection Exr as <-.
      destruct (nth_error (call_input_ids c2) b) as [ir|] eqn:Eir.
      2:{ apply nth_error_None in Eir.
          assert (b < length (bert c2))%nat by (apply nth_error_Some; congruence).
          lia. }
      pose proof (Hb2 b hr ir Ehr Eir) as Hhr.
      unfold c2 in Eir. cbn [call_input_ids] in Eir.
      apply nth_error_map2_inv in Eir. destruct Eir as [sr [pr [Hsr [Hpr ->]]]].
      assert (Hsrl : Z.of_nat (length sr) = sl).
      { destruct truncate eqn:Etr.
        - rewrite nth_error_map in Hsr.
          destruct (nth_error input_ids b) as [row|] eqn:Erow; [|discriminate].
          simpl in Hsr. injection Hsr as <-.
          specialize (Hsl Z row (Hrect row (nth_error_In _ _ Erow))).
          exact Hsl.
        - specialize (Hsl Z sr (Hrect sr (nth_error_In _ _ Hsr))). exact Hsl. }
      assert (Hprl : length pr = Z.to_nat target_len).
      { rewrite !nth_error_map in Hpr.
        destruct (nth_error lens b); [|discriminate]. simpl in Hpr.
        injection Hpr as <-. now rewrite !length_map, length_arange. }
      rewrite length_app in Hhr.
      apply Nat2Z.inj. rewrite length_slice_from by lia. lia. }
  eapply returns_bind; [apply returns_assert, Hdims|]. intros _ _.
  apply returns_ret. cbn [fst snd]. split; [|exact Hlens].
  destruct (same_dims_spec _ _ Hdims) as [Hd1 _].
  rewrite length_map2, Hd1, !length_map. lia.
Qed.

End DecodeReturns.

(** The encoder and the head of the concrete runs keep the dimensions. *)
Lemma same_dims_map_map {A B C : Type} (f : A -> B) (g : A -> C) (x : list (list A)) :
  same_dims (map (map f) x) (map (map g) x) = true.
Proof.
  apply same_dims_intro.
  - now rewrite !length_map.
  - intros b r s Hr Hs. rewrite nth_error_map in Hr, Hs.
    destruct (nth_error x b); [|discriminate]. simpl in *.
    injection Hr as <-. injection Hs as <-. now rewrite !length_map.
Qed.

Lemma stub_bert_dims c : same_dims (Stub.bert c) (call_input_ids c) = true.
Proof.
  unfold Stub.bert.
  rewrite <- (map_id (call_input_ids c)) at 2.
  rewrite <- (map_ext _ _ (@map_id Z)).
  apply same_dims_map_map.
Qed.

Lemma stub_cls_dims h : same_dims (Stub.cls h) h = true.
Proof.
  unfold Stub.cls.
  rewrite <- (map_id h) at 2.
  rewrite <- (map_ext _ _ (@map_id (list Q))).
  apply same_dims_map_map.
Qed.

(** ** Selecting the worst positions *)

Lemma insert_asc_perm x l : Permutation (insert_asc x l) (x :: l).
Proof.
  induction l as [|y l IH]; simpl.
  - apply Permutation_refl.
  - destruct (Qle_bool (fst x) (fst y)).
    + apply Permutation_refl.
    + eapply perm_trans; [apply perm_skip, IH | apply perm_swap].
Qed.

Lemma sort_asc_perm l : Permutation (sort_asc l) l.
Proof.
  induction l as [|x l IH]; simpl.
  - apply perm_nil.
  - eapply perm_trans; [apply insert_asc_perm | apply perm_skip, IH].
Qed.

Lemma insert_asc_sorted x l :
  StronglySorted le_fst l -> StronglySorted le_fst (insert_asc x l).
Proof.
  induction 1 as [|y l Hs IH Hy]; simpl.
  - constructor; constructor.
  - destruct (Qle_bool (fst x) (fst y)) eqn:E.
    + apply Qle_bool_iff in E. constructor.
      * now constructor.
      * constructor; [exact E|].
        eapply Forall_impl; [|exact Hy]. intros z Hz. unfold le_fst in *.
        eapply Qle_trans; eassumption.
    + assert (Hyx : (fst y <= fst x)%Q).
      { apply Qlt_le_weak, Qnot_le_lt. intros H.
        apply Qle_bool_iff in H. congruence. }
      constructor; [exact IH|].
      apply Forall_forall. intros z Hz.
      apply (Permutation_in _ (insert_asc_perm x l)) in Hz.
      destruct Hz as [<-|Hz]; [exact Hyx|].
      rewrite Forall_forall in Hy. now apply Hy.
Qed.

Lemma sort_asc_sorted l : StronglySorted le_fst (sort_asc l).
Proof.
  induction l as [|x l IH]; simpl; [constructor|].
  now apply insert_asc_sorted.
Qed.

Lemma argsort_asc_perm row : Permutation (argsort_asc row) (arange (length row)).
Proof.
  unfold argsort_asc.
  eapply perm_trans; [apply Permutation_map, sort_asc_perm|].
  rewrite map_snd_combine by (now rewrite length_arange).
  apply Permutation_refl.
Qed.

(** The first [k] indices by increasing entry are [k] distinct positions
    of the row, and their entries are at most the entry of every other
    position. *)
Lemma topk_smallest_spec (k : nat) (row : list Q) (mask : list Z) :
  topk_smallest k row = Some mask ->
  (k <= length row)%nat /\
  length mask = k /\
  NoDup mask /\
  (forall i, In i mask -> 0 <= i < Z.of_nat (length row)) /\
  (forall i j, In i mask -> 0 <= j < Z.of_nat (length row) -> ~ In j mask ->
               (nth (Z.to_nat i) row 0 <= nth (Z.to_nat j) row 0)%Q).
Proof.
  unfold topk_smallest. destruct (Nat.leb_spec k (length row)) as [Hk|]; [|discriminate].
  intros H. injection H as <-.
  pose proof (argsort_asc_perm row) as Hp.
  assert (Hlen : length (argsort_asc row) = length row).
  { rewrite (Permutation_length Hp). apply length_arange. }
  split; [exact Hk|]. split; [rewrite length_firstn; lia|]. split; [|split].
  - apply NoDup_firstn.
    eapply Permutation_NoDup; [apply Permutation_sym, Hp | apply NoDup_arange].
  - intros i Hi. apply In_firstn in Hi.
    apply (Permutation_in _ Hp) in Hi. now apply in_arange.
  - intros i j Hi Hj Hnj.
    unfold argsort_asc in *.
    set (sorted := sort_asc (combine row (arange (length row)))) in *.
    rewrite firstn_map in Hi, Hnj.
    apply in_map_iff in Hi. destruct Hi as [[qi zi] [Ezi Hi]]. simpl in Ezi. subst zi.
    assert (Hjs : In (nth (Z.to_nat j) row 0%Q, j) sorted).
    { apply (Permutation_in _ (Permutation_sym (sort_asc_perm _))).
      apply (nth_error_In _ (Z.to_nat j)).
      apply nth_error_combine.
      - apply nth_error_nth_lt. lia.
      - rewrite nth_error_arange by lia. f_equal. lia. }
    rewrite <- (firstn_skipn k sorted) in Hjs.
    apply in_app_or in Hjs. destruct Hjs as [Hjs|Hjs].
    { exfalso. apply Hnj. apply in_map_iff. now exists (nth (Z.to_nat j) row 0%Q, j). }
    pose proof (sort_asc_sorted (combine row (arange (length row)))) as Hs.
    fold sorted in Hs. rewrite <- (firstn_skipn k sorted) in Hs.
    pose proof (StronglySorted_app_le _ _ _ Hs _ _ Hi Hjs) as Hle.
    unfold le_fst in Hle. simpl in Hle.
    assert (Hqi : In (qi, i) (combine row (arange (length row)))).
    { apply (Permutation_in _ (sort_asc_perm _)). now apply In_firstn in Hi. }
    apply in_combine_arange in Hqi. destruct Hqi as [_ <-]. exact Hle.
Qed.

Lemma mapM_opt_Some {A B : Type} (f : A -> option B) (l : list A) (ys : list B) :
  mapM_opt f l = Some ys ->
  length ys = length l /\
  forall n x, nth_error l n = Some x ->
              exists y, nth_error ys n = Some y /\ f x = Some y.
Proof.
  revert ys. induction l as [|a l IH]; intros ys H; simpl in H.
  - injection H as <-. split; [reflexivity|]. intros [|n] x Hx; discriminate.
  - destruct (f a) as [y|] eqn:Ea; [|discriminate].
    destruct (mapM_opt f l) as [ys'|]; [|discriminate].
    injection H as <-. destruct (IH ys' eq_refl) as [Hl Hn].
    split; [simpl; congruence|].
    intros [|n] x Hx; simpl in *.
    + injection Hx as <-. now exists y.
    + now apply Hn.
Qed.

Lemma mapM_opt_None {A B : Type} (f : A -> option B) (l : list A) :
  mapM_opt f l = None <-> exists x, In x l /\ f x = None.
Proof.
  induction l as [|a l IH]; simpl.
  - split; [discriminate | intros [x [[] _]]].
  - destruct (f a) as [y|] eqn:Ea.
    + destruct (mapM_opt f l) as [ys|].
      * split; [discriminate|]. intros [x [[<-|Hx] Hf]]; [congruence|].
        assert (E : Some ys = None) by (apply IH; now exists x).
        discriminate E.
      * split; [|reflexivity]. intros _.
        destruct (proj1 IH eq_refl) as [x [Hx Hf]]. exists x. split; [now right | exact Hf].
    + split; [|reflexivity]. intros _. exists a. split; [now left | exact Ea].
Qed.

Lemma nth_error_combine_seq {A : Type} (l : list A) b x :
  nth_error l b = Some x ->
  nth_error (combine (seq 0 (length l)) l) b = Some (b, x).
Proof.
  intros H. apply nth_error_combine; [|exact H].
  rewrite nth_error_seq.
  assert (b < length l)%nat by (apply nth_error_Some; congruence).
  destruct (Nat.ltb_spec b (length l)); [reflexivity | lia].
Qed.

Lemma in_combine_seq {A : Type} (l : list A) b x :
  In (b, x) (combine (seq 0 (length l)) l) -> nth_error l b = Some x.
Proof.
  intros H. apply In_nth_error in H. destruct H as [n Hn].
  assert (Hlt : (n < length l)%nat).
  { assert (n < length (combine (seq 0 (length l)) l))%nat
      by (apply nth_error_Some; congruence).
    rewrite length_combine, length_seq in H. lia. }
  destruct (nth_error l n) as [y|] eqn:Ey.
  2:{ apply nth_error_None in Ey. lia. }
  rewrite (nth_error_combine_seq l n y Ey) in Hn. injection Hn as <- <-. exact Ey.
Qed.

(** X1 — [select_worst_as_mask] raises exactly on an empty batch, on a
    row without a count in [num_mask], or on a row shorter than the
    count it is asked for, which is at least one: a row without entries
    always raises. *)
Theorem select_worst_as_mask_error :
  forall token_probs num_mask,
    select_worst_as_mask token_probs num_mask = None <->
    token_probs = [] \/
    exists b row,
      nth_error token_probs b = Some row /\
      (nth_error num_mask b = None \/
       exists n, nth_error num_mask b = Some n /\ Z.of_nat (length row) < Z.max 1 n).
Proof.
  intros token_probs num_mask. unfold select_worst_as_mask.
  set (f := fun br : nat * list Q =>
              match nth_error num_mask (fst br) with
              | Some n => topk_smallest (Z.to_nat (Z.max 1 n)) (snd br)
              | None => None
              end).
  destruct (mapM_opt f (combine (seq 0 (length token_probs)) token_probs))
    as [masks|] eqn:E.
  - destruct (mapM_opt_Some _ _ _ E) as [Hl Hn].
    rewrite length_combine, length_seq, Nat.min_id in Hl.
    split.
    + destruct masks as [|m masks]; [|discriminate]. intros _. left.
      destruct token_probs; [reflexivity | discriminate].
    + intros [->|[b [row [Hrow Hbad]]]].
      * simpl in E. injection E as <-. reflexivity.
      * exfalso. destruct (Hn b (b, row) (nth_error_combine_seq _ _ _ Hrow)) as [y [_ Hy]].
        unfold f in Hy. simpl in Hy.
        destruct Hbad as [Hnone|[n [Hsome Hlt]]].
        -- rewrite Hnone in Hy. discriminate.
        -- rewrite Hsome in Hy. unfold topk_smallest in Hy.
           destruct (Nat.leb_spec (Z.to_nat (Z.max 1 n)) (length row)); [lia | discriminate].
  - split; [|reflexivity]. intros _. right.
    apply mapM_opt_None in E. destruct E as [[b row] [Hin Hf]].
    apply in_combine_seq in Hin. exists b, row. split; [exact Hin|].
    unfold f in Hf. simpl in Hf.
    destruct (nth_error num_mask b) as [n|]; [|now left].
    right. exists n. split; [reflexivity|].
    unfold topk_smallest in Hf.
    destruct (Nat.leb_spec (Z.to_nat (Z.max 1 n)) (length row)); [discriminate | lia].
Qed.

(** Helper: the rows of a successful selection. *)
Lemma select_worst_as_mask_rows token_probs num_mask masks :
  select_worst_as_mask token_probs num_mask = Some masks ->
  length masks = length token_probs /\
  forall b row,
    nth_error token_probs b = Some row ->
    exists n worst,
      nth_error num_mask b = Some n /\
      topk_smallest (Z.to_nat (Z.max 1 n)) row = Some worst /\
      nth_error masks b
      = Some (worst ++ repeat (hd 0 worst) (width token_probs - length worst)).
Proof.
  unfold select_worst_as_mask.
  set (f := fun br : nat * list Q =>
              match nth_error num_mask (fst br) with
              | Some n => topk_smallest (Z.to_nat (Z.max 1 n)) (snd br)
              | None => None
              end).
  destruct (mapM_opt f (combine (seq 0 (length token_probs)) token_probs))
    as [ms|] eqn:E; [|discriminate].
  destruct (mapM_opt_Some _ _ _ E) as [Hl Hn].
  rewrite length_combine, length_seq, Nat.min_id in Hl.
  intros H.
  assert (Hm : masks
               = map (fun mask => mask ++ repeat (hd 0 mask)
                                                 (width token_probs - length mask)) ms).
  { destruct (map _ ms); [discriminate | now injection H]. }
  subst masks. split; [now rewrite length_map|].
  intros b row Hrow.
  destruct (Hn b (b, row) (nth_error_combine_seq _ _ _ Hrow)) as [worst [Hw Hf]].
  unfold f in Hf. simpl in Hf.
  destruct (nth_error num_mask b) as [n|]; [|discriminate].
  exists n, worst. split; [reflexivity|]. split; [exact Hf|].
  now rewrite (nth_error_map_some _ _ _ _ Hw).
Qed.

Lemma in_padded_mask (worst : list Z) (n : nat) i :
  worst <> [] ->
  (In i (worst ++ repeat (hd 0 worst) n) <-> In i worst).
Proof.
  intros Hne. split.
  - intros H. apply in_app_or in H. destruct H as [H|H]; [exact H|].
    apply repeat_spec in H. subst i. destruct worst; [congruence | now left].
  - intros H. apply in_or_app. now left.
Qed.

(** X2 — on a batch of rows of one length, [select_worst_as_mask]
    returns one row of indices per example, as wide as the input; every
    index is a position of the row; the first [max(1, num_mask)] entries
    are distinct, and the rest repeat one of them: a count of zero still
    selects one position. *)
Theorem select_worst_as_mask_shape :
  forall token_probs num_mask masks,
    (forall row, In row token_probs -> length row = width token_probs) ->
    select_worst_as_mask token_probs num_mask = Some masks ->
    length masks = length token_probs /\
    forall b mask,
      nth_error masks b = Some mask ->
      exists n,
        nth_error num_mask b = Some n /\
        let k := Z.to_nat (Z.max 1 n) in
        length mask = width token_probs /\
        (forall i, In i mask -> 0 <= i < Z.of_nat (width token_probs)) /\
        length (firstn k mask) = k /\
        NoDup (firstn k mask) /\
        (forall i, In i mask -> In i (firstn k mask)).
Proof.
  intros token_probs num_mask masks Hrect H.
  destruct (select_worst_as_mask_rows _ _ _ H) as [Hlen Hrows].
  split; [exact Hlen|]. intros b mask Hmask.
  destruct (nth_error token_probs b) as [row|] eqn:Erow.
  2:{ apply nth_error_None in Erow.
      assert (b < length masks)%nat by (apply nth_error_Some; congruence). lia. }
  destruct (Hrows b row Erow) as [n [worst [Hn [Htop Hm]]]].
  rewrite Hmask in Hm. injection Hm as ->.
  destruct (topk_smallest_spec _ _ _ Htop) as [Hk [Hlw [Hnd [Hrange _]]]].
  pose proof (Hrect row (nth_error_In _ _ Erow)) as Hrow.
  assert (Hne : worst <> []).
  { intros ->. simpl in Hlw. lia. }
  exists n. split; [exact Hn|]. cbv zeta.
  assert (Hfirst : firstn (Z.to_nat (Z.max 1 n))
                     (worst ++ repeat (hd 0 worst) (width token_probs - length worst))
                   = worst).
  { rewrite <- Hlw at 1. rewrite firstn_app, Nat.sub_diag, firstn_all. simpl.
    apply app_nil_r. }
  rewrite Hfirst. repeat split.
  - rewrite length_app, repeat_length. lia.
  - apply in_padded_mask in H0; [|exact Hne]. apply Hrange in H0. lia.
  - apply in_padded_mask in H0; [|exact Hne]. apply Hrange in H0. lia.
  - exact Hlw.
  - exact Hnd.
  - intros i Hi. now apply in_padded_mask in Hi.
Qed.

(** X3 — the positions that [select_worst_as_mask] selects are the
    worst ones: the probability at a selected position is at most the
    probability at every position that is not selected. *)
Theorem select_worst_as_mask_worst :
  forall token_probs num_mask masks b row mask i j,
    select_worst_as_mask token_probs num_mask = Some masks ->
    nth_error token_probs b = Some row ->
    nth_error masks b = Some mask ->
    In i mask ->
    0 <= j < Z.of_nat (length row) ->
    ~ In j mask ->
    (nth (Z.to_nat i) row 0 <= nth (Z.to_nat j) row 0)%Q.
Proof.
  intros token_probs num_mask masks b row mask i j H Hrow Hmask Hi Hj Hnj.
  destruct (select_worst_as_mask_rows _ _ _ H) as [_ Hrows].
  destruct (Hrows b row Hrow) as [n [worst [_ [Htop Hm]]]].
  rewrite Hmask in Hm. injection Hm as ->.
  destruct (topk_smallest_spec _ _ _ Htop) as [Hk [Hlw [_ [_ Hworst]]]].
  assert (Hne : worst <> []).
  { intros ->. simpl in Hlw. lia. }
  apply Hworst.
  - now apply in_padded_mask in Hi.
  - exact Hj.
  - intros Hin. apply Hnj. now apply in_padded_mask.
Qed.

(** ** Writing one value at indexed positions *)

Lemma length_concat_rect {A : Type} (l : nat) (x : list (list A)) :
  Forall (fun r => length r = l) x -> length (concat x) = (length x * l)%nat.
Proof.
  induction 1 as [|r x Hr _ IH]; simpl; [reflexivity|].
  rewrite length_app, IH, Hr. reflexivity.
Qed.

Lemma nth_error_concat_rect {A : Type} (l : nat) (x : list (list A)) :
  Forall (fun r => length r = l) x ->
  forall r row p,
    nth_error x r = Some row -> (p < l)%nat ->
    nth_error (concat x) (r * l + p) = nth_error row p.
Proof.
  induction 1 as [|r0 x Hr0 _ IH]; intros r row p Hrow Hp.
  - destruct r; discriminate.
  - destruct r as [|r]; simpl in *.
    + injection Hrow as <-. apply nth_error_app1. lia.
    + rewrite nth_error_app2 by lia. rewrite Hr0.
      replace (l + r * l + p - l)%nat with (r * l + p)%nat by lia.
      now apply IH.
Qed.

Lemma get2_chunks {A : Type} (l : nat) :
  forall (b : nat) (flat : list A) r p,
    length flat = (b * l)%nat -> (r < b)%nat -> (p < l)%nat ->
    get2 (chunks b l flat) r p = nth_error flat (r * l + p).
Proof.
  induction b as [|b IH]; intros flat r p Hl Hr Hp; [lia|].
  unfold get2. destruct r as [|r]; simpl.
  - now apply nth_error_firstn_lt.
  - fold (get2 (chunks b l (skipn l flat)) r p).
    rewrite IH; [|rewrite length_skipn; simpl in Hl; lia | lia | lia].
    rewrite nth_error_skipn. f_equal. lia.
Qed.

Lemma length_chunks {A : Type} (b l : nat) (flat : list A) :
  length (chunks b l flat) = b.
Proof. revert flat. induction b as [|b IH]; intros flat; simpl; auto. Qed.

(** The index rows plus the row offsets, for the three shapes that
    [torch] accepts. *)
Lemma add_offsets_same (i : list (list Z)) (offsets : list Z) :
  length i = length offsets ->
  add_offsets i offsets
  = Some (map2 (fun row o => map (fun v => v + o) row) i offsets).
Proof. intros H. unfold add_offsets. now rewrite H, Nat.eqb_refl. Qed.

Lemma add_offsets_one_index_row (i : list (list Z)) (offsets : list Z) :
  length i = 1%nat ->
  add_offsets i offsets
  = Some (map (fun o => map (fun v => v + o) (hd [] i)) offsets).
Proof.
  intros H. unfold add_offsets. rewrite H.
  destruct i as [|row [|? ?]]; try discriminate.
  destruct offsets as [|o [|? ?]]; reflexivity.
Qed.

Lemma add_offsets_one_offset (i : list (list Z)) (o : Z) :
  add_offsets i [o] = Some (map (map (fun v => v + o)) i).
Proof.
  unfold add_offsets. destruct i as [|row [|row' i]]; reflexivity.
Qed.

(** The flat indices that [assign_single_value_long] writes. *)
Lemma in_flat_index (i : list (list Z)) (l b : nat) (f : Z) :
  In f (concat (map2 (fun row o => map (fun v => v + o) row) i
                     (map (fun r => Z.of_nat (r * l)) (seq 0 b)))) ->
  exists r row v, nth_error i r = Some row /\ In v row /\ f = v + Z.of_nat (r * l).
Proof.
  intros H. apply in_concat in H. destruct H as [l0 [Hl0 Hf]].
  apply In_nth_error in Hl0. destruct Hl0 as [r Hr].
  apply nth_error_map2_inv in Hr. destruct Hr as [row [o [Hrow [Ho ->]]]].
  apply in_map_iff in Hf. destruct Hf as [v [<- Hv]].
  rewrite nth_error_map in Ho.
  destruct (nth_error (seq 0 b) r) as [k|] eqn:Ek; [|discriminate].
  simpl in Ho. injection Ho as <-.
  assert (r < b)%nat.
  { assert (r < length (seq 0 b))%nat by (apply nth_error_Some; congruence).
    now rewrite length_seq in H. }
  rewrite nth_error_seq in Ek. destruct (Nat.ltb_spec r b); [|lia].
  injection Ek as <-. now exists r, row, v.
Qed.

Lemma flat_index_in (i : list (list Z)) (l b : nat) r row v :
  length i = b -> nth_error i r = Some row -> In v row ->
  In (v + Z.of_nat (r * l))
     (concat (map2 (fun row o => map (fun v => v + o) row) i
                   (map (fun r => Z.of_nat (r * l)) (seq 0 b)))).
Proof.
  intros Hb Hrow Hv. apply in_concat.
  exists (map (fun v0 => v0 + Z.of_nat (r * l)) row). split.
  - apply (nth_error_In _ r).
    apply (nth_error_map2 (fun (row0 : list Z) (o : Z) => map (fun v0 => v0 + o) row0)
             i _ r row (Z.of_nat (r * l)) Hrow).
    assert (r < b)%nat by (rewrite <- Hb; apply nth_error_Some; congruence).
    rewrite nth_error_map, nth_error_seq.
    destruct (Nat.ltb_spec r b); [reflexivity | lia].
  - apply in_map_iff. now exists v.
Qed.

(** The call on a tensor of [b] rows of [l > 0] entries, with one index
    row per row and every flat index inside the tensor: the entries at
    the flat positions [v + r * l] hold [y], the others are kept. *)
Lemma assign_single_value_long_flat (x i : list (list Z)) (y : Z) (l : nat) :
  x <> [] -> (0 < l)%nat ->
  Forall (fun r => length r = l) x ->
  length i = length x ->
  (forall r row v, nth_error i r = Some row -> In v row ->
                   0 <= v + Z.of_nat (r * l) < Z.of_nat (length x * l)) ->
  exists x',
    assign_single_value_long x i y = Some x' /\
    length x' = length x /\
    forall r p, (r < length x)%nat -> (p < l)%nat ->
      ((exists r' row v, nth_error i r' = Some row /\ In v row /\
                         v + Z.of_nat (r' * l) = Z.of_nat (r * l + p)) ->
       get2 x' r p = Some y) /\
      (~ (exists r' row v, nth_error i r' = Some row /\ In v row /\
                           v + Z.of_nat (r' * l) = Z.of_nat (r * l + p)) ->
       get2 x' r p = get2 x r p).
Proof.
  intros Hne Hl Hrect Hi Hrange.
  assert (Hw : width x = l).
  { destruct x as [|r0 x]; [congruence|]. simpl. now inversion Hrect. }
  unfold assign_single_value_long. rewrite Hw.
  destruct (Nat.eqb_spec l 0); [lia|].
  rewrite add_offsets_same by (now rewrite length_map, length_seq). cbv zeta.
  set (idx := concat (map2 (fun row o => map (fun v => v + o) row) i
                           (map (fun r => Z.of_nat (r * l)) (seq 0 (length x))))).
  assert (Hflat : length (concat x) = (length x * l)%nat)
    by now apply length_concat_rect.
  destruct (assign_in_range (fun _ => y) idx (concat x)) as [flat [Ha [Hfl [Hin Hout]]]].
  { apply Forall_forall. intros f Hf. apply in_flat_index in Hf.
    destruct Hf as [r [row [v [Hrow [Hv ->]]]]]. rewrite Hflat. eauto. }
  rewrite Ha. eexists. split; [reflexivity|]. split; [apply length_chunks|].
  intros r p Hr Hp.
  rewrite get2_chunks by (try assumption; congruence).
  split.
  - intros [r' [row [v [Hrow [Hv E]]]]].
    apply Hin. rewrite <- E.
    exact (flat_index_in i l (length x) r' row v Hi Hrow Hv).
  - intros Hno. rewrite Hout.
    + unfold get2. destruct (nth_error x r) as [xr|] eqn:Ex.
      * now apply (nth_error_concat_rect l x Hrect).
      * apply nth_error_None in Ex. lia.
    + intros Hf. apply Hno. apply in_flat_index in Hf.
      destruct Hf as [r' [row [v [Hrow [Hv E]]]]]. now exists r', row, v.
Qed.

(** With every index inside its row, the flat positions written in row
    [r] are the indices of row [r] of [i]. *)
Lemma flat_written_in_range (i : list (list Z)) (l r p : nat) :
  (p < l)%nat ->
  (forall r' row v, nth_error i r' = Some row -> In v row -> 0 <= v < Z.of_nat l) ->
  ((exists r' row v, nth_error i r' = Some row /\ In v row /\
                     v + Z.of_nat (r' * l) = Z.of_nat (r * l + p))
   <-> exists row, nth_error i r = Some row /\ In (Z.of_nat p) row).
Proof.
  intros Hp Hrange. split.
  - intros [r' [row [v [Hrow [Hv E]]]]].
    pose proof (Hrange r' row v Hrow Hv) as Hvl.
    assert (r' = r) by nia. subst r'.
    assert (v = Z.of_nat p) by lia. subst v.
    now exists row.
  - intros [row [Hrow Hin]]. exists r, row, (Z.of_nat p).
    split; [exact Hrow|]. split; [exact Hin | lia].
Qed.

(** X4 — with every index inside its row, [assign_single_value_long]
    writes [y] at the indexed positions of each row and keeps every
    other entry. *)
Theorem assign_single_value_long_rows :
  forall (x i : list (list Z)) (y : Z) (l : nat),
    x <> [] -> (0 < l)%nat ->
    Forall (fun r => length r = l) x ->
    length i = length x ->
    (forall r row v, nth_error i r = Some row -> In v row -> 0 <= v < Z.of_nat l) ->
    exists x',
      assign_single_value_long x i y = Some x' /\
      length x' = length x /\
      forall r row p,
        nth_error i r = Some row -> (p < l)%nat ->
        (In (Z.of_nat p) row -> get2 x' r p = Some y) /\
        (~ In (Z.of_nat p) row -> get2 x' r p = get2 x r p).
Proof.
  intros x i y l Hne Hl Hrect Hi Hrange.
  destruct (assign_single_value_long_flat x i y l Hne Hl Hrect Hi) as [x' [Ha [Hlen Hx']]].
  { intros r row v Hrow Hv. pose proof (Hrange r row v Hrow Hv).
    assert (r < length x)%nat by (rewrite <- Hi; apply nth_error_Some; congruence).
    nia. }
  exists x'. split; [exact Ha|]. split; [exact Hlen|].
  intros r row p Hrow Hp.
  assert (Hr : (r < length x)%nat) by (rewrite <- Hi; apply nth_error_Some; congruence).
  destruct (Hx' r p Hr Hp) as [Hin Hout].
  pose proof (flat_written_in_range i l r p Hp Hrange) as Hiff.
  split.
  - intros H. apply Hin, Hiff. now exists row.
  - intros H. apply Hout. intros Hex. apply Hiff in Hex.
    destruct Hex as [row' [Hrow' Hin']]. rewrite Hrow in Hrow'.
    injection Hrow' as <-. contradiction.
Qed.

(** X6 — [assign_single_value_long] does not reject an index outside
    its row: the index [v] of row [r] is written at the flat position
    [v + r * l], that is in row [(v + r * l) / l] at column
    [(v + r * l) mod l], which is another row when [v] is not below
    [l]. *)
Theorem assign_single_value_long_lands :
  forall (x i : list (list Z)) (y : Z) (l : nat),
    x <> [] -> (0 < l)%nat ->
    Forall (fun r => length r = l) x ->
    length i = length x ->
    (forall r row v, nth_error i r = Some row -> In v row ->
                     0 <= v + Z.of_nat (r * l) < Z.of_nat (length x * l)) ->
    exists x',
      assign_single_value_long x i y = Some x' /\
      forall r row v,
        nth_error i r = Some row -> In v row ->
        let flat := v + Z.of_nat (r * l) in
        get2 x' (Z.to_nat (flat / Z.of_nat l)) (Z.to_nat (flat mod Z.of_nat l)) = Some y.
Proof.
  intros x i y l Hne Hl Hrect Hi Hrange.
  destruct (assign_single_value_long_flat x i y l Hne Hl Hrect Hi Hrange)
    as [x' [Ha [Hlen Hx']]].
  exists x'. split; [exact Ha|].
  intros r row v Hrow Hv flat.
  pose proof (Hrange r row v Hrow Hv) as Hf. fold flat in Hf.
  assert (Hl' : 0 < Z.of_nat l) by lia.
  pose proof (Z.div_mod flat (Z.of_nat l) ltac:(lia)) as Hdm.
  pose proof (Z.mod_pos_bound flat (Z.of_nat l) Hl') as Hmod.
  assert (Hdiv0 : 0 <= flat / Z.of_nat l) by (apply Z.div_pos; lia).
  assert (Hdiv : flat / Z.of_nat l < Z.of_nat (length x)).
  { apply Z.div_lt_upper_bound; [lia|]. rewrite Nat2Z.inj_mul in Hf. lia. }
  apply (Hx' (Z.to_nat (flat / Z.of_nat l)) (Z.to_nat (flat mod Z.of_nat l))); try lia.
  exists r, row, v. split; [exact Hrow|]. split; [exact Hv|].
  fold flat. rewrite Nat2Z.inj_add, Nat2Z.inj_mul, !Z2Nat.id by lia. lia.
Qed.

Lemma py_index_None i len :
  py_index i len = None <-> ~ (- Z.of_nat len <= i < Z.of_nat len).
Proof.
  unfold py_index.
  destruct (Z.leb_spec 0 i); destruct (Z.ltb_spec i (Z.of_nat len)); simpl;
    try (split; [discriminate | lia]).
  - destruct (Z.leb_spec (- Z.of_nat len) i); destruct (Z.ltb_spec i 0); simpl;
      split; try discriminate; try lia; reflexivity.
  - destruct (Z.leb_spec (- Z.of_nat len) i); destruct (Z.ltb_spec i 0); simpl;
      split; try discriminate; try lia; reflexivity.
  - destruct (Z.leb_spec (- Z.of_nat len) i); destruct (Z.ltb_spec i 0); simpl;
      split; try discriminate; try lia; reflexivity.
Qed.

Lemma assign_None (idx : list Z) :
  forall x vals,
    length vals = length idx ->
    (assign x idx vals = None <-> exists i, In i idx /\ py_index i (length x) = None).
Proof.
  induction idx as [|i idx IH]; intros x vals Hl.
  - destruct vals; [|discriminate]. simpl. split; [discriminate | intros [i [[] _]]].
  - destruct vals as [|v vals]; [discriminate|]. simpl.
    destruct (py_index i (length x)) as [k|] eqn:Ek.
    + rewrite IH by (simpl in Hl; lia). rewrite length_set_nth. split.
      * intros [j [Hj Hn]]. exists j. split; [now right | exact Hn].
      * intros [j [[<-|Hj] Hn]]; [congruence|]. now exists j.
    + split; [|reflexivity]. intros _. exists i. split; [now left | exact Ek].
Qed.

(** With rows of entries, [assign_single_value_long] raises exactly when
    the index rows cannot be matched with the row offsets or some flat
    index falls outside the flattened tensor. *)
Lemma assign_single_value_long_None (x i : list (list Z)) (y : Z) :
  (0 < width x)%nat ->
  Forall (fun r => length r = width x) x ->
  assign_single_value_long x i y = None <->
  match add_offsets i (map (fun r => Z.of_nat (r * width x)) (seq 0 (length x))) with
  | Some rows =>
      exists f, In f (concat rows) /\
                ~ (- Z.of_nat (length x * width x) <= f < Z.of_nat (length x * width x))
  | None => True
  end.
Proof.
  intros Hw Hrect. unfold assign_single_value_long.
  destruct (Nat.eqb_spec (width x) 0); [lia|].
  destruct (add_offsets i _) as [rows|]; [|tauto]. cbv zeta.
  pose proof (assign_None (concat rows) (concat x) (map (fun _ => y) (concat rows))
                (length_map _ _)) as Hnone.
  rewrite (length_concat_rect _ _ Hrect) in Hnone.
  destruct (assign (concat x) (concat rows) (map (fun _ => y) (concat rows))) as [flat|].
  - split; [discriminate|]. intros [f [Hf Hout]].
    assert (E : Some flat = None); [|discriminate E].
    apply Hnone. exists f. split; [exact Hf | now apply py_index_None].
  - split; [|reflexivity]. intros _.
    destruct (proj1 Hnone eq_refl) as [f [Hf Hpy]].
    exists f. split; [exact Hf | now apply py_index_None].
Qed.

(** X7 — [assign_single_value_long] raises on rows without entries, and
    on an index tensor whose rows are neither one per row of the tensor
    nor a single row, unless the tensor has a single row; with one index
    row per row of the tensor it raises exactly when some flat index
    [v + r * l] falls outside the flattened tensor (below minus its size
    or not below its size); a single index row is applied to every row
    of the tensor, and any number of index rows to a tensor of one row,
    with the same condition on the flat indices. *)
Theorem assign_single_value_long_error :
  forall (x i : list (list Z)) (y : Z),
    (width x = 0%nat -> assign_single_value_long x i y = None) /\
    (length i <> length x -> length i <> 1%nat -> length x <> 1%nat ->
     assign_single_value_long x i y = None) /\
    ((0 < width x)%nat -> Forall (fun r => length r = width x) x ->
     (length i = length x ->
      (assign_single_value_long x i y = None <->
       exists r row v,
         nth_error i r = Some row /\ In v row /\
         ~ (- Z.of_nat (length x * width x) <= v + Z.of_nat (r * width x)
            < Z.of_nat (length x * width x)))) /\
     (length i = 1%nat ->
      (assign_single_value_long x i y = None <->
       exists r v,
         (r < length x)%nat /\ In v (hd [] i) /\
         ~ (- Z.of_nat (length x * width x) <= v + Z.of_nat (r * width x)
            < Z.of_nat (length x * width x)))) /\
     (length x = 1%nat ->
      (assign_single_value_long x i y = None <->
       exists row v,
         In row i /\ In v row /\
         ~ (- Z.of_nat (width x) <= v < Z.of_nat (width x))))).
Proof.
  intros x i y. split; [|split].
  - intros Hw. unfold assign_single_value_long. now rewrite Hw.
  - intros H1 H2 H3. unfold assign_single_value_long, add_offsets.
    destruct (width x =? 0)%nat; [reflexivity|].
    rewrite length_map, length_seq.
    destruct (Nat.eqb_spec (length i) (length x)); [contradiction|].
    destruct (Nat.eqb_spec (length i) 1); [contradiction|].
    destruct (Nat.eqb_spec (length x) 1); [contradiction | reflexivity].
  - intros Hw Hrect.
    pose proof (assign_single_value_long_None x i y Hw Hrect) as Hnone.
    split; [|split].
    + intros Hi.
      rewrite add_offsets_same in Hnone by (now rewrite length_map, length_seq).
      rewrite Hnone. split.
      * intros [f [Hf Hout]]. apply in_flat_index in Hf.
        destruct Hf as [r [row [v [Hrow [Hv ->]]]]]. now exists r, row, v.
      * intros [r [row [v [Hrow [Hv Hout]]]]].
        exists (v + Z.of_nat (r * width x)). split; [|exact Hout].
        exact (flat_index_in i (width x) (length x) r row v Hi Hrow Hv).
    + intros Hi.
      rewrite (add_offsets_one_index_row _ _ Hi) in Hnone.
      rewrite Hnone. split.
      * intros [f [Hf Hout]]. apply in_concat in Hf. destruct Hf as [l0 [Hl0 Hf]].
        apply in_map_iff in Hl0. destruct Hl0 as [o [<- Ho]].
        apply in_map_iff in Ho. destruct Ho as [r [<- Hr]].
        apply in_seq in Hr.
        apply in_map_iff in Hf. destruct Hf as [v [<- Hv]].
        exists r, v. split; [lia|]. split; [exact Hv | exact Hout].
      * intros [r [v [Hr [Hv Hout]]]].
        exists (v + Z.of_nat (r * width x)). split; [|exact Hout].
        apply in_concat. exists (map (fun v0 => v0 + Z.of_nat (r * width x)) (hd [] i)).
        split.
        -- apply in_map_iff. exists (Z.of_nat (r * width x)). split; [reflexivity|].
           apply in_map_iff. exists r. split; [reflexivity|]. apply in_seq. lia.
        -- apply in_map_iff. now exists v.
    + intros Hx. rewrite Hx in Hnone. cbn [seq map] in Hnone.
      rewrite add_offsets_one_offset in Hnone.
      rewrite Nat.mul_1_l in Hnone. rewrite Hnone. split.
      * intros [f [Hf Hout]]. apply in_concat in Hf. destruct Hf as [l0 [Hl0 Hf]].
        apply in_map_iff in Hl0. destruct Hl0 as [row [<- Hrow]].
        apply in_map_iff in Hf. destruct Hf as [v [<- Hv]].
        exists row, v. split; [exact Hrow|]. split; [exact Hv|].
        intros Hr. apply Hout. simpl. lia.
      * intros [row [v [Hrow [Hv Hout]]]].
        exists (v + Z.of_nat (0 * width x)). split.
        -- apply in_concat.
           exists (map (fun v0 => v0 + Z.of_nat (0 * width x)) row). split.
           ++ apply in_map_iff. now exists row.
           ++ apply in_map_iff. now exists v.
        -- intros Hr. apply Hout. simpl in Hr. lia.
Qed.

(** X5 — masking the worst positions: [assign_single_value_long] on
    the indices of [select_worst_as_mask] never raises, writes [y] at
    the selected positions of each row, [max(1, num_mask)] of them, and
    keeps every other entry. *)
Theorem mask_worst_positions :
  forall (token_probs : list (list Q)) (num_mask : list Z) (x : list (list Z)) (y : Z)
         (masks : list (list Z)),
    (forall row, In row token_probs -> length row = width token_probs) ->
    Forall (fun r => length r = width token_probs) x ->
    length x = length token_probs ->
    select_worst_as_mask token_probs num_mask = Some masks ->
    exists x',
      assign_single_value_long x masks y = Some x' /\
      length x' = length x /\
      forall r mask n,
        nth_error masks r = Some mask ->
        nth_error num_mask r = Some n ->
        (forall p, (p < width token_probs)%nat ->
                   (In (Z.of_nat p) mask -> get2 x' r p = Some y) /\
                   (~ In (Z.of_nat p) mask -> get2 x' r p = get2 x r p)) /\
        length (filter (fun p => existsb (Z.eqb p) mask) (arange (width token_probs)))
        = Z.to_nat (Z.max 1 n).
Proof.
  intros token_probs num_mask x y masks Hrect Hx Hlen Hsel.
  set (L := width token_probs) in *.
  destruct (select_worst_as_mask_rows _ _ _ Hsel) as [Hml Hrows].
  assert (Hne : token_probs <> []).
  { intros ->. discriminate Hsel. }
  assert (Hrow_of : forall r mask, nth_error masks r = Some mask ->
            exists row n worst,
              nth_error token_probs r = Some row /\ nth_error num_mask r = Some n /\
              topk_smallest (Z.to_nat (Z.max 1 n)) row = Some worst /\
              mask = worst ++ repeat (hd 0 worst) (L - length worst)).
  { intros r mask Hmask.
    destruct (nth_error token_probs r) as [row|] eqn:Erow.
    2:{ apply nth_error_None in Erow.
        assert (r < length masks)%nat by (apply nth_error_Some; congruence). lia. }
    destruct (Hrows r row Erow) as [n [worst [Hn [Htop Hm]]]].
    rewrite Hmask in Hm. injection Hm as ->. now exists row, n, worst. }
  assert (Hrange : forall r mask v, nth_error masks r = Some mask -> In v mask ->
                                    0 <= v < Z.of_nat L).
  { intros r mask v Hmask Hv.
    destruct (Hrow_of r mask Hmask) as [row [n [worst [Hrow [_ [Htop ->]]]]]].
    destruct (topk_smallest_spec _ _ _ Htop) as [_ [Hlw [_ [Hr _]]]].
    assert (worst <> []) by (intros ->; simpl in Hlw; lia).
    apply in_padded_mask in Hv; [|assumption].
    rewrite <- (Hrect row (nth_error_In _ _ Hrow)). now apply Hr. }
  assert (HL : (0 < L)%nat).
  { destruct token_probs as [|row0 tp]; [congruence|].
    destruct (Hrows 0%nat row0 eq_refl) as [n [worst [_ [Htop _]]]].
    destruct (topk_smallest_spec _ _ _ Htop) as [Hk _].
    unfold L. simpl. lia. }
  assert (Hxne : x <> []).
  { intros ->. simpl in Hlen. destruct token_probs; [congruence | discriminate]. }
  destruct (assign_single_value_long_flat x masks y L Hxne HL Hx) as [x' [Ha [Hxl Hx']]].
  { congruence. }
  { intros r row v Hrow Hv. pose proof (Hrange r row v Hrow Hv).
    assert (r < length x)%nat by (rewrite Hlen, <- Hml; apply nth_error_Some; congruence).
    nia. }
  exists x'. split; [exact Ha|]. split; [exact Hxl|].
  intros r mask n Hmask Hn. split.
  - intros p Hp.
    assert (Hr : (r < length x)%nat)
      by (rewrite Hlen, <- Hml; apply nth_error_Some; congruence).
    destruct (Hx' r p Hr Hp) as [Hin Hout].
    pose proof (flat_written_in_range masks L r p Hp Hrange) as Hiff.
    split.
    + intros H. apply Hin, Hiff. now exists mask.
    + intros H. apply Hout. intros Hex. apply Hiff in Hex.
      destruct Hex as [mask' [Hmask' Hin']]. rewrite Hmask in Hmask'.
      injection Hmask' as <-. contradiction.
  - destruct (Hrow_of r mask Hmask) as [row [n' [worst [Hrow [Hn' [Htop ->]]]]]].
    rewrite Hn in Hn'. injection Hn' as <-.
    destruct (topk_smallest_spec _ _ _ Htop) as [_ [Hlw [Hnd [Hr _]]]].
    assert (Hwne : worst <> []) by (intros ->; simpl in Hlw; lia).
    rewrite <- Hlw. apply Permutation_length. apply NoDup_Permutation.
    + apply NoDup_filter, NoDup_arange.
    + exact Hnd.
    + intros v. rewrite filter_In, in_arange, existsb_exists. split.
      * intros [_ [z [Hz Ez]]]. apply Z.eqb_eq in Ez. subst z.
        now apply in_padded_mask in Hz.
      * intros Hv. split.
        -- rewrite <- (Hrect row (nth_error_In _ _ Hrow)). now apply Hr.
        -- exists v. split; [now apply in_padded_mask | apply Z.eqb_refl].
Qed.

(** *** Concrete selections *)

Lemma select_worst_as_mask_shape_witness :
  exists masks,
    select_worst_as_mask
      [[3 # 10; 1 # 10; 5 # 10; 2 # 10]; [9 # 10; 8 # 10; 7 # 10; 6 # 10]]%Q [2; 0]
    = Some masks /\
    length masks = 2%nat.
Proof.
  destruct (select_worst_as_mask
              [[3 # 10; 1 # 10; 5 # 10; 2 # 10]; [9 # 10; 8 # 10; 7 # 10; 6 # 10]]%Q
              [2; 0]) as [masks|] eqn:E; [|vm_compute in E; discriminate E].
  exists masks. split; [reflexivity|].
  refine (proj1 (select_worst_as_mask_shape _ _ _ _ E)).
  intros row [<-|[<-|[]]]; reflexivity.
Defined.

Lemma select_worst_as_mask_worst_witness :
  (nth (Z.to_nat 3) [3 # 10; 1 # 10; 5 # 10; 2 # 10] 0
   <= nth (Z.to_nat 0) [3 # 10; 1 # 10; 5 # 10; 2 # 10] 0)%Q.
Proof.
  apply (select_worst_as_mask_worst
           [[3 # 10; 1 # 10; 5 # 10; 2 # 10]; [9 # 10; 8 # 10; 7 # 10; 6 # 10]]%Q
           [2; 0] [[1; 3; 1; 1]; [3; 3; 3; 3]] 0%nat
           [3 # 10; 1 # 10; 5 # 10; 2 # 10]%Q [1; 3; 1; 1] 3 0).
  - vm_compute. reflexivity.
  - reflexivity.
  - reflexivity.
  - simpl. auto.
  - simpl. lia.
  - simpl. intros [H|[H|[H|[H|[]]]]]; discriminate H.
Defined.

Lemma assign_single_value_long_rows_witness :
  exists x',
    assign_single_value_long [[1; 2; 3; 4]; [5; 6; 7; 8]] [[1; 3]; [2]] 103 = Some x' /\
    get2 x' 0 3 = Some 103 /\
    get2 x' 1 3 = Some 8.
Proof.
  destruct (assign_single_value_long_rows
              [[1; 2; 3; 4]; [5; 6; 7; 8]] [[1; 3]; [2]] 103 4)
    as [x' [Ha [_ Hx']]].
  - discriminate.
  - lia.
  - repeat constructor.
  - reflexivity.
  - intros [|[|r]] row v Hrow Hv; simpl in Hrow; try discriminate;
      try (destruct r; discriminate);
      injection Hrow as <-; simpl in Hv; lia.
  - exists x'. split; [exact Ha|]. split.
    + apply (proj1 (Hx' 0%nat [1; 3] 3%nat eq_refl ltac:(lia))). simpl. auto.
    + rewrite (proj2 (Hx' 1%nat [2] 3%nat eq_refl ltac:(lia))); [reflexivity|].
      simpl. intros [H|[]]. discriminate H.
Defined.

Lemma assign_single_value_long_lands_witness :
  exists x',
    assign_single_value_long [[1; 2; 3; 4]; [5; 6; 7; 8]] [[5]; [-1]] 103 = Some x' /\
    get2 x' 1 1 = Some 103 /\
    get2 x' 0 3 = Some 103.
Proof.
  destruct (assign_single_value_long_lands
              [[1; 2; 3; 4]; [5; 6; 7; 8]] [[5]; [-1]] 103 4)
    as [x' [Ha Hx']].
  - discriminate.
  - lia.
  - repeat constructor.
  - reflexivity.
  - intros [|[|r]] row v Hrow Hv; simpl in Hrow; try discriminate;
      try (destruct r; discriminate);
      injection Hrow as <-; simpl in Hv; destruct Hv as [<-|[]]; simpl; lia.
  - exists x'. split; [exact Ha|]. split.
    + exact (Hx' 0%nat [5] 5 eq_refl (or_introl eq_refl)).
    + exact (Hx' 1%nat [-1] (-1) eq_refl (or_introl eq_refl)).
Defined.

Lemma mask_worst_positions_witness :
  exists x',
    assign_single_value_long [[1; 2; 3; 4]; [5; 6; 7; 8]]
      [[1; 3; 1; 1]; [3; 3; 3; 3]] 103 = Some x' /\
    length x' = 2%nat.
Proof.
  destruct (mask_worst_positions
              [[3 # 10; 1 # 10; 5 # 10; 2 # 10]; [9 # 10; 8 # 10; 7 # 10; 6 # 10]]%Q
              [2; 0] [[1; 2; 3; 4]; [5; 6; 7; 8]] 103
              [[1; 3; 1; 1]; [3; 3; 3; 3]])
    as [x' [Ha [Hl _]]].
  - intros row [<-|[<-|[]]]; reflexivity.
  - repeat constructor.
  - reflexivity.
  - vm_compute. reflexivity.
  - exists x'. split; [exact Ha | exact Hl].
Defined.

(** ** Masks and positions of the joint sequence *)

Lemma nth_map_arange (f : Z -> Z) (n p : nat) :
  (p < n)%nat -> nth p (map f (arange n)) 0 = f (Z.of_nat p).
Proof.
  intros H.
  pose proof (nth_error_map_some f _ _ _ (nth_error_arange n p H)) as E.
  rewrite (nth_error_nth_lt _ _ 0) in E by (now rewrite length_map, length_arange).
  now injection E.
Qed.

(** X8 — the mask of an example marks a prefix of the positions, and
    the number of valid positions is the token count clipped to the
    range from 0 to the maximum length: a negative count gives no valid
    position, a count above the maximum length gives them all. *)
Theorem valid_positions_count :
  forall num_tokens max_len offset b c,
    nth_error num_tokens b = Some c ->
    exists mask,
      nth_error (fst (create_mask_and_position_ids num_tokens max_len offset)) b
      = Some mask /\
      length mask = max_len /\
      sumZ mask = Z.min (Z.max c 0) (Z.of_nat max_len) /\
      (forall p q, (q <= p)%nat -> (p < max_len)%nat ->
                   nth p mask 0 = 1 -> nth q mask 0 = 1).
Proof.
  intros num_tokens max_len offset b c Hc.
  exists (map (fun p => b2z (p <? c)) (arange max_len)). split.
  - unfold create_mask_and_position_ids. cbn [fst].
    exact (nth_error_map_some
             (fun c0 => map (fun p => b2z (p <? c0)) (arange max_len)) num_tokens b c Hc).
  - split; [now rewrite length_map, length_arange|]. split; [apply sumZ_mask_row|].
    intros p q Hq Hp. rewrite !nth_map_arange by lia.
    unfold b2z. destruct (Z.ltb_spec (Z.of_nat p) c); [|discriminate]. intros _.
    destruct (Z.ltb_spec (Z.of_nat q) c); [reflexivity | lia].
Qed.

(** X9 — in the joint sequence of a training pass (source positions,
    then target positions offset by the source count), with one source
    count and one target count per example, when the source count plus
    the target width is a [torch.long] number (the offset does not
    wrap), padding has position id 0, every valid source position has a
    smaller id than every valid target position, and no two valid
    positions share an id. *)
Theorem joint_position_ids_distinct :
  forall num_source_tokens num_target_tokens source_len target_len b cs ct,
    length num_source_tokens = length num_target_tokens ->
    nth_error num_source_tokens b = Some cs ->
    nth_error num_target_tokens b = Some ct ->
    - 2 ^ 63 <= cs ->
    cs + Z.of_nat target_len <= 2 ^ 63 ->
    let source :=
      create_mask_and_position_ids num_source_tokens source_len None in
    let target :=
      create_mask_and_position_ids num_target_tokens target_len
                                   (Some num_source_tokens) in
    exists mask position_ids,
      nth_error (map2 (@app Z) (fst source) (fst target)) b = Some mask /\
      nth_error (map2 (@app Z) (snd source) (snd target)) b = Some position_ids /\
      length mask = (source_len + target_len)%nat /\
      length position_ids = (source_len + target_len)%nat /\
      (forall i, (i < source_len + target_len)%nat ->
                 nth i mask 0 = 0 -> nth i position_ids 0 = 0) /\
      (forall i j, (i < source_len)%nat ->
                   (source_len <= j < source_len + target_len)%nat ->
                   nth i mask 0 = 1 -> nth j mask 0 = 1 ->
                   nth i position_ids 0 < nth j position_ids 0) /\
      (forall i j, (i < source_len + target_len)%nat ->
                   (j < source_len + target_len)%nat ->
                   nth i mask 0 = 1 -> nth j mask 0 = 1 ->
                   nth i position_ids 0 = nth j position_ids 0 -> i = j).
Proof.
  intros ns nt S T b cs ct _ Hcs Hct Hlo Hhi source target.
  destruct (mask_and_position_rows ns S None b cs 0 Hcs eq_refl) as [Hsm Hsp].
  destruct (mask_and_position_rows nt T (Some ns) b ct cs Hct Hcs) as [Htm Htp].
  fold source in Hsm, Hsp. fold target in Htm, Htp.
  eexists _, _.
  split; [exact (nth_error_map2 _ _ _ _ _ _ Hsm Htm)|].
  split; [exact (nth_error_map2 _ _ _ _ _ _ Hsp Htp)|].
  set (sm := map (fun p => b2z (p <? cs)) (arange S)).
  set (tm := map (fun p => b2z (p <? ct)) (arange T)).
  set (sp := map (fun p => p * b2z (p <? cs)) (arange S)).
  set (tp := map (fun p => wrap64 (p + cs) * b2z (p <? ct)) (arange T)).
  assert (Lsm : length sm = S) by (unfold sm; now rewrite length_map, length_arange).
  assert (Ltm : length tm = T) by (unfold tm; now rewrite length_map, length_arange).
  assert (Lsp : length sp = S) by (unfold sp; now rewrite length_map, length_arange).
  assert (Ltp : length tp = T) by (unfold tp; now rewrite length_map, length_arange).
  assert (Hm : forall i, (i < S + T)%nat ->
             nth i (sm ++ tm) 0
             = if (i <? S)%nat then b2z (Z.of_nat i <? cs)
               else b2z (Z.of_nat (i - S) <? ct)).
  { intros i Hi. destruct (Nat.ltb_spec i S).
    - rewrite app_nth1 by lia. unfold sm. now rewrite nth_map_arange.
    - rewrite app_nth2 by lia. rewrite Lsm. unfold tm. rewrite nth_map_arange by lia.
      reflexivity. }
  assert (Hp : forall i, (i < S + T)%nat ->
             nth i (sp ++ tp) 0
             = if (i <? S)%nat then (Z.of_nat i + 0) * b2z (Z.of_nat i <? cs)
               else (Z.of_nat (i - S) + cs) * b2z (Z.of_nat (i - S) <? ct)).
  { intros i Hi. destruct (Nat.ltb_spec i S).
    - rewrite app_nth1 by lia. unfold sp. rewrite nth_map_arange by lia.
      now rewrite Z.add_0_r.
    - rewrite app_nth2 by lia. rewrite Lsp. unfold tp. rewrite nth_map_arange by lia.
      rewrite wrap64_id by lia. reflexivity. }
  split; [rewrite length_app; lia|]. split; [rewrite length_app; lia|].
  split; [|split].
  - intros i Hi. rewrite (Hm i Hi), (Hp i Hi). unfold b2z.
    destruct (i <? S)%nat;
      [destruct (Z.of_nat i <? cs) | destruct (Z.of_nat (i - S) <? ct)];
      intros; try discriminate; lia.
  - intros i j Hi Hj. rewrite (Hm i), (Hm j), (Hp i), (Hp j) by lia.
    destruct (Nat.ltb_spec i S); [|lia]. destruct (Nat.ltb_spec j S); [lia|].
    unfold b2z.
    destruct (Z.ltb_spec (Z.of_nat i) cs); [|discriminate].
    destruct (Z.ltb_spec (Z.of_nat (j - S)) ct); [|discriminate]. lia.
  - intros i j Hi Hj. rewrite (Hm i), (Hm j), (Hp i), (Hp j) by lia.
    unfold b2z.
    destruct (Nat.ltb_spec i S); destruct (Nat.ltb_spec j S);
      repeat match goal with
             | |- context [?a <? ?b] => destruct (Z.ltb_spec a b)
             end; intros; try discriminate; lia.
Qed.

(** Among the source positions of a joint attention mask, a position
    sees another exactly when both are valid, whatever the target block
    is. *)
Lemma attention_source_block_entry (smask pmask : list (list Z)) att b s i j :
  create_attention_mask smask pmask = Some att ->
  nth_error smask b = Some s ->
  (i < length s)%nat -> (j < length s)%nat ->
  get3 att b i j = Some (b2z ((nth i s 0 =? 1) && (nth j s 0 =? 1))).
Proof.
  intros Hatt Hs Hi Hj.
  unfold create_attention_mask in Hatt.
  destruct (Nat.eqb_spec (length smask) (length pmask)) as [Hlen|]; [|discriminate].
  injection Hatt as <-.
  destruct (nth_error pmask b) as [t|] eqn:Et.
  2:{ apply nth_error_None in Et.
      assert (b < length smask)%nat by (apply nth_error_Some; congruence). lia. }
  unfold get3. rewrite (nth_error_map2 _ _ _ _ _ _ Hs Et).
  rewrite attention_row_entry by lia.
  rewrite !app_nth1 by lia.
  destruct (Nat.ltb_spec j (length s)); [|lia].
  now rewrite orb_true_r.
Qed.

(** The attention mask of the run that predicts the lengths. *)
Lemma length_pass_attention_entry (self : NAT) (input_ids tti pos : list (list Z)) b row i j :
  nth_error input_ids b = Some row ->
  (i < length row)%nat -> (j < length row)%nat ->
  get3 (call_attention_mask (length_pass_call self input_ids tti pos)) b i j
  = Some (b2z (negb (nth i row 0 =? pad_word_id self)
               && negb (nth j row 0 =? pad_word_id self))).
Proof.
  intros Hrow Hi Hj.
  unfold get3, get2. cbn [call_attention_mask length_pass_call].
  rewrite nth_error_map, nth_error_map, Hrow. simpl.
  rewrite nth_error_map, nth_error_map.
  rewrite (nth_error_nth_lt row i 0 Hi). simpl.
  rewrite nth_error_map, nth_error_map.
  rewrite (nth_error_nth_lt row j 0 Hj). simpl.
  do 2 f_equal.
  destruct (nth i row 0 =? pad_word_id self), (nth j row 0 =? pad_word_id self);
    reflexivity.
Qed.

Lemma slice_to_map {A B : Type} (f : A -> B) (n : Z) (l : list A) :
  slice_to n (map f l) = map f (slice_to n l).
Proof. unfold slice_to. now rewrite length_map, firstn_map. Qed.

Lemma nth_slice_to {A : Type} (n : Z) (l : list A) (i : nat) (d : A) :
  (i < length (slice_to n l))%nat -> nth i (slice_to n l) d = nth i l d.
Proof.
  unfold slice_to. generalize (py_bound n (length l)). intros k.
  revert l i. induction k as [|k IH]; intros [|x l] [|i]; simpl;
    try reflexivity; try lia.
  intros H. apply IH. lia.
Qed.

(** ** The normalised loss as an average *)

Lemma masked_row_bounds (M : Q) (loss : list Q) (mask : list Z) :
  Forall2 (fun l m => (m = 0 \/ m = 1) /\ (0 <= l)%Q /\ (l <= M)%Q) loss mask ->
  (0 <= sumQ (map2 Qmult loss (map inject_Z mask)))%Q /\
  (sumQ (map2 Qmult loss (map inject_Z mask)) <= M * inject_Z (sumZ mask))%Q.
Proof.
  induction 1 as [|l m loss mask [Hm [Hl0 HlM]] _ [IH0 IHM]]; simpl.
  - split; [apply Qle_refl|]. rewrite Qmult_0_r. apply Qle_refl.
  - rewrite inject_Z_plus, Qmult_plus_distr_r. split.
    + rewrite <- (Qplus_0_l 0). apply Qplus_le_compat; [|exact IH0].
      apply Qmult_le_0_compat; [exact Hl0|].
      destruct Hm as [-> | ->]; discriminate.
    + apply Qplus_le_compat; [|exact IHM].
      destruct Hm as [-> | ->].
      * rewrite !Qmult_0_r. apply Qle_refl.
      * rewrite !Qmult_1_r. exact HlM.
Qed.

Lemma masked_sum_bounds (M : Q) (loss : list (list Q)) (mask : list (list Z)) :
  Forall2 (Forall2 (fun l m => (m = 0 \/ m = 1) /\ (0 <= l)%Q /\ (l <= M)%Q)) loss mask ->
  (0 <= sum_all (map2 (map2 Qmult) loss (map (map inject_Z) mask)))%Q /\
  (sum_all (map2 (map2 Qmult) loss (map (map inject_Z) mask))
   <= M * inject_Z (sumZ (concat mask)))%Q /\
  0 <= sumZ (concat mask).
Proof.
  unfold sum_all.
  induction 1 as [|l m loss mask Hrow _ [IH0 [IHM IHc]]]; simpl.
  - split; [apply Qle_refl|]. split; [|lia]. rewrite Qmult_0_r. apply Qle_refl.
  - destruct (masked_row_bounds M l m Hrow) as [H0 HM].
    assert (Hc : 0 <= sumZ m).
    { apply sumZ_nonneg. clear - Hrow.
      induction Hrow as [|? ? ? ? [[-> | ->] _] _ IH]; constructor; try lia; assumption. }
    rewrite sumQ_app, sumZ_app, inject_Z_plus, Qmult_plus_distr_r.
    split; [|split; [|lia]].
    + rewrite <- (Qplus_0_l 0). now apply Qplus_le_compat.
    + now apply Qplus_le_compat.
Qed.

(** X13 — the normalised loss is an average: with a 0/1 mask of the
    shape of the losses and per-position losses between 0 and [M], the
    result lies between 0 and [M]. *)
Theorem loss_mask_and_normalize_bounds :
  forall (M : Q) (loss : list (list Q)) (mask : list (list Z)),
    Forall2 (Forall2 (fun l m => (m = 0 \/ m = 1) /\ (0 <= l)%Q /\ (l <= M)%Q)) loss mask ->
    (0 <= M)%Q ->
    (0 <= loss_mask_and_normalize loss mask)%Q /\
    (loss_mask_and_normalize loss mask <= M)%Q.
Proof.
  intros M loss mask H HM.
  destruct (masked_sum_bounds M loss mask H) as [H0 [Hup Hc]].
  rewrite loss_mask_and_normalize_global.
  set (total := sum_all (map2 (map2 Qmult) loss (map (map inject_Z) mask))) in *.
  set (count := inject_Z (sumZ (concat mask))) in *.
  assert (Hcount : (0 <= count)%Q).
  { unfold count. change 0%Q with (inject_Z 0). now rewrite <- Zle_Qle. }
  assert (Hden : (0 < count + epsilon)%Q).
  { apply Qlt_le_trans with (y := epsilon); [apply epsilon_pos|].
    rewrite <- (Qplus_0_l epsilon) at 1. now apply Qplus_le_l. }
  split.
  - apply Qle_shift_div_l; [exact Hden|]. now rewrite Qmult_0_l.
  - apply Qle_shift_div_r; [exact Hden|].
    eapply Qle_trans; [exact Hup|].
    rewrite Qmult_plus_distr_r.
    rewrite <- (Qplus_0_r (M * count)) at 1.
    apply Qplus_le_r. apply Qmult_le_0_compat; [exact HM|].
    apply Qlt_le_weak, epsilon_pos.
Qed.

Lemma sumQ_Forall2 (l1 l2 : list Q) :
  Forall2 Qeq l1 l2 -> (sumQ l1 == sumQ l2)%Q.
Proof.
  induction 1 as [|x y l1 l2 Hxy _ IH]; simpl; [reflexivity|].
  now rewrite Hxy, IH.
Qed.

Lemma masked_row_agree (l1 l2 : list Q) (mask : list Z) :
  Forall2 (fun (p : Q * Q) m => m <> 0 -> (fst p == snd p)%Q) (combine l1 l2) mask ->
  length l1 = length l2 ->
  Forall2 Qeq (map2 Qmult l1 (map inject_Z mask)) (map2 Qmult l2 (map inject_Z mask)).
Proof.
  revert l2 mask. induction l1 as [|x l1 IH]; intros [|y l2] mask H Hl;
    simpl in *; try discriminate; [constructor|].
  inversion H as [|? m ? mask' Hxy Hrest]; subst. simpl. constructor.
  - destruct (Z.eq_dec m 0) as [->|Hm].
    + now rewrite !Qmult_0_r.
    + simpl in Hxy. now rewrite (Hxy Hm).
  - apply IH; [exact Hrest | lia].
Qed.

(** X12 — the normalised loss does not depend on the per-position
    losses at masked positions: two loss tensors of one shape that agree
    wherever the mask is not 0 give the same result. *)
Theorem loss_mask_and_normalize_ignores_masked :
  forall (loss1 loss2 : list (list Q)) (mask : list (list Z)),
    losses_agree_on_valid loss1 loss2 mask ->
    (loss_mask_and_normalize loss1 mask == loss_mask_and_normalize loss2 mask)%Q.
Proof.
  intros loss1 loss2 mask [Hl H].
  rewrite !loss_mask_and_normalize_global.
  apply Qmult_comp; [|reflexivity].
  unfold sum_all. apply sumQ_Forall2.
  revert loss2 mask H Hl. induction loss1 as [|r1 loss1 IH]; intros [|r2 loss2] mask H Hl;
    simpl in *; try discriminate; [constructor|].
  inversion H as [|? m ? mask' [Hrl Hrow] Hrest]; subst. simpl in *.
  apply Forall2_app.
  - now apply masked_row_agree.
  - apply IH; [exact Hrest | lia].
Qed.

(** ** The pooled source representation *)

Lemma Forall2_Qeq_refl (l : list Q) : Forall2 Qeq l l.
Proof. induction l; constructor; [reflexivity | assumption]. Qed.

Lemma map2_Qplus_Forall2 (a1 a2 b1 b2 : list Q) :
  Forall2 Qeq a1 a2 -> Forall2 Qeq b1 b2 ->
  Forall2 Qeq (map2 Qplus a1 b1) (map2 Qplus a2 b2).
Proof.
  intros Ha. revert b1 b2. induction Ha as [|x y a1 a2 Hxy _ IH]; intros b1 b2 Hb.
  - constructor.
  - destruct Hb as [|u v b1 b2 Huv Hb]; simpl; constructor.
    + now rewrite Hxy, Huv.
    + now apply IH.
Qed.

Lemma map2_Qmult_Forall2 (a1 a2 w : list Q) :
  Forall2 Qeq a1 a2 -> Forall2 Qeq (map2 Qmult a1 w) (map2 Qmult a2 w).
Proof.
  intros Ha. revert w. induction Ha as [|x y a1 a2 Hxy _ IH]; intros [|u w];
    simpl; constructor.
  - now rewrite Hxy.
  - apply IH.
Qed.

Section LengthPooling.

Variable log_softmax : list Q -> list Q.
Variable embed_length_weight : list (list Q).
Variable encoder_embed_dim : nat.

(** [log_softmax] is a function of the numbers, not of the fractions
    that write them. *)
Hypothesis log_softmax_proper :
  forall l1 l2, Forall2 Qeq l1 l2 -> Forall2 Qeq (log_softmax l1) (log_softmax l2).

Lemma vsum_Forall2 (s1 s2 : list (list Q)) :
  Forall2 (Forall2 Qeq) s1 s2 ->
  Forall2 Qeq (vsum encoder_embed_dim s1) (vsum encoder_embed_dim s2).
Proof.
  unfold vsum. induction 1 as [|r1 r2 s1 s2 Hr _ IH]; simpl.
  - apply Forall2_Qeq_refl.
  - now apply map2_Qplus_Forall2.
Qed.

Lemma linear_Forall2 (x1 x2 : list Q) (weight : list (list Q)) :
  Forall2 Qeq x1 x2 -> Forall2 Qeq (linear x1 weight) (linear x2 weight).
Proof.
  intros Hx. unfold linear, dot.
  induction weight as [|w weight IH]; simpl; constructor; [|exact IH].
  apply sumQ_Forall2. now apply map2_Qmult_Forall2.
Qed.

Lemma scaled_rows_agree (count : Q) (r1 r2 : list (list Q)) (m : list Z) :
  length r1 = length r2 ->
  Forall2 (fun (p : list Q * list Q) x =>
             length (fst p) = length (snd p) /\ (x <> 0 -> fst p = snd p))
          (combine r1 r2) m ->
  Forall2 (Forall2 Qeq)
    (map2 (fun feat x => map (fun v => (v / count * inject_Z x)%Q) feat) r1 m)
    (map2 (fun feat x => map (fun v => (v / count * inject_Z x)%Q) feat) r2 m).
Proof.
  revert r2 m. induction r1 as [|v1 r1 IH]; intros [|v2 r2] m Hl H;
    simpl in *; try discriminate; [constructor|].
  inversion H as [|? x ? m' [Hvl Hv] Hrest]; subst. simpl in *. constructor.
  - destruct (Z.eq_dec x 0) as [->|Hx].
    + clear - Hvl. revert v2 Hvl.
      induction v1 as [|a v1 IHv]; intros [|b v2] Hvl; simpl in *;
        try discriminate; constructor.
      * now rewrite !Qmult_0_r.
      * apply IHv. lia.
    + rewrite (Hv Hx). apply Forall2_Qeq_refl.
  - apply IH; [lia | exact Hrest].
Qed.

(** X11 — the length prediction does not depend on the hidden states
    at masked source positions: when every example has a non-zero count
    of valid positions (the pooling divides by it), two encoder outputs
    of one shape that agree at every position whose mask entry is not 0
    give the same length distribution. *)
Theorem forward_length_ignores_padding :
  forall (feats1 feats2 : list (list (list Q))) (masks : list (list Z)),
    Forall (fun mask => sumZ mask <> 0) masks ->
    feats_agree_on_valid feats1 feats2 masks ->
    Forall2 (Forall2 Qeq)
      (forward_length log_softmax embed_length_weight encoder_embed_dim feats1 masks)
      (forward_length log_softmax embed_length_weight encoder_embed_dim feats2 masks).
Proof.
  intros feats1 feats2 masks _ [Hl H]. unfold forward_length.
  revert feats2 masks Hl H.
  induction feats1 as [|r1 feats1 IH]; intros [|r2 feats2] masks Hl H;
    simpl in *; try discriminate; [constructor|].
  inversion H as [|? m ? masks' [Hrl Hrow] Hrest]; subst. simpl in *. constructor.
  - apply log_softmax_proper, linear_Forall2, vsum_Forall2.
    now apply scaled_rows_agree.
  - apply IH; [lia | exact Hrest].
Qed.

End LengthPooling.

(** *** Concrete masks, losses and pooling *)

Lemma valid_positions_count_witness :
  exists mask,
    nth_error (fst (create_mask_and_position_ids [2; 5] 3 None)) 1 = Some mask /\
    sumZ mask = 3.
Proof.
  destruct (valid_positions_count [2; 5] 3 None 1 5 eq_refl) as [mask [Hm [_ [Hs _]]]].
  exists mask. split; [exact Hm | exact Hs].
Defined.

Lemma joint_position_ids_distinct_witness :
  exists mask position_ids,
    nth_error
      (map2 (@app Z) (fst (create_mask_and_position_ids [2] 3 None))
                     (fst (create_mask_and_position_ids [2] 2 (Some [2])))) 0
    = Some mask /\
    nth_error
      (map2 (@app Z) (snd (create_mask_and_position_ids [2] 3 None))
                     (snd (create_mask_and_position_ids [2] 2 (Some [2])))) 0
    = Some position_ids /\
    length position_ids = 5%nat.
Proof.
  destruct (joint_position_ids_distinct [2] [2] 3 2 0 2 2 eq_refl eq_refl eq_refl
              ltac:(lia) ltac:(simpl; lia))
    as [mask [position_ids [Hm [Hp [_ [Hl _]]]]]].
  exists mask, position_ids. split; [exact Hm|]. split; [exact Hp | exact Hl].
Defined.

Lemma loss_mask_and_normalize_bounds_witness :
  (0 <= loss_mask_and_normalize [[1; 2]]%Q [[1; 0]]%Z)%Q /\
  (loss_mask_and_normalize [[1; 2]]%Q [[1; 0]]%Z <= 2)%Q.
Proof.
  apply (loss_mask_and_normalize_bounds 2 [[1; 2]]%Q [[1; 0]]).
  - repeat constructor; auto; discriminate.
  - discriminate.
Defined.

Lemma loss_mask_and_normalize_ignores_masked_witness :
  (loss_mask_and_normalize [[1; 5]]%Q [[1; 0]]%Z
   == loss_mask_and_normalize [[1; 7]]%Q [[1; 0]]%Z)%Q.
Proof.
  apply loss_mask_and_normalize_ignores_masked.
  split; [reflexivity|].
  repeat constructor; simpl; intros H; (reflexivity || (exfalso; apply H; reflexivity)).
Defined.

Lemma forward_length_ignores_padding_witness :
  Forall2 (Forall2 Qeq)
    (forward_length Stub.log_softmax [[1; 0]]%Q 2 [[[1; 2]; [3; 4]]]%Q [[1; 0]]%Z)
    (forward_length Stub.log_softmax [[1; 0]]%Q 2 [[[1; 2]; [9; 9]]]%Q [[1; 0]]%Z).
Proof.
  apply forward_length_ignores_padding.
  - intros l1 l2 H. exact H.
  - repeat constructor. discriminate.
  - split; [reflexivity|].
    repeat constructor; simpl; intros H; (reflexivity || (exfalso; apply H; reflexivity)).
Defined.

(** ** Construction *)

Lemma Qle_bool_false (x y : Q) : Qle_bool x y = false <-> (y < x)%Q.
Proof.
  split.
  - intros H. apply Qnot_le_lt. intros Hle. apply Qle_bool_iff in Hle. congruence.
  - intros H. destruct (Qle_bool x y) eqn:E; [|reflexivity].
    apply Qle_bool_iff in E. exfalso. exact (Qlt_not_le _ _ H E).
Qed.

(** X14 — the construction of the label-smoothed criterion fails exactly
    when the smoothing is not in (0, 1], the vocabulary size is not
    positive or is 2 (the smoothing value divides by the size minus 2),
    or the ignored index is outside the vocabulary (negative indices
    count from the end). *)
Theorem LabelSmoothingLoss_init_error :
  forall (s : Q) (V ign : Z),
    LabelSmoothingLoss_init s V ign = None <->
    ~ (0 < s)%Q \/ ~ (s <= 1)%Q \/ V <= 0 \/ V = 2 \/ ~ (- V <= ign < V).
Proof.
  intros s V ign. unfold LabelSmoothingLoss_init.
  destruct (Qle_bool s 0) eqn:E0; simpl.
  { split; [|reflexivity]. intros _. left. apply Qle_not_lt. now apply Qle_bool_iff. }
  apply Qle_bool_false in E0.
  destruct (Qle_bool s 1) eqn:E1; simpl.
  2:{ split; [|reflexivity]. intros _. right. left.
      apply Qlt_not_le. now apply Qle_bool_false. }
  apply Qle_bool_iff in E1.
  destruct (Z.gtb_spec V 0) as [HV|HV]; simpl.
  2:{ split; [|reflexivity]. intros _. right. right. left. lia. }
  destruct (Z.eqb_spec (V - 2) 0) as [H2|H2].
  { split; [|reflexivity]. intros _. right. right. right. left. lia. }
  rewrite repeat_length.
  destruct (py_index ign (Z.to_nat V)) as [k|] eqn:Ek.
  - split; [discriminate|].
    intros [H|[H|[H|[H|H]]]]; try contradiction; try lia.
    exfalso. assert (Hn : py_index ign (Z.to_nat V) = None).
    { apply py_index_None. rewrite Z2Nat.id by lia. exact H. }
    congruence.
  - split; [|reflexivity]. intros _. do 4 right.
    apply py_index_None in Ek. rewrite Z2Nat.id in Ek by lia. exact Ek.
Qed.

(** X15 — the construction of the model fails exactly when the label
    smoothing is positive and either exceeds 1 or meets a vocabulary of
    size 2 or of no positive size; a label smoothing of 0 or less always
    gives a model with the plain cross-entropy criterion. *)
Theorem NAT_init_error :
  forall use_glat glat_random_prob glat_f (ls : Q) sep mask pad V,
    (NAT_init use_glat glat_random_prob glat_f ls sep mask pad V = None <->
     (0 < ls)%Q /\ ((1 < ls)%Q \/ V <= 0 \/ V = 2)) /\
    ((ls <= 0)%Q ->
     exists self,
       NAT_init use_glat glat_random_prob glat_f ls sep mask pad V = Some self /\
       crit_mask_lm_smoothed self = None).
Proof.
  intros ug grp gf ls sep mask pad V. unfold NAT_init.
  destruct (Qle_bool ls 0) eqn:E0; simpl.
  - apply Qle_bool_iff in E0. split.
    + split; [discriminate|]. intros [H _]. exfalso. exact (Qlt_not_le _ _ H E0).
    + intros _. eexists. split; reflexivity.
  - apply Qle_bool_false in E0. split.
    2:{ intros H. exfalso. exact (Qlt_not_le _ _ E0 H). }
    destruct (LabelSmoothingLoss_init ls V 0) as [crit|] eqn:Ec.
    + split; [discriminate|]. intros [_ H]. exfalso.
      apply LabelSmoothingLoss_init_inv in Ec; [|lia].
      destruct Ec as [_ [H1 [HV [H2 _]]]].
      destruct H as [H|[H|H]]; try lia. exact (Qlt_not_le _ _ H H1).
    + split; [|reflexivity]. intros _. split; [exact E0|].
      unfold LabelSmoothingLoss_init in Ec.
      destruct (Qle_bool ls 0) eqn:E0'.
      { apply Qle_bool_iff in E0'. exfalso. exact (Qlt_not_le _ _ E0 E0'). }
      simpl in Ec.
      destruct (Qle_bool ls 1) eqn:E1; simpl in Ec.
      2:{ left. now apply Qle_bool_false. }
      destruct (Z.gtb_spec V 0) as [HV|HV]; simpl in Ec; [|right; left; lia].
      destruct (Z.eqb_spec (V - 2) 0) as [H2|H2]; [right; right; lia|].
      rewrite repeat_length in Ec.
      rewrite (py_index_in_range 0 (Z.to_nat V)) in Ec by lia. discriminate.
Qed.

(** ** The shape check of the training pass *)

Section TrainingCheck.

Variable ln : Q -> Q.
Variable bert : BertCall -> list (list (list Q)).
Variable cls : list (list (list Q)) -> list (list (list Q)).
Variable log_softmax : list Q -> list Q.
Variable cross_entropy : list Q -> Z -> Q.
Variable embed_length_weight : list (list Q).
Variable encoder_embed_dim : nat.
Variable self : NAT.

(** X16 — a training pass whose pseudo target is not as wide as the
    target, or whose source or target has no position, raises at once,
    with and without glancing: no random number is drawn and the encoder
    is not run. *)
Theorem forward_rejects_bad_widths :
  forall src tgt pseudo ns nt w,
    width tgt <> width pseudo \/ width src = 0%nat \/ width tgt = 0%nat ->
    forward ln bert cls log_softmax cross_entropy embed_length_weight
            encoder_embed_dim self src tgt pseudo ns nt false w
    = (None, w).
Proof.
  intros src tgt pseudo ns nt w H.
  assert (Hc : (width tgt =? width pseudo)%nat = false \/
               ((0 <? width src)%nat && (0 <? width tgt)%nat) = false).
  { destruct H as [H|[H|H]].
    - left. now apply Nat.eqb_neq.
    - right. rewrite H. reflexivity.
    - right. rewrite H. apply andb_false_r. }
  unfold forward, forward_glat, bind, assert, ret, raise.
  destruct (use_glat self); cbv beta iota zeta;
    destruct Hc as [Hc|Hc]; rewrite Hc; try reflexivity;
    destruct (width tgt =? width pseudo)%nat; reflexivity.
Qed.

End TrainingCheck.

(** ** The encoder runs of a decoding *)

Lemma length_map2_same {A B C : Type} (f : A -> B -> C) xs ys :
  length xs = length ys -> length (map2 f xs ys) = length xs.
Proof. intros H. rewrite length_map2. lia. Qed.


Section DecodeRuns.

Variable bert : BertCall -> list (list (list Q)).
Variable cls : list (list (list Q)) -> list (list (list Q)).
Variable log_softmax : list Q -> list Q.
Variable embed_length_weight : list (list Q).
Variable encoder_embed_dim : nat.
Variable self : NAT.

Local Abbreviation forward_decode' :=
  (forward_decode bert cls log_softmax embed_length_weight encoder_embed_dim self).

(** The inputs of the last encoder run of a decoding, and the state it
    leaves. *)
Lemma forward_decode_last_call input_ids tti pos im lo w toks lens w' :
  forward_decode' input_ids tti pos im lo w = (Some (toks, lens), w') ->
  let target_len := fold_right Z.max (hd 0 lens) (tl lens) in
  let truncate := target_len + Z.of_nat (width input_ids) >? 512 in
  let sl := decode_source_len input_ids target_len in
  let source_ids := if truncate then map (slice_to sl) input_ids else input_ids in
  let pseudo_mask :=
    map (fun len => map (fun p => p <? len) (arange (Z.to_nat target_len))) lens in
  let pseudo_ids :=
    map (map (fun m : bool => if m then mask_word_id self else pad_word_id self))
        pseudo_mask in
  exists c,
    bert_calls w' =
      bert_calls w ++
      match lo with
      | None => [length_pass_call self input_ids
                   (map (firstn (width input_ids)) tti)
                   (map (firstn (width input_ids)) pos); c]
      | Some _ => [c]
      end /\
    rng_pos w' = rng_pos w /\ rng_draws w' = rng_draws w /\
    0 <= target_len /\
    length input_ids = length lens /\
    call_input_ids c = map2 (@app Z) source_ids pseudo_ids /\
    call_token_type_ids c =
      map2 (@app Z) (full_like source_ids source_type_id)
                    (full_like pseudo_ids target_type_id) /\
    create_attention_mask
      (let source_mask :=
         map (map (fun x => b2z (negb (x =? pad_word_id self)))) input_ids in
       if truncate then map (slice_to sl) source_mask else source_mask)
      (map (map b2z) pseudo_mask)
    = Some (call_attention_mask c).
Proof.
  intros H. unfold forward_decode in H. minv H.
  apply max_item_inv in H. destruct H as [Hne [-> ->]].
  unfold feed_bert in *.
  repeat match goal with
         | H : bind _ _ _ = (Some _, _) |- _ => minv H
         end.
  repeat match goal with
         | H : (_, _) = (_, _) |- _ => injection H as ? ?; subst
         end.
  match goal with
  | H : call_bert _ ?c ?w1 = (Some _, _) |- _ =>
      apply call_bert_inv in H; destruct H as [-> [Hc [Hp Hd]]];
      exists c;
      assert (Hw : bert_calls w1 =
               bert_calls w ++
               match lo with
               | None => [length_pass_call self input_ids
                            (map (firstn (width input_ids)) tti)
                            (map (firstn (width input_ids)) pos)]
               | Some _ => []
               end /\ rng_pos w1 = rng_pos w /\ rng_draws w1 = rng_draws w)
  end.
  { destruct lo as [given|].
    - apply ret_inv in H0. destruct H0 as [_ ->]. now rewrite app_nil_r.
    - minv H0.
      match goal with
      | H : call_bert _ _ _ = (Some _, _) |- _ =>
          apply call_bert_inv in H; destruct H as [_ [Hc1 [Hp1 Hd1]]]
      end.
      now repeat split. }
  destruct Hw as [Hw [Hp' Hd']].
  cbv zeta. unfold decode_source_len.
  split.
  { rewrite Hc, Hw, <- app_assoc. destruct lo; reflexivity. }
  split; [congruence|]. split; [congruence|].
  split; [now apply Z.leb_le|].
  split.
  { match goal with
    | Hl : (length _ =? length _)%nat = true |- _ => apply Nat.eqb_eq in Hl; revert Hl
    end.
    destruct (_ >? 512); rewrite !length_map; auto. }
  split; [reflexivity|]. split; [reflexivity|]. simpl. assumption.
Qed.


Lemma map_const_repeat {A B : Type} (v : B) (l : list A) :
  map (fun _ => v) l = repeat v (length l).
Proof. induction l as [|x l IH]; simpl; [reflexivity | now rewrite IH]. Qed.

Lemma length_slice_to_le {A : Type} (n : Z) (l : list A) :
  (length (slice_to n l) <= length l)%nat.
Proof. unfold slice_to. rewrite length_firstn. lia. Qed.

(** A decoding returns one row of tokens and one length per source. *)
Lemma forward_decode_lengths input_ids tti pos im lo w toks lens w' :
  forward_decode' input_ids tti pos im lo w = (Some (toks, lens), w') ->
  length toks = length input_ids /\ length lens = length input_ids /\ lens <> [].
Proof.
  intros H.
  destruct (forward_decode_last_call _ _ _ _ _ _ _ _ _ H)
    as [c [_ [_ [_ [_ [Hlen _]]]]]].
  destruct (forward_decode_inv _ _ _ _ _ _ _ _ _ _ _ _ _ _ _ H)
    as [calls [c' [_ [Hne [_ [Hd [-> _]]]]]]].
  apply same_dims_spec in Hd. destruct Hd as [Hd1 _].
  rewrite !length_map in Hd1.
  split; [rewrite length_map2, !length_map; lia|]. split; [lia | exact Hne].
Qed.

(** X17 — a decoding draws no random number; without supplied lengths
    it runs the encoder twice, first on the source alone to predict the
    lengths; with supplied lengths it runs the encoder once and decodes
    each example to its supplied length plus one, a [torch.long] sum
    (the largest number wraps to the smallest). *)
Theorem forward_decode_encoder_runs :
  forall input_ids tti pos im lo w toks lens w',
    forward_decode bert cls log_softmax embed_length_weight encoder_embed_dim self
                   input_ids tti pos im lo w
    = (Some (toks, lens), w') ->
    rng_pos w' = rng_pos w /\
    match lo with
    | None =>
        exists c,
          bert_calls w' =
            bert_calls w ++
            [length_pass_call self input_ids
               (map (firstn (width input_ids)) tti)
               (map (firstn (width input_ids)) pos); c]
    | Some given =>
        lens = map (fun x => wrap64 (x + 1)) given /\
        (Forall (fun x => - 2 ^ 63 <= x < 2 ^ 63 - 1) given ->
         lens = map (fun x => x + 1) given) /\
        exists c, bert_calls w' = bert_calls w ++ [c]
    end.
Proof.
  intros input_ids tti pos im lo w toks lens w' H.
  destruct (forward_decode_last_call _ _ _ _ _ _ _ _ _ H) as [c [Hc [Hp _]]].
  split; [exact Hp|].
  destruct lo as [given|].
  - destruct (forward_decode_inv _ _ _ _ _ _ _ _ _ _ _ _ _ _ _ H)
      as [calls [c' [_ [_ [_ [_ [_ Hl]]]]]]].
    split; [exact Hl|]. split; [|now exists c].
    intros Hr. rewrite Hl. apply map_ext_in. intros x Hx.
    rewrite Forall_forall in Hr. specialize (Hr x Hx).
    apply wrap64_id. lia.
  - now exists c.
Qed.

(** X18 — in the last encoder run of a decoding, with or without
    supplied lengths, the segment id is 0 at every source position and 1
    at every target position, whatever segment ids the caller passed:
    the row of an example is a run of zeros no longer than its source
    followed by as many ones as the longest decoded length. *)
Theorem forward_decode_last_run_segments :
  forall input_ids tti pos im lo w toks lens w',
    forward_decode bert cls log_softmax embed_length_weight encoder_embed_dim self
                   input_ids tti pos im lo w
    = (Some (toks, lens), w') ->
    let target_len := fold_right Z.max (hd 0 lens) (tl lens) in
    exists calls c,
      bert_calls w' = calls ++ [c] /\
      length (call_token_type_ids c) = length input_ids /\
      forall b row,
        nth_error input_ids b = Some row ->
        exists s, (s <= length row)%nat /\
                  nth_error (call_token_type_ids c) b =
                  Some (repeat 0 s ++ repeat 1 (Z.to_nat target_len)).
Proof.
  intros input_ids tti pos im lo w toks lens w' H target_len.
  destruct (forward_decode_last_call _ _ _ _ _ _ _ _ _ H)
    as [c [Hc [_ [_ [_ [Hlen [_ [Ht _]]]]]]]].
  fold target_len in Ht.
  set (truncate := target_len + Z.of_nat (width input_ids) >? 512) in *.
  set (sl := decode_source_len input_ids target_len) in *.
  exists (bert_calls w ++
          match lo with
          | None => [length_pass_call self input_ids
                       (map (firstn (width input_ids)) tti)
                       (map (firstn (width input_ids)) pos)]
          | Some _ => []
          end), c.
  split.
  { rewrite Hc, <- app_assoc. destruct lo; reflexivity. }
  split.
  { rewrite Ht, length_map2. unfold full_like.
    destruct truncate; rewrite !length_map; lia. }
  intros b row Hrow.
  assert (Hb : (b < length lens)%nat).
  { rewrite <- Hlen. apply nth_error_Some. congruence. }
  destruct (nth_error lens b) as [len|] eqn:El; [|apply nth_error_None in El; lia].
  exists (length (if truncate then slice_to sl row else row)). split.
  { destruct truncate; [apply length_slice_to_le | lia]. }
  rewrite Ht. unfold full_like, source_type_id, target_type_id.
  rewrite (nth_error_map2 (@app Z) _ _ b
             (map (fun _ : Z => 1 * 0) (if truncate then slice_to sl row else row))
             (map (fun _ : Z => 1 * 1)
                  (map (fun m : bool => if m then mask_word_id self else pad_word_id self)
                       (map (fun p => p <? len) (arange (Z.to_nat target_len)))))).
  - rewrite !map_const_repeat, !length_map, length_arange. reflexivity.
  - destruct truncate.
    + rewrite !nth_error_map, Hrow. reflexivity.
    + rewrite nth_error_map, Hrow. reflexivity.
  - rewrite !nth_error_map, El. reflexivity.
Qed.

(** X19 — without supplied lengths, the last encoder run of a decoding
    of sources of one length never exceeds the 512 positions of the
    encoder: every row of its input ids has the length of source and
    longest decoded length together, cut to 512. *)
Theorem forward_decode_fits_encoder :
  forall input_ids tti pos im w toks lens w',
    (forall row, In row input_ids -> length row = width input_ids) ->
    forward_decode bert cls log_softmax embed_length_weight encoder_embed_dim self
                   input_ids tti pos im None w
    = (Some (toks, lens), w') ->
    let target_len := fold_right Z.max (hd 0 lens) (tl lens) in
    exists calls c,
      bert_calls w' = calls ++ [c] /\
      length (call_input_ids c) = length input_ids /\
      forall row, In row (call_input_ids c) ->
                  Z.of_nat (length row)
                  = Z.min (Z.of_nat (width input_ids) + target_len) 512.
Proof.
  intros input_ids tti pos im w toks lens w' Hrect H target_len.
  destruct (forward_decode_last_call _ _ _ _ _ _ _ _ _ H)
    as [c [Hc [_ [_ [_ [Hlen [Hi _]]]]]]].
  destruct (forward_decode_inv _ _ _ _ _ _ _ _ _ _ _ _ _ _ _ H)
    as [calls [c' [_ [Hne [_ [_ [_ Hl]]]]]]].
  cbv zeta in Hl. destruct Hl as [_ Hl].
  assert (Hrange : Forall (fun x => 7 <= x <= 48) lens).
  { rewrite Hl. apply Forall_forall. intros x Hx.
    apply in_map_iff in Hx. destruct Hx as [y [<- Hy]].
    apply in_map_iff in Hy. destruct Hy as [z [<- _]].
    destruct (Z.gtb_spec z 48);
      [destruct (Z.ltb_spec 48 7) | destruct (Z.ltb_spec z 7)]; lia. }
  pose proof (fold_max_bounds 7 48 lens Hne Hrange) as HT.
  fold target_len in Hi, HT.
  unfold decode_source_len in Hi.
  exists (bert_calls w ++
          [length_pass_call self input_ids
             (map (firstn (width input_ids)) tti)
             (map (firstn (width input_ids)) pos)]), c.
  split; [rewrite Hc, <- app_assoc; reflexivity|].
  split.
  { rewrite Hi, length_map2.
    destruct (_ >? 512); rewrite !length_map; lia. }
  intros row Hin. rewrite Hi in Hin.
  apply In_nth_error in Hin. destruct Hin as [b Hb].
  apply nth_error_map2_inv in Hb. destruct Hb as [sr [pr [Hsr [Hpr ->]]]].
  rewrite length_app.
  assert (Hprl : length pr = Z.to_nat target_len).
  { rewrite !nth_error_map in Hpr.
    destruct (nth_error lens b); [|discriminate]. simpl in Hpr. injection Hpr as <-.
    now rewrite !length_map, length_arange. }
  rewrite Hprl.
  destruct (Z.gtb_spec (target_len + Z.of_nat (width input_ids)) 512) as [Ht|Ht].
  - rewrite nth_error_map in Hsr.
    destruct (nth_error input_ids b) as [r|] eqn:Er; [|discriminate].
    cbn [option_map] in Hsr.
    assert (Esr : sr = slice_to (512 - target_len) r) by congruence.
    rewrite Esr.
    pose proof (Hrect r (nth_error_In _ _ Er)) as Hr.
    pose proof (length_slice_to (512 - target_len) r ltac:(lia)) as Hs.
    lia.
  - pose proof (Hrect sr (nth_error_In _ _ Hsr)) as Hr. lia.
Qed.

(** X20 — the tokens returned by a decoding form a rectangle: one row
    per example, each as long as the longest decoded length. *)
Theorem forward_decode_output_shape :
  forall input_ids tti pos im lo w toks lens w',
    forward_decode bert cls log_softmax embed_length_weight encoder_embed_dim self
                   input_ids tti pos im lo w
    = (Some (toks, lens), w') ->
    length toks = length input_ids /\
    length lens = length input_ids /\
    Forall (fun row => length row
                       = Z.to_nat (fold_right Z.max (hd 0 lens) (tl lens))) toks.
Proof.
  intros input_ids tti pos im lo w toks lens w' H.
  destruct (forward_decode_last_call _ _ _ _ _ _ _ _ _ H)
    as [c [_ [_ [_ [_ [Hlen _]]]]]].
  destruct (forward_decode_inv _ _ _ _ _ _ _ _ _ _ _ _ _ _ _ H)
    as [calls [c' [_ [_ [_ [Hd [-> _]]]]]]].
  apply same_dims_spec in Hd. destruct Hd as [Hd1 Hd2].
  rewrite !length_map in Hd1.
  split; [rewrite length_map2, !length_map; lia|]. split; [lia|].
  apply Forall_forall. intros row Hin.
  apply In_nth_error in Hin. destruct Hin as [b Hb].
  apply nth_error_map2_inv in Hb. destruct Hb as [pt [pm [Hpt [Hpm ->]]]].
  rewrite length_map2, (Hd2 b pt pm Hpt Hpm), Nat.min_id.
  rewrite nth_error_map in Hpm.
  destruct (nth_error lens b); [|discriminate]. simpl in Hpm. injection Hpm as <-.
  now rewrite length_map, length_arange.
Qed.

(** X10 — in a decoding that predicts the lengths, the attention among
    the source positions that the last encoder run keeps is the same in
    that run as in the run that predicts the lengths: such a position
    sees another exactly when neither holds the pad token, whatever the
    target block is. *)
Theorem decode_source_attention_consistent :
  forall input_ids tti pos im w toks lens w',
    forward_decode bert cls log_softmax embed_length_weight encoder_embed_dim self
      input_ids tti pos im None w = (Some (toks, lens), w') ->
    let target_len := fold_right Z.max (hd 0 lens) (tl lens) in
    let truncate := target_len + Z.of_nat (width input_ids) >? 512 in
    exists c1 c2,
      bert_calls w' = bert_calls w ++ [c1; c2] /\
      forall b row i j,
        nth_error input_ids b = Some row ->
        let kept :=
          if truncate then slice_to (decode_source_len input_ids target_len) row
          else row in
        (i < length kept)%nat -> (j < length kept)%nat ->
        exists v,
          get3 (call_attention_mask c2) b i j = Some v /\
          get3 (call_attention_mask c1) b i j = Some v /\
          (v = 1 <-> nth i row 0 <> pad_word_id self /\
                     nth j row 0 <> pad_word_id self).
Proof.
  intros input_ids tti pos im w toks lens w' H target_len truncate.
  destruct (forward_decode_last_call _ _ _ _ _ _ _ _ _ H)
    as [c [Hc [_ [_ [_ [_ [_ [_ Ha]]]]]]]].
  fold target_len in Ha. fold truncate in Ha. cbv zeta in Ha.
  eexists _, c. split; [exact Hc|].
  intros b row i j Hrow kept Hi Hj.
  set (f := fun x => b2z (negb (x =? pad_word_id self))) in *.
  assert (Hle : (length kept <= length row)%nat).
  { unfold kept. destruct truncate; [apply length_slice_to_le | lia]. }
  assert (Hnth : forall k, (k < length kept)%nat -> nth k kept 0 = nth k row 0).
  { intros k Hk. unfold kept in *. destruct truncate; [|reflexivity].
    now apply nth_slice_to. }
  assert (Hs : nth_error
                 (if truncate
                  then map (slice_to (decode_source_len input_ids target_len))
                           (map (map f) input_ids)
                  else map (map f) input_ids) b
               = Some (map f kept)).
  { unfold kept. destruct truncate.
    - rewrite nth_error_map, nth_error_map, Hrow. simpl.
      now rewrite slice_to_map.
    - now rewrite nth_error_map, Hrow. }
  assert (Hval : forall k, (k < length kept)%nat ->
             (nth k (map f kept) 0 =? 1) = negb (nth k row 0 =? pad_word_id self)).
  { intros k Hk.
    rewrite (nth_indep _ 0 (f 0)) by (rewrite length_map; lia).
    rewrite (map_nth f), (Hnth k Hk). unfold f.
    now destruct (nth k row 0 =? pad_word_id self). }
  exists (b2z (negb (nth i row 0 =? pad_word_id self)
               && negb (nth j row 0 =? pad_word_id self))).
  split; [|split].
  - rewrite (attention_source_block_entry _ _ _ b (map f kept) i j Ha Hs)
      by (rewrite length_map; assumption).
    now rewrite !Hval by assumption.
  - apply length_pass_attention_entry; [exact Hrow | lia | lia].
  - destruct (Z.eqb_spec (nth i row 0) (pad_word_id self));
      destruct (Z.eqb_spec (nth j row 0) (pad_word_id self)); simpl;
      split; intros H0; try discriminate; try tauto; try reflexivity;
      destruct H0; contradiction.
Qed.

End DecodeRuns.

(** ** The accuracies of the decode mode *)

Lemma sumZ_map_b2z_bounds {A : Type} (f : A -> bool) (l : list A) :
  0 <= sumZ (map (fun x => b2z (f x)) l) <= Z.of_nat (length l).
Proof.
  induction l as [|x l IH]; [simpl; lia|].
  cbn [map sumZ fold_right length]. rewrite Nat2Z.inj_succ.
  unfold sumZ in IH. destruct (f x); simpl b2z; lia.
Qed.

Lemma sumZ_map2_b2z_bounds {A B : Type} (f : A -> B -> bool) (xs : list A) (ys : list B) :
  0 <= sumZ (map2 (fun x y => b2z (f x y)) xs ys) <= Z.of_nat (length xs).
Proof.
  revert ys. induction xs as [|x xs IH]; intros [|y ys];
    cbn [map2 sumZ fold_right length]; try rewrite Nat2Z.inj_succ; try lia.
  specialize (IH ys). unfold sumZ in IH. destruct (f x y); simpl b2z; lia.
Qed.

Lemma sumZ_b2z_nonneg (m : list bool) : 0 <= sumZ (map b2z m).
Proof. exact (proj1 (sumZ_map_b2z_bounds (fun b : bool => b) m)). Qed.

Lemma sumZ_concat_b2z_nonneg (M : list (list bool)) :
  0 <= sumZ (concat (map (map b2z) M)).
Proof.
  induction M as [|m M IH]; cbn [map concat]; [simpl; lia|].
  rewrite sumZ_app. pose proof (sumZ_b2z_nonneg m). lia.
Qed.

Lemma hits_row_bounds (e m : list bool) :
  0 <= sumZ (map2 (fun (e m : bool) => if negb m then 0 else b2z e) e m)
    <= sumZ (map b2z m).
Proof.
  revert m. induction e as [|x e IH]; intros [|y m].
  - simpl. lia.
  - pose proof (sumZ_b2z_nonneg (y :: m)). cbn [map2 sumZ fold_right]. lia.
  - cbn [map2 map sumZ fold_right]. lia.
  - specialize (IH m). cbn [map2 map sumZ fold_right]. unfold sumZ in IH.
    destruct x, y; cbn [negb b2z]; lia.
Qed.

Lemma hits_bounds (E M : list (list bool)) :
  0 <= sumZ (concat (map2 (map2 (fun (e m : bool) => if negb m then 0 else b2z e)) E M))
    <= sumZ (concat (map (map b2z) M)).
Proof.
  revert M. induction E as [|e E IH]; intros [|m M].
  - simpl. lia.
  - pose proof (sumZ_concat_b2z_nonneg (m :: M)).
    change (map2 _ [] (m :: M)) with (@nil (list Z)).
    change (sumZ (concat [])) with 0. lia.
  - simpl. lia.
  - cbn [map2 map concat]. rewrite !sumZ_app.
    pose proof (hits_row_bounds e m). specialize (IH M). lia.
Qed.

Lemma broadcast_same {A B : Type} (x : list A) (y : list B) :
  length x = length y -> broadcast x y = Some (combine x y).
Proof. intros H. unfold broadcast. now rewrite H, Nat.eqb_refl. Qed.

Lemma map_combine_map2 {A B C : Type} (f : A -> B -> C) (x : list A) (y : list B) :
  map (fun ab : A * B => f (fst ab) (snd ab)) (combine x y) = map2 f x y.
Proof.
  revert y. induction x as [|a x IH]; intros [|b y]; simpl; try reflexivity.
  now rewrite IH.
Qed.

Section DecodeAccuracy.

Variable ln : Q -> Q.
Variable bert : BertCall -> list (list (list Q)).
Variable cls : list (list (list Q)) -> list (list (list Q)).
Variable log_softmax : list Q -> list Q.
Variable cross_entropy : list Q -> Z -> Q.
Variable embed_length_weight : list (list Q).
Variable encoder_embed_dim : nat.
Variable self : NAT.

(** X21 — the decode mode returns one decoded row and one length per
    source row.  With as many target rows as source rows (nothing is
    broadcast), its length accuracy is a number between 0 and 1; its
    token accuracy is no number (nan) exactly when no compared target
    position holds a token other than the pad token, and a number
    between 0 and 1 otherwise. *)
Theorem forward_decode_mode_accuracy :
  forall src tgt pseudo ns nt w toks lens len_acc tokens_acc w',
    forward ln bert cls log_softmax cross_entropy embed_length_weight
            encoder_embed_dim self src tgt pseudo ns nt true w
    = (Some (Decoded toks lens len_acc tokens_acc), w') ->
    length toks = length src /\ length lens = length src /\
    (length tgt = length src ->
     (exists la, len_acc = Some la /\ (0 <= la)%Q /\ (la <= 1)%Q) /\
     let min_size := Nat.min (width tgt) (width toks) in
     let count :=
       sumZ (concat (map (fun row => map (fun x => b2z (negb (x =? pad_word_id self)))
                                         (firstn min_size row)) tgt)) in
     (tokens_acc = None <-> count = 0) /\
     (forall ta, tokens_acc = Some ta -> (0 <= ta)%Q /\ (ta <= 1)%Q)).
Proof.
  intros src tgt pseudo ns nt w toks lens len_acc tokens_acc w' H.
  unfold forward in H. minv H. destruct x as [pt plo]. minv H1.
  match goal with
  | Hr : Decoded _ _ _ _ = Decoded _ _ _ _ |- _ => injection Hr as -> -> -> ->
  end.
  destruct (forward_decode_lengths bert cls log_softmax embed_length_weight
              encoder_embed_dim self _ _ _ _ _ _ _ _ _ H0) as [Ht [Hl Hne]].
  split; [exact Ht|]. split; [exact Hl|].
  intros Hbatch.
  assert (HB : 0 < Z.of_nat (length tgt)).
  { rewrite Hbatch, <- Hl. destruct plo; [congruence | simpl; lia]. }
  repeat match goal with
         | Hs : broadcast ?a ?b = Some _ |- _ =>
             rewrite (broadcast_same a b) in Hs
               by (rewrite ?length_map, ?length_combine; lia);
             injection Hs as <-
         end.
  rewrite length_map. split.
  - unfold true_divide.
    destruct (Z.eqb_spec (Z.of_nat (length tgt)) 0) as [E|_]; [lia|].
    eexists. split; [reflexivity|].
    match goal with
    | |- context [sumZ (map ?f ?l)] =>
        pose proof (sumZ_map_b2z_bounds (fun ab : Z * Z => fst ab =? snd ab) l) as Hk;
        set (k := sumZ (map f l)) in *
    end.
    rewrite length_combine, length_map in Hk.
    assert (HBq : (0 < inject_Z (Z.of_nat (length tgt)))%Q).
    { change 0%Q with (inject_Z 0). now rewrite <- Zlt_Qlt. }
    split.
    + apply Qle_shift_div_l; [exact HBq|]. rewrite Qmult_0_l.
      change 0%Q with (inject_Z 0). rewrite <- Zle_Qle. lia.
    + apply Qle_shift_div_r; [exact HBq|]. rewrite Qmult_1_l.
      rewrite <- Zle_Qle. lia.
  - cbv zeta.
    set (m := Nat.min (width tgt) (width pt)) in *.
    match goal with
    | |- context [true_divide ?h ?c] => set (hits := h); set (count := c)
    end.
    assert (Ecount : count
                     = sumZ (concat (map (fun row => map (fun x => b2z (negb (x =? pad_word_id self)))
                                                         (firstn m row)) tgt))).
    { unfold count. do 2 f_equal. rewrite map_map. apply map_ext.
      intros row. rewrite firstn_map, map_map. reflexivity. }
    rewrite <- Ecount.
    assert (Hh : 0 <= hits <= count).
    { unfold hits, count.
      rewrite (map_combine_map2
                 (map2 (fun (e m0 : bool) => if negb m0 then 0 else b2z e))).
      apply hits_bounds. }
    unfold true_divide. destruct (Z.eqb_spec count 0) as [E|E].
    + split; [tauto|]. intros ta Hta. discriminate Hta.
    + split; [split; [discriminate | contradiction]|].
      intros ta Hta. injection Hta as <-.
      assert (Hcq : (0 < inject_Z count)%Q).
      { change 0%Q with (inject_Z 0). rewrite <- Zlt_Qlt. lia. }
      split.
      * apply Qle_shift_div_l; [exact Hcq|]. rewrite Qmult_0_l.
        change 0%Q with (inject_Z 0). rewrite <- Zle_Qle. lia.
      * apply Qle_shift_div_r; [exact Hcq|]. rewrite Qmult_1_l.
        rewrite <- Zle_Qle. lia.
Qed.

End DecodeAccuracy.

(** ** The segment ids of the decode mode *)

Section DecodeSegments.

Variable ln : Q -> Q.
Variable bert : BertCall -> list (list (list Q)).
Variable cls : list (list (list Q)) -> list (list (list Q)).
Variable log_softmax : list Q -> list Q.
Variable cross_entropy : list Q -> Z -> Q.
Variable embed_length_weight : list (list Q).
Variable encoder_embed_dim : nat.
Variable self : NAT.


End DecodeSegments.

(** ** What the glancing leaves untouched *)

Lemma assign_frame (idx : list Z) :
  forall vals x x',
    Forall (fun i => 0 <= i) idx ->
    assign x idx vals = Some x' ->
    length x' = length x /\
    forall p, ~ In (Z.of_nat p) idx -> nth_error x' p = nth_error x p.
Proof.
  induction idx as [|i idx IH]; intros vals x x' Hn Ha.
  - destruct vals; simpl in Ha; [|discriminate]. injection Ha as <-. now split.
  - inversion Hn as [|? ? Hi Hn']; subst.
    destruct vals as [|v vals]; simpl in Ha; [discriminate|].
    destruct (py_index i (length x)) as [k|] eqn:Ek; [|discriminate].
    destruct (py_index_nonneg _ _ _ Hi Ek) as [-> Hk].
    destruct (IH _ _ _ Hn' Ha) as [Hl Hout].
    rewrite length_set_nth in Hl. split; [exact Hl|].
    intros p Hp. rewrite Hout by (intros Hin; apply Hp; now right).
    apply nth_error_set_nth_neq. intros ->. apply Hp. left. lia.
Qed.

Lemma select_incl (x : list Z) (m : list bool) (kept : list Z) :
  select x m = Some kept -> incl kept x.
Proof.
  unfold select. destruct (length x =? length m)%nat; [|discriminate].
  intros E. injection E as <-. intros k Hk.
  apply in_map_iff in Hk. destruct Hk as [[k' b] [Hk Hin]]. simpl in Hk. subst k'.
  apply filter_In in Hin. destruct Hin as [Hin _].
  eapply in_combine_l. exact Hin.
Qed.

Lemma slice_to_incl {A : Type} (n : Z) (l : list A) : incl (slice_to n l) l.
Proof. intros x Hx. unfold slice_to in Hx. eapply In_firstn. exact Hx. Qed.

Lemma randint_inv lo hi n w x w' :
  randint lo hi n w = (Some x, w') -> bert_calls w' = bert_calls w.
Proof.
  unfold randint, bind, assert, rand, ret, raise.
  destruct (lo <? hi); intros H; [|discriminate]. injection H as _ <-. reflexivity.
Qed.

Section GlancingFrame.

Variable bert : BertCall -> list (list (list Q)).
Variable cls : list (list (list Q)) -> list (list (list Q)).
Variable self : NAT.

(** The reveal of one example, under every setting of the random
    replacement: the row keeps its length and its positions from the
    count of valid positions on; the encoder is not run. *)
Lemma glat_reveal_frame indice im tm t ps n w ps' w' :
  Forall (fun k => 0 <= k) indice ->
  glat_reveal self indice im tm t ps n w = (Some ps', w') ->
  bert_calls w' = bert_calls w /\
  length ps' = length ps /\
  forall p, sumZ tm <= Z.of_nat p -> nth_error ps' p = nth_error ps p.
Proof.
  intros Hn H. unfold glat_reveal in H.
  set (filtered := filter (fun k => k <? sumZ tm) indice) in *.
  assert (Hf : forall k, In k filtered -> 0 <= k < sumZ tm).
  { intros k Hk. apply filter_In in Hk. destruct Hk as [Hk Hlt].
    rewrite Forall_forall in Hn. specialize (Hn k Hk).
    apply Z.ltb_lt in Hlt. lia. }
  assert (Hsub : forall idx vals x x',
             incl idx (slice_to n filtered) ->
             assign x idx vals = Some x' ->
             length x' = length x /\
             forall p, sumZ tm <= Z.of_nat p -> nth_error x' p = nth_error x p).
  { intros idx vals x x' Hi Ha.
    assert (Hin : forall k, In k idx -> 0 <= k < sumZ tm).
    { intros k Hk. apply Hf. eapply slice_to_incl. apply Hi. exact Hk. }
    destruct (assign_frame idx vals x x') as [Hl Hout]; [|exact Ha|].
    { apply Forall_forall. intros k Hk. specialize (Hin k Hk). lia. }
    split; [exact Hl|]. intros p Hp. apply Hout.
    intros Hk. specialize (Hin _ Hk). lia. }
  destruct (glat_random_prob self) as [prob|].
  - destruct (negb (Qeq_bool prob 0)).
    + minv H.
      match goal with
      | Hk : select _ _ = Some ?kept, Ha : assign ps ?kept _ = Some ?ps1 |- _ =>
          destruct (Hsub kept _ ps ps1 (select_incl _ _ _ Hk) Ha) as [Hlen1 Hout1]
      end.
      match goal with
      | Hif : (if ?c then _ else _) _ = (Some ps', w') |- _ =>
          destruct c; [minv Hif | apply ret_inv in Hif; destruct Hif as [<- <-]]
      end.
      * match goal with
        | Hr : randint _ _ _ _ = _ |- _ => apply randint_inv in Hr
        end.
        match goal with
        | Hk : select _ (map negb _) = Some ?rest, Ha : assign ?ps1 ?rest _ = Some ps' |- _ =>
            destruct (Hsub rest _ ps1 ps' (select_incl _ _ _ Hk) Ha) as [Hlen2 Hout2]
        end.
        split; [assumption|]. split; [congruence|].
        intros p Hp. rewrite Hout2, Hout1 by assumption. reflexivity.
      * split; [reflexivity|]. split; assumption.
    + minv H.
      match goal with
      | Ha : assign ps _ _ = Some ps' |- _ =>
          destruct (Hsub _ _ _ _ (incl_refl _) Ha) as [Hlen1 Hout1]
      end.
      now repeat split.
  - minv H.
    match goal with
    | Ha : assign ps _ _ = Some ps' |- _ =>
        destruct (Hsub _ _ _ _ (incl_refl _) Ha) as [Hlen1 Hout1]
    end.
    now repeat split.
Qed.


Lemma glat_loop_frame im tm tgt N :
  forall indices i pseudo w out w',
    Forall (Forall (fun k => 0 <= k)) indices ->
    glat_loop self indices im tm tgt pseudo N i w = (Some out, w') ->
    bert_calls w' = bert_calls w /\
    length out = length pseudo /\
    (forall b ps ps',
       nth_error pseudo b = Some ps -> nth_error out b = Some ps' ->
       length ps' = length ps) /\
    forall b ps ps' tmr,
      nth_error pseudo b = Some ps -> nth_error out b = Some ps' ->
      nth_error tm b = Some tmr ->
      forall p, sumZ tmr <= Z.of_nat p -> nth_error ps' p = nth_error ps p.
Proof.
  induction indices as [|indice indices IH]; intros i pseudo w out w' Hn H.
  - simpl in H. apply ret_inv in H. destruct H as [-> ->].
    split; [reflexivity|]. split; [reflexivity|]. split.
    + intros b ps ps' H1 H2. congruence.
    + intros b ps ps' tmr H1 H2 _ p _. congruence.
  - inversion Hn as [|? ? Hn1 Hn2]; subst.
    simpl in H. minv H.
    match goal with
    | Hr : glat_reveal _ _ _ _ _ _ _ _ = _ |- _ =>
        apply glat_reveal_frame in Hr; [|exact Hn1]; destruct Hr as [Hw [Hrl Hrf]]
    end.
    match goal with
    | Hl : glat_loop _ _ _ _ _ _ _ _ _ = _ |- _ =>
        apply IH in Hl; [|exact Hn2]; destruct Hl as [Hw' [Hlen [Hrl' Hrows]]]
    end.
    rewrite length_set_nth in Hlen.
    assert (Hi : (i < length pseudo)%nat) by (apply nth_error_Some; congruence).
    split; [congruence|]. split; [exact Hlen|]. split.
    + intros b ps ps' Hps Hps'.
      destruct (Nat.eq_dec b i) as [->|Hne].
      * match goal with
        | Hrow : nth_error pseudo i = Some ?row |- _ =>
            assert (Erow : row = ps) by congruence; subst row
        end.
        rewrite (Hrl' i _ ps' (nth_error_set_nth_eq _ _ _ Hi) Hps'). exact Hrl.
      * apply (Hrl' b ps ps'); [|exact Hps'].
        rewrite nth_error_set_nth_neq by assumption. exact Hps.
    + intros b ps ps' tmr Hps Hps' Htm p Hp.
      destruct (Nat.eq_dec b i) as [->|Hne].
      * match goal with
        | Hrow : nth_error pseudo i = Some ?row, Htmi : nth_error tm i = Some ?tmi |- _ =>
            assert (Erow : row = ps) by congruence;
            assert (Etm : tmi = tmr) by congruence; subst row tmi
        end.
        rewrite (Hrows i _ ps' tmr (nth_error_set_nth_eq _ _ _ Hi) Hps' Htm p Hp).
        now apply Hrf.
      * apply (Hrows b ps ps' tmr); try assumption.
        rewrite nth_error_set_nth_neq by assumption. exact Hps.
Qed.

Local Abbreviation forward_glat' := (forward_glat bert cls self).

(** The encoder run of the glancing pass and the pseudo target it
    returns, under every setting. *)
Lemma forward_glat_frame src tgt pseudo ns nt w pseudo' N w' :
  forward_glat' src tgt pseudo ns nt w = (Some (pseudo', N), w') ->
  width tgt = width pseudo /\
  length src = length pseudo /\
  (exists att,
     create_attention_mask
       (fst (create_mask_and_position_ids ns (width src) None))
       (fst (create_mask_and_position_ids nt (width tgt) (Some ns))) = Some att /\
     length (snd (create_mask_and_position_ids ns (width src) None))
     = length (snd (create_mask_and_position_ids nt (width tgt) (Some ns))) /\
     bert_calls w' =
       bert_calls w ++
       [{| call_input_ids := map2 (@app Z) src pseudo;
           call_attention_mask := att;
           call_token_type_ids :=
             map2 (@app Z) (full_like src source_type_id)
                           (full_like pseudo target_type_id);
           call_position_ids :=
             map2 (@app Z)
               (snd (create_mask_and_position_ids ns (width src) None))
               (snd (create_mask_and_position_ids nt (width tgt) (Some ns))) |}]) /\
  length pseudo' = length pseudo /\
  (forall b ps ps',
     nth_error pseudo b = Some ps -> nth_error pseudo' b = Some ps' ->
     length ps' = length ps) /\
  forall b c ps ps',
    nth_error nt b = Some c ->
    nth_error pseudo b = Some ps ->
    nth_error pseudo' b = Some ps' ->
    forall p, c <= Z.of_nat p -> nth_error ps' p = nth_error ps p.
Proof.
  intros H. unfold forward_glat in H.
  destruct (create_mask_and_position_ids ns (width src) None)
    as [source_mask source_position_ids] eqn:Es.
  destruct (create_mask_and_position_ids nt (width tgt) (Some ns))
    as [target_mask target_position_ids] eqn:Et.
  cbv beta iota zeta in H. minv H.
  repeat match goal with
         | H : (_, _) = (_, _) |- _ => injection H as ? ?; subst
         end.
  unfold feed_bert in *.
  repeat match goal with
         | H : bind _ _ _ = (Some _, _) |- _ => minv H
         end.
  match goal with
  | H : call_bert _ _ _ = _ |- _ =>
      apply call_bert_inv in H; destruct H as [Hx [Hc1 _]]; subst
  end.
  match goal with
  | H : rand_tensor _ _ _ = _ |- _ =>
      apply rand_tensor_inv in H; destruct H as [Hrows [Hcols Hcn]]
  end.
  match goal with
  | _ : context [map argsort_desc ?noise] |- _ => rename noise into noise0
  end.
  assert (Hind : Forall (Forall (fun k => 0 <= k)) (map argsort_desc noise0)).
  { apply Forall_forall. intros perm Hp. apply in_map_iff in Hp.
    destruct Hp as [row [<- _]]. apply Forall_forall. intros k Hk.
    apply (Permutation_in _ (argsort_desc_perm row)) in Hk.
    apply in_arange in Hk. lia. }
  match goal with
  | H : glat_loop _ _ _ _ _ _ _ _ _ = _ |- _ =>
      apply glat_loop_frame in H; [|exact Hind]; destruct H as [Hcl [Hlo [Hll Hloop]]]
  end.
  match goal with
  | Hm : match glat_random_prob self with _ => _ end ?wa = (Some _, ?wb) |- _ =>
      assert (Hmask : bert_calls wb = bert_calls wa)
  end.
  { match goal with
    | Hm : match glat_random_prob self with _ => _ end _ = _ |- _ =>
        destruct (glat_random_prob self) as [prob|];
        [destruct (negb (Qeq_bool prob 0))|];
        [minv Hm | apply ret_inv in Hm; destruct Hm as [_ ->]; reflexivity
         | apply ret_inv in Hm; destruct Hm as [_ ->]; reflexivity]
    end.
    match goal with
    | Hr : rand_tensor _ _ _ = _ |- _ =>
        apply rand_tensor_inv in Hr; destruct Hr as [_ [_ Hr]]; exact Hr
    end. }
  split.
  { match goal with
    | H : (width tgt =? width pseudo)%nat = true |- _ => now apply Nat.eqb_eq in H
    end. }
  split; [assumption|].
  split.
  { eexists. split; [eassumption|]. split; [simpl; assumption|].
    simpl. congruence. }
  split; [exact Hlo|]. split; [exact Hll|].
  intros b c ps ps' Hc Hps Hps' p Hp.
  assert (Htm : nth_error target_mask b
                = Some (map (fun p => b2z (p <? c)) (arange (width tgt)))).
  { unfold create_mask_and_position_ids in Et. injection Et as <- _.
    exact (nth_error_map_some
             (fun c0 => map (fun p => b2z (p <? c0)) (arange (width tgt))) nt b c Hc). }
  apply (Hloop b ps ps' _ Hps Hps' Htm).
  rewrite sumZ_mask_row. lia.
Qed.

(** X22 — the glancing never writes beyond the valid target positions,
    whatever the fraction and the random replacement are set to: the
    pseudo target keeps its shape, and every position of an example from
    its target token count on keeps its token. *)
Theorem forward_glat_keeps_padding :
  forall src tgt pseudo ns nt w pseudo' N w',
    forward_glat bert cls self src tgt pseudo ns nt w = (Some (pseudo', N), w') ->
    length pseudo' = length pseudo /\
    (forall b ps ps',
       nth_error pseudo b = Some ps -> nth_error pseudo' b = Some ps' ->
       length ps' = length ps) /\
    forall b c ps ps',
      nth_error nt b = Some c ->
      nth_error pseudo b = Some ps ->
      nth_error pseudo' b = Some ps' ->
      forall p, c <= Z.of_nat p -> nth_error ps' p = nth_error ps p.
Proof.
  intros src tgt pseudo ns nt w pseudo' N w' H.
  destruct (forward_glat_frame _ _ _ _ _ _ _ _ _ H) as [_ [_ [_ Hf]]].
  exact Hf.
Qed.

End GlancingFrame.

(** ** The encoder runs of a training pass *)


Section TrainingRuns.

Variable ln : Q -> Q.
Variable bert : BertCall -> list (list (list Q)).
Variable cls : list (list (list Q)) -> list (list (list Q)).
Variable log_softmax : list Q -> list Q.
Variable cross_entropy : list Q -> Z -> Q.
Variable embed_length_weight : list (list Q).
Variable encoder_embed_dim : nat.
Variable self : NAT.


End TrainingRuns.

(** ** The label-smoothed loss of a batch *)

Section SmoothedBatch.

Variable ln : Q -> Q.

Lemma smoothed_loss_pos_inv crit output t v :
  smoothed_loss_pos ln crit output t = Some v ->
  0 <= t < Z.of_nat (length (one_hot crit)) /\
  (t = ignore_index crit -> (v == 0)%Q).
Proof.
  unfold smoothed_loss_pos, model_prob_row. intros H.
  destruct (Z.leb_spec 0 t); [|discriminate].
  destruct (Z.ltb_spec t (Z.of_nat (length (one_hot crit)))); [|discriminate].
  simpl in H. split; [lia|]. intros ->.
  rewrite Z.eqb_refl in H.
  destruct (_ =? _)%nat in H; [|discriminate]. injection H as <-.
  apply smoothed_loss_zero_row. apply Forall_forall.
  intros x Hx. apply in_map_iff in Hx. now destruct Hx as [y [<- _]].
Qed.

(** X24 — a label-smoothed loss that is computed has the shape of the
    target; every label then lies inside the vocabulary (a label outside
    raises), and the loss is 0 at every position whose label is the
    ignored index. *)
Theorem LabelSmoothingLoss_forward_ignored :
  forall crit output target loss,
    LabelSmoothingLoss_forward ln crit output target = Some loss ->
    same_dims loss target = true /\
    forall b p t,
      get2 target b p = Some t ->
      0 <= t < Z.of_nat (length (one_hot crit)) /\
      exists v, get2 loss b p = Some v /\
                (t = ignore_index crit -> (v == 0)%Q).
Proof.
  intros crit output target loss H. unfold LabelSmoothingLoss_forward in H.
  destruct (negb (forallb _ output)); [discriminate|].
  destruct (same_dims output target) eqn:Ed; [|discriminate]. simpl in H.
  apply same_dims_spec in Ed. destruct Ed as [Hl Hr].
  apply mapM_opt_Some in H. destruct H as [Hlen Hrows].
  rewrite length_combine, <- Hl, Nat.min_id in Hlen.
  assert (Hrow : forall b trow,
             nth_error target b = Some trow ->
             exists orow lrow,
               nth_error output b = Some orow /\ nth_error loss b = Some lrow /\
               length orow = length trow /\
               mapM_opt (fun rt => smoothed_loss_pos ln crit (fst rt) (snd rt))
                        (combine orow trow) = Some lrow).
  { intros b trow Ht.
    destruct (nth_error output b) as [orow|] eqn:Eo.
    2:{ apply nth_error_None in Eo.
        assert (b < length target)%nat by (apply nth_error_Some; congruence). lia. }
    destruct (Hrows b (orow, trow)) as [lrow [Hlr Hf]].
    { now apply nth_error_combine. }
    exists orow, lrow. repeat split; try assumption. exact (Hr b orow trow Eo Ht). }
  split.
  - apply same_dims_intro; [lia|].
    intros b lrow trow Hlr Ht.
    destruct (Hrow b trow Ht) as [orow [lrow' [Ho [Hlr' [Hlo Hm]]]]].
    assert (lrow' = lrow) by congruence. subst lrow'.
    apply mapM_opt_Some in Hm. destruct Hm as [Hm _].
    rewrite length_combine in Hm. lia.
  - intros b p t Hg. unfold get2 in *.
    destruct (nth_error target b) as [trow|] eqn:Et; [|discriminate].
    destruct (Hrow b trow Et) as [orow [lrow [Ho [Hlr [Hlo Hm]]]]].
    rewrite Hlr.
    apply mapM_opt_Some in Hm. destruct Hm as [_ Hm].
    destruct (nth_error orow p) as [o|] eqn:Eop.
    2:{ apply nth_error_None in Eop.
        assert (p < length trow)%nat by (apply nth_error_Some; congruence). lia. }
    destruct (Hm p (o, t)) as [v [Hv Hs]].
    { now apply nth_error_combine. }
    simpl in Hs. apply smoothed_loss_pos_inv in Hs. destruct Hs as [Hrange Hz].
    split; [exact Hrange|]. exists v. split; [exact Hv | exact Hz].
Qed.

End SmoothedBatch.

(** ** The random draws of the glancing *)

Lemma rand_tensor_rng rows cols w noise w' :
  rand_tensor rows cols w = (Some noise, w') ->
  rng_pos w' = (rng_pos w + rows * cols)%nat /\ rng_draws w' = rng_draws w.
Proof.
  unfold rand_tensor, rand, bind, ret. intros H. injection H as _ <-. now split.
Qed.

Section GlancingDraws.

Variable bert : BertCall -> list (list (list Q)).
Variable cls : list (list (list Q)) -> list (list (list Q)).
Variable self : NAT.

(** The random replacement is off: [glat_random_prob] is unset or 0. *)
Hypothesis replacement_off :
  match glat_random_prob self with
  | Some prob => Qeq_bool prob 0 = true
  | None => True
  end.

Lemma glat_reveal_no_draw indice im tm t ps n w ps' w' :
  glat_reveal self indice im tm t ps n w = (Some ps', w') -> w' = w.
Proof.
  unfold glat_reveal. intros H.
  destruct (glat_random_prob self) as [prob|].
  - rewrite replacement_off in H. simpl in H. minv H. reflexivity.
  - minv H. reflexivity.
Qed.

Lemma glat_loop_no_draw im tm tgt N :
  forall indices i pseudo w out w',
    glat_loop self indices im tm tgt pseudo N i w = (Some out, w') -> w' = w.
Proof.
  induction indices as [|indice indices IH]; intros i pseudo w out w' H.
  - simpl in H. apply ret_inv in H. now destruct H as [_ ->].
  - simpl in H. minv H.
    match goal with
    | Hr : glat_reveal _ _ _ _ _ _ _ _ = _ |- _ => apply glat_reveal_no_draw in Hr; subst
    end.
    match goal with
    | Hl : glat_loop _ _ _ _ _ _ _ _ _ = _ |- _ => apply IH in Hl; subst
    end.
    reflexivity.
Qed.

(** X25 — with the random replacement off, a glancing pass draws exactly
    one random number per position of the pseudo target, the noise whose
    order picks the positions to reveal, and runs the encoder once. *)
Theorem forward_glat_draws :
  forall src tgt pseudo ns nt w pseudo' N w',
    forward_glat bert cls self src tgt pseudo ns nt w = (Some (pseudo', N), w') ->
    rng_pos w' = (rng_pos w + length pseudo * width pseudo)%nat /\
    rng_draws w' = rng_draws w /\
    length (bert_calls w') = S (length (bert_calls w)).
Proof.
  intros src tgt pseudo ns nt w pseudo' N w' H.
  pose proof (forward_glat_frame _ _ _ _ _ _ _ _ _ _ _ _ H)
    as [_ [_ [[att [_ [_ Hc]]] _]]].
  split; [|split; [|rewrite Hc, length_app; simpl; lia]].
  all: unfold forward_glat in H;
    destruct (create_mask_and_position_ids ns (width src) None)
      as [source_mask source_position_ids];
    destruct (create_mask_and_position_ids nt (width tgt) (Some ns))
      as [target_mask target_position_ids];
    cbv beta iota zeta in H; minv H;
    repeat match goal with
           | H : (_, _) = (_, _) |- _ => injection H as ? ?; subst
           end;
    unfold feed_bert in *;
    repeat match goal with
           | H : bind _ _ _ = (Some _, _) |- _ => minv H
           end;
    match goal with
    | H : call_bert _ _ _ = _ |- _ =>
        apply call_bert_inv in H; destruct H as [_ [_ [Hp1 Hd1]]]
    end;
    match goal with
    | H : rand_tensor _ _ _ = _ |- _ =>
        apply rand_tensor_rng in H; destruct H as [Hp2 Hd2]
    end;
    match goal with
    | H : glat_loop _ _ _ _ _ _ _ _ _ = _ |- _ =>
        apply glat_loop_no_draw in H; subst
    end;
    match goal with
    | Hm : match glat_random_prob self with _ => _ end _ = _ |- _ =>
        destruct (glat_random_prob self) as [prob|];
        [rewrite replacement_off in Hm; simpl in Hm|];
        apply ret_inv in Hm; destruct Hm as [_ ->]
    end;
    congruence.
Qed.

End GlancingDraws.

(** *** Concrete runs *)

Lemma assign_single_value_long_error_witness :
  assign_single_value_long [[1; 2]; [3; 4]; [5; 6]] [[0]; [1]] 9 = None /\
  assign_single_value_long [[1; 2]; [3; 4]] [[0]] 9 <> None /\
  assign_single_value_long [[1; 2]] [] 9 <> None.
Proof.
  split; [|split].
  - apply (proj1 (proj2 (assign_single_value_long_error
                           [[1; 2]; [3; 4]; [5; 6]] [[0]; [1]] 9)));
      discriminate.
  - intros H.
    apply (proj1 (proj2 (proj2 (proj2 (assign_single_value_long_error
                                         [[1; 2]; [3; 4]] [[0]] 9))
                                 ltac:(simpl; lia) ltac:(repeat constructor)))
             eq_refl) in H.
    destruct H as [r [v [Hr [[<-|[]] Hout]]]]. apply Hout.
    simpl in Hr. destruct r as [|[|r]]; simpl; lia.
  - intros H.
    apply (proj2 (proj2 (proj2 (proj2 (assign_single_value_long_error [[1; 2]] [] 9))
                                 ltac:(simpl; lia) ltac:(repeat constructor)))
             eq_refl) in H.
    destruct H as [row [v [[] _]]].
Defined.

Lemma NAT_init_error_witness :
  exists self,
    NAT_init false None (1 # 2) 0 102 103 0 3 = Some self /\
    crit_mask_lm_smoothed self = None.
Proof.
  apply (proj2 (NAT_init_error false None (1 # 2) 0 102 103 0 3)).
  discriminate.
Defined.

Lemma forward_rejects_bad_widths_witness :
  Stub.forward (Stub.config true (1 # 2))
    [[11; 12]] [[5; 6]] [[103]] [2] [2] false Stub.world
  = (None, Stub.world).
Proof.
  unfold Stub.forward. apply forward_rejects_bad_widths.
  left. discriminate.
Defined.

Lemma forward_decode_encoder_runs_witness :
  exists toks lens w',
    Stub.forward_decode (Stub.config false (1 # 2))
      [[11; 11]; [12; 12]] [[0; 0]; [0; 0]] [[0; 1]; [0; 1]] [[1; 1]; [1; 1]]
      (Some [2; 4]) Stub.world
    = (Some (toks, lens), w') /\
    lens = [3; 5] /\
    exists c, bert_calls w' = [c].
Proof.
  unfold Stub.forward_decode.
  match goal with
  | |- context [forward_decode ?a ?b ?c ?d ?e ?f ?g ?h ?i ?j ?k ?m] =>
      destruct (forward_decode a b c d e f g h i j k m)
        as [[[toks lens]|] w'] eqn:E
  end; [|vm_compute in E; discriminate E].
  destruct (forward_decode_encoder_runs _ _ _ _ _ _ _ _ _ _ _ _ _ _ _ E)
    as [_ [_ [Hl [c Hc]]]].
  exists toks, lens, w'. split; [reflexivity|]. split.
  - apply Hl. repeat constructor; lia.
  - exists c. exact Hc.
Defined.

(** A supplied length at the end of the [torch.long] range wraps when
    it is incremented. *)
Example forward_decode_supplied_length_wraps :
  fst (Stub.forward_decode (Stub.config false (1 # 2))
         [[11; 11]; [12; 12]] [[0; 0]; [0; 0]] [[0; 1]; [0; 1]] [[1; 1]; [1; 1]]
         (Some [2 ^ 63 - 1; 5]) Stub.world)
  = Some ([[0; 0; 0; 0; 0; 0]; [1; 1; 1; 1; 1; 1]], [- 2 ^ 63; 6]).
Proof. vm_compute. reflexivity. Qed.

Lemma forward_decode_last_run_segments_witness :
  exists toks lens w' calls c s,
    Stub.forward_decode (Stub.config false (1 # 2))
      [[11; 11]; [12; 12]] [[1; 1]; [1; 1]] [[0; 1]; [0; 1]] [[1; 1]; [1; 1]]
      None Stub.world
    = (Some (toks, lens), w') /\
    bert_calls w' = calls ++ [c] /\
    (s <= 2)%nat /\
    nth_error (call_token_type_ids c) 0
    = Some (repeat 0 s ++ repeat 1 (Z.to_nat (fold_right Z.max (hd 0 lens) (tl lens)))).
Proof.
  unfold Stub.forward_decode.
  match goal with
  | |- context [forward_decode ?a ?b ?c ?d ?e ?f ?g ?h ?i ?j ?k ?m] =>
      destruct (forward_decode a b c d e f g h i j k m)
        as [[[toks lens]|] w'] eqn:E
  end; [|vm_compute in E; discriminate E].
  destruct (forward_decode_last_run_segments _ _ _ _ _ _ _ _ _ _ _ _ _ _ _ E)
    as [calls [c [Hc [_ Hrows]]]].
  destruct (Hrows 0%nat [11; 11] eq_refl) as [s [Hs Hrow]].
  exists toks, lens, w', calls, c, s.
  split; [reflexivity|]. split; [exact Hc|]. split; [exact Hs | exact Hrow].
Defined.

Lemma forward_decode_fits_encoder_witness :
  exists toks lens w' calls c,
    Stub.forward_decode (Stub.config false (1 # 2))
      [[11; 11]; [12; 12]] [[0; 0]; [0; 0]] [[0; 1]; [0; 1]] [[1; 1]; [1; 1]]
      None Stub.world
    = (Some (toks, lens), w') /\
    bert_calls w' = calls ++ [c] /\
    length (call_input_ids c) = 2%nat.
Proof.
  unfold Stub.forward_decode.
  match goal with
  | |- context [forward_decode ?a ?b ?c ?d ?e ?f ?g ?h ?i ?j ?k ?m] =>
      destruct (forward_decode a b c d e f g h i j k m)
        as [[[toks lens]|] w'] eqn:E
  end; [|vm_compute in E; discriminate E].
  assert (Hrect : forall row, In row [[11; 11]; [12; 12]] ->
                              length row = width [[11; 11]; [12; 12]]).
  { intros row [<-|[<-|[]]]; reflexivity. }
  destruct (forward_decode_fits_encoder _ _ _ _ _ _ _ _ _ _ _ _ _ _ Hrect E)
    as [calls [c [Hc [Hl _]]]].
  exists toks, lens, w', calls, c.
  split; [reflexivity|]. split; [exact Hc | exact Hl].
Defined.

Lemma forward_decode_output_shape_witness :
  exists toks lens w',
    Stub.forward_decode (Stub.config false (1 # 2))
      [[11; 11]; [12; 12]] [[0; 0]; [0; 0]] [[0; 1]; [0; 1]] [[1; 1]; [1; 1]]
      None Stub.world
    = (Some (toks, lens), w') /\
    length toks = 2%nat /\ length lens = 2%nat.
Proof.
  unfold Stub.forward_decode.
  match goal with
  | |- context [forward_decode ?a ?b ?c ?d ?e ?f ?g ?h ?i ?j ?k ?m] =>
      destruct (forward_decode a b c d e f g h i j k m)
        as [[[toks lens]|] w'] eqn:E
  end; [|vm_compute in E; discriminate E].
  destruct (forward_decode_output_shape _ _ _ _ _ _ _ _ _ _ _ _ _ _ _ E)
    as [Ht [Hl _]].
  exists toks, lens, w'. split; [reflexivity|]. split; [exact Ht | exact Hl].
Defined.



Lemma decode_source_attention_consistent_witness :
  exists toks lens w' c1 c2 v,
    Stub.forward_decode (Stub.config false (1 # 2))
      [[11; 12; 0]; [11; 12; 13]] [[0; 0; 1]; [0; 0; 0]] [[0; 1; 0]; [0; 1; 2]]
      [[1; 1; 0]; [1; 1; 1]] None Stub.world
    = (Some (toks, lens), w') /\
    bert_calls w' = [c1; c2] /\
    get3 (call_attention_mask c2) 0 0 1 = Some v /\
    get3 (call_attention_mask c1) 0 0 1 = Some v /\
    v = 1.
Proof.
  unfold Stub.forward_decode.
  match goal with
  | |- context [forward_decode ?a ?b ?c ?d ?e ?f ?g ?h ?i ?j ?k ?m] =>
      destruct (forward_decode a b c d e f g h i j k m)
        as [[[toks lens]|] w'] eqn:E
  end; [|vm_compute in E; discriminate E].
  pose proof E as E'. vm_compute in E'. injection E' as _ El _.
  destruct (decode_source_attention_consistent _ _ _ _ _ _ _ _ _ _ _ _ _ _ E)
    as [c1 [c2 [Hc Hv]]].
  rewrite <- El in Hv.
  destruct (Hv 0%nat [11; 12; 0] 0%nat 1%nat eq_refl
              ltac:(vm_compute; lia) ltac:(vm_compute; lia))
    as [v [H2 [H1 H3]]].
  exists toks, lens, w', c1, c2, v.
  split; [reflexivity|]. split; [exact Hc|]. split; [exact H2|].
  split; [exact H1|]. apply H3. split; discriminate.
Defined.

Lemma forward_decode_mode_accuracy_witness :
  exists toks lens len_acc tokens_acc w' la,
    Stub.forward (Stub.config false (1 # 2))
      [[11; 12; 0]; [11; 12; 13]] [[5; 0]; [5; 6]] [[103; 103]; [103; 103]]
      [2; 3] [1; 2] true Stub.world
    = (Some (Decoded toks lens len_acc tokens_acc), w') /\
    length toks = 2%nat /\
    len_acc = Some la /\ (0 <= la)%Q /\ (la <= 1)%Q.
Proof.
  unfold Stub.forward.
  match goal with
  | |- context [forward ?a ?b ?c ?d ?e ?f ?g ?h ?i ?j ?k ?l ?m ?n ?o] =>
      destruct (forward a b c d e f g h i j k l m n o) as [[r|] w'] eqn:E
  end; [|vm_compute in E; discriminate E].
  destruct r as [toks lens len_acc tokens_acc|]; [|vm_compute in E; discriminate E].
  destruct (forward_decode_mode_accuracy _ _ _ _ _ _ _ _ _ _ _ _ _ _ _ _ _ _ _ E)
    as [Ht [_ Hacc]].
  destruct (Hacc eq_refl) as [[la [Hla [H0 H1]]] _].
  exists toks, lens, len_acc, tokens_acc, w', la.
  split; [reflexivity|]. split; [exact Ht|].
  split; [exact Hla|]. split; [exact H0 | exact H1].
Defined.

(** One target row against two sources is broadcast: both decoded rows
    are compared with it and the hits are divided by the valid positions
    of the one target row, a token accuracy of 2.  A target of pad
    tokens only has no token accuracy. *)
Example forward_decode_mode_broadcast :
  fst (Stub.forward (Stub.config false (1 # 2))
         [[11; 12; 0]; [11; 12; 13]] [[1; 1]] [[103; 103]; [103; 103]]
         [2; 3] [2] true Stub.world)
  = Some (Decoded [[1; 1; 1; 1; 1; 1; 1]; [1; 1; 1; 1; 1; 1; 1]] [7; 7]
                  (Some (0 # 1)) (Some (4 # 2))) /\
  fst (Stub.forward (Stub.config false (1 # 2))
         [[11; 12; 0]; [11; 12; 13]] [[0; 0]; [0; 0]] [[103; 103]; [103; 103]]
         [2; 3] [2] true Stub.world)
  = Some (Decoded [[1; 1; 1; 1; 1; 1; 1]; [1; 1; 1; 1; 1; 1; 1]] [7; 7]
                  (Some (0 # 2)) None).
Proof. split; vm_compute; reflexivity. Qed.

Lemma forward_glat_keeps_padding_witness :
  exists pseudo' N w' ps',
    Stub.forward_glat (Stub.config true (1 # 2))
      [[11; 12; 0]; [11; 12; 13]] [[5; 0; 0]; [5; 6; 7]]
      [[103; 103; 103]; [103; 103; 103]] [2; 3] [1; 3] Stub.world
    = (Some (pseudo', N), w') /\
    nth_error pseudo' 0 = Some ps' /\
    nth_error ps' 2 = Some 103.
Proof.
  unfold Stub.forward_glat.
  match goal with
  | |- context [forward_glat ?a ?b ?c ?d ?e ?f ?g ?h ?i] =>
      destruct (forward_glat a b c d e f g h i) as [[[pseudo' N]|] w'] eqn:E
  end; [|vm_compute in E; discriminate E].
  destruct (forward_glat_keeps_padding _ _ _ _ _ _ _ _ _ _ _ _ E) as [Hl [_ Hf]].
  destruct (nth_error pseudo' 0) as [ps'|] eqn:Eps.
  2:{ apply nth_error_None in Eps. simpl in Hl. lia. }
  exists pseudo', N, w', ps'. split; [reflexivity|]. split; [exact Eps|].
  assert (Hp : 1 <= Z.of_nat 2) by (simpl; lia).
  exact (Hf 0%nat 1 [103; 103; 103] ps' eq_refl eq_refl Eps 2%nat Hp).
Defined.


Lemma LabelSmoothingLoss_forward_ignored_witness :
  let crit := {| ignore_index := 0; one_hot := [0; 1 # 20; 1 # 20; 1 # 20]%Q;
                 confidence := (9 # 10)%Q; tgt_vocab_size := 4 |} in
  exists loss v,
    LabelSmoothingLoss_forward Stub.ln crit [[[0; 0; 0; 0]; [0; 0; 0; 0]]]%Q [[0; 2]]
    = Some loss /\
    get2 loss 0 0 = Some v /\ (v == 0)%Q.
Proof.
  intros crit.
  destruct (LabelSmoothingLoss_forward Stub.ln crit
              [[[0; 0; 0; 0]; [0; 0; 0; 0]]]%Q [[0; 2]]) as [loss|] eqn:E;
    [|vm_compute in E; discriminate E].
  destruct (LabelSmoothingLoss_forward_ignored _ _ _ _ _ E) as [_ H].
  destruct (H 0%nat 0%nat 0 eq_refl) as [_ [v [Hv Hz]]].
  exists loss, v. split; [reflexivity|]. split; [exact Hv|]. now apply Hz.
Defined.

Lemma forward_glat_draws_witness :
  exists pseudo' N w',
    Stub.forward_glat (Stub.config true (1 # 2))
      [[11; 12; 0]; [11; 12; 13]] [[5; 0; 0]; [5; 6; 7]]
      [[103; 103; 103]; [103; 103; 103]] [2; 3] [1; 3] Stub.world
    = (Some (pseudo', N), w') /\
    rng_pos w' = 6%nat.
Proof.
  unfold Stub.forward_glat.
  match goal with
  | |- context [forward_glat ?a ?b ?c ?d ?e ?f ?g ?h ?i] =>
      destruct (forward_glat a b c d e f g h i) as [[[pseudo' N]|] w'] eqn:E
  end; [|vm_compute in E; discriminate E].
  destruct (forward_glat_draws Stub.bert Stub.cls (Stub.config true (1 # 2)) I
              _ _ _ _ _ _ _ _ _ E) as [Hp _].
  exists pseudo', N, w'. split; [reflexivity | exact Hp].
Defined.

Lemma forward_decode_returns_witness :
  returns (Stub.forward_decode (Stub.config false (1 # 2))
             [[11; 11]; [12; 12]] [[0; 0]; [0; 0]] [[0; 1]; [0; 1]] [[1; 1]; [1; 1]]
             None)
          (fun r => length (fst r) = 2%nat /\ length (snd r) = 2%nat).
Proof.
  unfold Stub.forward_decode.
  apply (forward_decode_returns Stub.bert Stub.cls Stub.log_softmax
           Stub.embed_length_weight Stub.encoder_embed_dim
           (Stub.config false (1 # 2)) stub_bert_dims stub_cls_dims).
  - discriminate.
  - intros row [<-|[<-|[]]]; reflexivity.
  - reflexivity.
Defined.
